(** * simple-proxy: the manifest rewriter and the segment cache

    A shallow embedding of [src/routes/m3u8-proxy.ts] and
    [src/routes/ts-proxy.ts].

    Conventions of the embedding.
    - A JavaScript string is modelled by the bytes of its UTF-8 encoding
      (Rocq's [string]); the strings the handlers see were decoded from
      UTF-8 (query parameters, response bodies).  Where the source takes
      a string apart by UTF-16 code unit (object spread), [units] lists
      the code units, a surrogate on its own being written with the
      three bytes a character of its code would have.
    - A JavaScript number is a binary64 float where the source computes
      with it ([getCacheStats]); counts and time stamps are [nat] and [Z].
    - [Date.now()] is an explicit argument [now : Z] (milliseconds).
    - The module-level [segmentCache] is passed in and out explicitly.
    - What the platform supplies ([URL], [JSON], [fetch]) is a variable of
      the section that uses it.
    - A thrown exception is the [Throw] case of [outcome]. *)

From Stdlib Require Import List String Ascii ZArith NArith Lia Bool Arith.
From Stdlib Require Import Permutation Sorted.
From Stdlib Require Import Floats Uint63 DecimalString.
From Stdlib Require Init.Byte DecimalNat DecimalFacts.
Import ListNotations.
Open Scope string_scope.


(* ================================================================== *)
(** * The String methods the handlers call *)
(* ================================================================== *)

Module JsString.

Definition LF : ascii := "010"%char.
Definition DQUOTE : ascii := "034"%char.

(** The one-character string the source writes as a backslash-n escape. *)
Definition nl : string := String LF EmptyString.

(** [s.startsWith(p)] *)
Fixpoint startsWith (s p : string) {struct p} : bool :=
  match p with
  | EmptyString => true
  | String a p' =>
      match s with
      | EmptyString => false
      | String b s' => Ascii.eqb a b && startsWith s' p'
      end
  end.

(** [s.includes(needle)] *)
Fixpoint includes (s needle : string) : bool :=
  if startsWith s needle then true
  else match s with
       | EmptyString => false
       | String _ r => includes r needle
       end.

(** The suffix of [s] after its first [n] units. *)
Fixpoint drop (n : nat) (s : string) : string :=
  match n, s with
  | S k, String _ r => drop k r
  | _, _ => s
  end.

(** The first occurrence of [needle] in [s]: what stands before it and
    what stands after it ([s.indexOf(needle)], as a cut). *)
Fixpoint cut (s needle : string) : option (string * string) :=
  if startsWith s needle then Some (EmptyString, drop (String.length needle) s)
  else match s with
       | EmptyString => None
       | String c r =>
           match cut r needle with
           | Some (pre, post) => Some (String c pre, post)
           | None => None
           end
       end.

(** [s.split(nl)]: always at least one piece. *)
Fixpoint split_nl (s : string) : list string :=
  match s with
  | EmptyString => [EmptyString]
  | String c r =>
      if Ascii.eqb c LF then EmptyString :: split_nl r
      else match split_nl r with
           | l :: ls => String c l :: ls
           | [] => [String c EmptyString]
           end
  end.

(** [lines.join(nl)] *)
Definition join_nl (lines : list string) : string := String.concat nl lines.

(** A line feed occurs in [s]: [s] is more than one line. *)
Fixpoint hasLF (s : string) : bool :=
  match s with
  | EmptyString => false
  | String c r => Ascii.eqb c LF || hasLF r
  end.

(** ** White space

    [trim] and the regular expressions' [\s] share ECMAScript's WhiteSpace
    and LineTerminator code points.  [ws_len s] is the number of bytes of
    the white-space character [s] starts with, 0 when it starts with none:
    TAB, LF, VT, FF, CR, SP; U+00A0; U+1680; U+2000..U+200A; U+2028; U+2029;
    U+202F; U+205F; U+3000; U+FEFF. *)
Definition ws_len (s : string) : nat :=
  match s with
  | EmptyString => 0
  | String a r =>
      let x := N_of_ascii a in
      if ((9 <=? x) && (x <=? 13) || (x =? 32))%N then 1
      else match r with
           | EmptyString => 0
           | String b r2 =>
               let y := N_of_ascii b in
               if ((x =? 194) && (y =? 160))%N then 2
               else match r2 with
                    | EmptyString => 0
                    | String c _ =>
                        let z := N_of_ascii c in
                        if ((x =? 225) && (y =? 154) && (z =? 128)
                            || (x =? 226) && (y =? 128)
                               && ((128 <=? z) && (z <=? 138)
                                   || (z =? 168) || (z =? 169) || (z =? 175))
                            || (x =? 226) && (y =? 129) && (z =? 159)
                            || (x =? 227) && (y =? 128) && (z =? 128)
                            || (x =? 239) && (y =? 187) && (z =? 191))%N
                        then 3 else 0
                    end
           end
  end.

(** [s.trimStart()]: [skip] counts the bytes still to drop of the
    white-space character being removed. *)
Fixpoint trimStart_from (skip : nat) (s : string) : string :=
  match skip, s with
  | S k, String _ r => trimStart_from k r
  | S _, EmptyString => EmptyString
  | O, EmptyString => EmptyString
  | O, String _ r =>
      match ws_len s with
      | O => s
      | S k => trimStart_from k r
      end
  end.

Definition trimStart (s : string) : string := trimStart_from 0 s.

(** [s.trimEnd()]: a tail that is all white space is dropped; the test
    [ws_len t = length t] fires once the kept part is one white-space
    character followed by nothing. *)
Fixpoint trimEnd (s : string) : string :=
  match s with
  | EmptyString => EmptyString
  | String c r =>
      let t := String c (trimEnd r) in
      if Nat.eqb (ws_len t) (String.length t) then EmptyString else t
  end.

(** [s.trim()] *)
Definition trim (s : string) : string := trimEnd (trimStart s).

(** JavaScript's truthiness of a string: not empty. *)
Definition truthy (s : string) : bool :=
  match s with EmptyString => false | String _ _ => true end.

(** ** [str.replace(pattern, replacement)] with a string pattern

    The first occurrence is replaced, and the replacement text is expanded
    as GetSubstitution does when there are no capture groups: [$$] is a
    dollar, [$&] the matched text, [$`] what precedes it, [$'] what follows
    it; any other dollar stands for itself. *)
Fixpoint getSubstitution (matched pre post template : string) : string :=
  match template with
  | EmptyString => EmptyString
  | String a r =>
      if Ascii.eqb a "$" then
        match r with
        | EmptyString => String a EmptyString
        | String b r' =>
            if Ascii.eqb b "$" then String "$" (getSubstitution matched pre post r')
            else if Ascii.eqb b "&" then matched ++ getSubstitution matched pre post r'
            else if Ascii.eqb b "`" then pre ++ getSubstitution matched pre post r'
            else if Ascii.eqb b "'" then post ++ getSubstitution matched pre post r'
            else String a (getSubstitution matched pre post r)
        end
      else String a (getSubstitution matched pre post r)
  end.

Definition replace (s pattern replacement : string) : string :=
  match cut s pattern with
  | None => s
  | Some (pre, post) => pre ++ getSubstitution pattern pre post replacement ++ post
  end.

(** ** [encodeURIComponent]

    Every byte of the UTF-8 encoding is escaped as a percent sign and two
    upper-case hexadecimal digits, except the unreserved characters
    [A-Z a-z 0-9 - _ . ! ~ * ' ( )]. *)
Definition unreserved (a : ascii) : bool :=
  let x := N_of_ascii a in
  ((48 <=? x) && (x <=? 57) || (65 <=? x) && (x <=? 90)
   || (97 <=? x) && (x <=? 122)
   || (x =? 45) || (x =? 95) || (x =? 46) || (x =? 33) || (x =? 126)
   || (x =? 42) || (x =? 39) || (x =? 40) || (x =? 41))%N.

Definition hexDigit (d : N) : ascii :=
  if (d <? 10)%N then ascii_of_N (48 + d) else ascii_of_N (55 + d).

Fixpoint encodeURIComponent (s : string) : string :=
  match s with
  | EmptyString => EmptyString
  | String a r =>
      if unreserved a then String a (encodeURIComponent r)
      else
        let x := N_of_ascii a in
        String "%" (String (hexDigit (x / 16)) (String (hexDigit (x mod 16))
          (encodeURIComponent r)))
  end.

End JsString.

(* ================================================================== *)
(** * A backtracking matcher for the regular expressions of the source *)
(* ================================================================== *)

(** The three regular expressions of [m3u8-proxy.ts] are written below as
    syntax trees and run by one matcher, which tries alternatives in
    ECMAScript's order: the left branch of [|] first, a greedy quantifier
    the longest run first, a lazy one the shortest first.  A character
    class looks at the remaining input and accepts or refuses its first
    unit. *)
Module Regex.

Definition class := string -> bool.

Inductive regex : Type :=
| Empty
| Bol                              (* ^ *)
| Eol                              (* $ *)
| Unit (c : class)                 (* one unit of a class *)
| Seq (a b : regex)
| Alt (a b : regex)                (* a|b *)
| Opt (a : regex)                  (* a? *)
| Star (c : class)                 (* c* *)
| StarLazy (c : class)             (* c*? *)
| UpTo (n : nat) (c : class)       (* c{0,n} *)
| Group (i : nat) (a : regex)      (* the i-th capture group *)
| Ahead (a : regex).               (* (?=a) *)

Definition Plus (c : class) : regex := Seq (Unit c) (Star c).
Definition PlusLazy (c : class) : regex := Seq (Unit c) (StarLazy c).

(** Capture groups that took part in the match, latest first. *)
Definition captures := list (nat * string).

Fixpoint capture (i : nat) (cs : captures) : option string :=
  match cs with
  | [] => None
  | (j, s) :: cs' => if Nat.eqb i j then Some s else capture i cs'
  end.

(** [run r k pos rest cs] matches [r] at offset [pos], where [rest] is the
    input from there on, and hands the offset, input and captures it
    reached to the continuation [k]; when [k] fails, the next alternative
    of [r] is tried. *)
Fixpoint run (r : regex) (k : nat -> string -> captures -> option (nat * captures))
    (pos : nat) (rest : string) (cs : captures) {struct r} : option (nat * captures) :=
  match r with
  | Empty => k pos rest cs
  | Bol => if Nat.eqb pos 0 then k pos rest cs else None
  | Eol => match rest with EmptyString => k pos rest cs | String _ _ => None end
  | Unit c =>
      match rest with
      | String _ rest' => if c rest then k (S pos) rest' cs else None
      | EmptyString => None
      end
  | Seq a b => run a (run b k) pos rest cs
  | Alt a b =>
      match run a k pos rest cs with
      | Some res => Some res
      | None => run b k pos rest cs
      end
  | Opt a =>
      match run a k pos rest cs with
      | Some res => Some res
      | None => k pos rest cs
      end
  | Star c =>
      (fix star (rest : string) (pos : nat) {struct rest} :=
         match rest with
         | String _ rest' =>
             if c rest then
               match star rest' (S pos) with
               | Some res => Some res
               | None => k pos rest cs
               end
             else k pos rest cs
         | EmptyString => k pos rest cs
         end) rest pos
  | StarLazy c =>
      (fix star (rest : string) (pos : nat) {struct rest} :=
         match k pos rest cs with
         | Some res => Some res
         | None =>
             match rest with
             | String _ rest' => if c rest then star rest' (S pos) else None
             | EmptyString => None
             end
         end) rest pos
  | UpTo n c =>
      (fix upto (n : nat) (rest : string) (pos : nat) {struct n} :=
         match n, rest with
         | S n', String _ rest' =>
             if c rest then
               match upto n' rest' (S pos) with
               | Some res => Some res
               | None => k pos rest cs
               end
             else k pos rest cs
         | _, _ => k pos rest cs
         end) n rest pos
  | Group i a =>
      run a (fun pos' rest' cs' =>
               k pos' rest' ((i, String.substring 0 (pos' - pos) rest) :: cs'))
          pos rest cs
  | Ahead a =>
      match run a (fun p _ cs' => Some (p, cs')) pos rest cs with
      | Some (_, cs') => k pos rest cs'
      | None => None
      end
  end.

(** What [RegExp.prototype.exec] returns on success: where the match
    starts, the matched text and the groups. *)
Record match_result : Type := MkMatch {
  index : nat;
  matched : string;
  groups : captures
}.

Definition group (i : nat) (m : match_result) : option string := capture i (groups m).

Definition matchAt (r : regex) (pos : nat) (rest : string) : option match_result :=
  match run r (fun p _ cs => Some (p, cs)) pos rest [] with
  | Some (p, cs) => Some (MkMatch pos (String.substring 0 (p - pos) rest) cs)
  | None => None
  end.

(** The leftmost match, searching from offset [pos]. *)
Fixpoint search (r : regex) (pos : nat) (rest : string) : option match_result :=
  match matchAt r pos rest with
  | Some m => Some m
  | None =>
      match rest with
      | String _ rest' => search r (S pos) rest'
      | EmptyString => None
      end
  end.

(** [regex.exec(s)] with [lastIndex] 0, and [s.match(regex)] without the
    [g] flag. *)
Definition exec (r : regex) (s : string) : option match_result := search r 0 s.

(** [regex.test(s)] *)
Definition test (r : regex) (s : string) : bool :=
  match exec r s with Some _ => true | None => false end.

(** ** Classes and literals *)

Definition toLower (a : ascii) : ascii :=
  let x := N_of_ascii a in
  if ((65 <=? x) && (x <=? 90))%N then ascii_of_N (x + 32) else a.

Definition chr (a : ascii) : class :=
  fun rest => match rest with String b _ => Ascii.eqb a b | EmptyString => false end.

(** A letter under the [i] flag. *)
Definition chrI (a : ascii) : class :=
  fun rest =>
    match rest with
    | String b _ => Ascii.eqb (toLower a) (toLower b)
    | EmptyString => false
    end.

Fixpoint lit (s : string) : regex :=
  match s with
  | EmptyString => Empty
  | String a EmptyString => Unit (chr a)
  | String a r => Seq (Unit (chr a)) (lit r)
  end.

Fixpoint litI (s : string) : regex :=
  match s with
  | EmptyString => Empty
  | String a EmptyString => Unit (chrI a)
  | String a r => Seq (Unit (chrI a)) (litI r)
  end.

(** [[\/?]] *)
Definition slashOrQuery : class :=
  fun rest =>
    match rest with
    | String b _ => Ascii.eqb b "/" || Ascii.eqb b "?"
    | EmptyString => false
    end.

(** [[^\/?]] *)
Definition notSlashOrQuery : class :=
  fun rest =>
    match rest with
    | String b _ => negb (Ascii.eqb b "/" || Ascii.eqb b "?")
    | EmptyString => false
    end.

(** [\d] *)
Definition digit : class :=
  fun rest =>
    match rest with
    | String b _ => let x := N_of_ascii b in ((48 <=? x) && (x <=? 57))%N
    | EmptyString => false
    end.

(** [[\S\s]] *)
Definition anyUnit : class :=
  fun rest => match rest with String _ _ => true | EmptyString => false end.

(** The class of every unit that is neither a double quote nor white
    space (the key and media directives' URL pattern ends with it). *)
Definition notQuoteOrSpace : class :=
  fun rest =>
    match rest with
    | String b _ => negb (Ascii.eqb b JsString.DQUOTE) && Nat.eqb (JsString.ws_len rest) 0
    | EmptyString => false
    end.

End Regex.

(* ================================================================== *)
(** * Values exchanged with the platform *)
(* ================================================================== *)

(** An exception value: its [message], and the [response.status] some
    HTTP client errors carry ([error.response?.status]). *)
Record exn : Type := MkExn {
  message : string;
  response_status : option nat
}.

(** [new Error(msg)] *)
Definition Error (msg : string) : exn := MkExn msg None.

(** A computation that returns or throws. *)
Inductive outcome (A : Type) : Type :=
| Ok (a : A)
| Throw (e : exn).
Arguments Ok {A} a.
Arguments Throw {A} e.

(** A value produced by [JSON.parse]. *)
#[warnings="-register-all"]
Inductive json : Type :=
| JNull
| JBool (b : bool)
| JNumber (x : float)
| JString (s : string)
| JArray (items : list json)
| JObject (fields : list (string * json)).

(** The part of a [URL] object the code reads. *)
Record URL : Type := MkURL {
  href : string;
  hostname : string
}.

(** The part of a fetch [Response] the code reads; [text()] and
    [arrayBuffer()] may reject. *)
Record Response : Type := MkResponse {
  ok : bool;
  status : nat;
  statusText : string;
  text : outcome string;
  arrayBuffer : outcome (list Byte.byte);
  response_headers : list (string * string)
}.

(** [process.env], as far as the handlers read it. *)
Record environment : Type := MkEnv {
  DISABLE_CACHE : option string;
  DISABLE_M3U8 : option string
}.

(** The h3 event, as far as the handlers read it: [event.path],
    [isPreflightRequest(event)], [getQuery(event).url] and [.headers]
    (each given at most once, so a string when present),
    [getRequestHost(event)] and [getRequestProtocol(event)]. *)
Record request : Type := MkRequest {
  path : string;
  preflight : bool;
  query_url : option string;
  query_headers : option string;
  requestHost : string;
  requestProtocol : string
}.

(** Decimal digits of a natural number (template literals, array
    indices as property keys). *)
Definition decimal (n : nat) : string := NilZero.string_of_uint (Nat.to_uint n).

(** A JavaScript object as the list of its own enumerable properties.
    The list keeps the order in which the keys were first set; JavaScript
    enumerates integer-like keys first, which no definition below depends
    on: an object is only read by key. *)
Definition object := list (string * json).

Fixpoint setProperty (k : string) (v : json) (o : object) : object :=
  match o with
  | [] => [(k, v)]
  | (k', v') :: o' =>
      if String.eqb k k' then (k, v) :: o' else (k', v') :: setProperty k v o'
  end.

Fixpoint indexed_from (i : nat) (vs : list json) : object :=
  match vs with
  | [] => []
  | v :: vs' => (decimal i, v) :: indexed_from (S i) vs'
  end.

(** The number of bytes of the UTF-8 sequence that begins with the byte
    [a]: one for an ASCII byte (and for a byte that begins nothing), two
    to four for a lead byte. *)
Definition utf8_width (a : ascii) : nat :=
  let x := N_of_ascii a in
  if (x <? 192)%N then 1 else if (x <? 224)%N then 2 else if (x <? 240)%N then 3 else 4.

(** The three bytes of the code [c], from U+0800 to U+FFFF. *)
Definition utf8_3 (c : N) : string :=
  String (ascii_of_N (224 + c / 4096))
    (String (ascii_of_N (128 + (c / 64) mod 64))
       (String (ascii_of_N (128 + c mod 64)) EmptyString)).

(** The high and the low surrogate of the character whose four bytes are
    [a b c d]. *)
Definition surrogates (a b c d : ascii) : list string :=
  let code := ((N_of_ascii a mod 8) * 262144 + (N_of_ascii b mod 64) * 4096
               + (N_of_ascii c mod 64) * 64 + N_of_ascii d mod 64)%N in
  let v := (code - 65536)%N in
  [utf8_3 (55296 + v / 1024); utf8_3 (56320 + v mod 1024)].

(** The UTF-16 code units of [s], each as the string that holds it alone.
    A character of one to three bytes is one unit; a character of four
    bytes lies beyond U+FFFF and is two units, its surrogates.  [fuel]
    bounds the number of characters. *)
Fixpoint codeUnits (fuel : nat) (s : string) : list string :=
  match fuel, s with
  | S fuel', String a r =>
      match utf8_width a, r with
      | 4, String b (String c (String d r')) => surrogates a b c d ++ codeUnits fuel' r'
      | n, _ => String.substring 0 n s :: codeUnits fuel' (JsString.drop n s)
      end
  | _, _ => []
  end.

(** The one-unit strings [s[0]], [s[1]], ... of a string. *)
Definition units (s : string) : list json :=
  List.map JString (codeUnits (String.length s) s).

(** The own enumerable properties that [{...v}] copies: the fields of an
    object, the elements of an array and the code units of a string under
    their indices, and nothing for null, a boolean or a number. *)
Definition ownEntries (v : json) : object :=
  match v with
  | JObject fields => fields
  | JArray items => indexed_from 0 items
  | JString s => indexed_from 0 (units s)
  | JNull | JBool _ | JNumber _ => []
  end.

Definition USER_AGENT : string :=
  "Mozilla/5.0 (Windows NT 10.0; Win64; x64; rv:93.0) Gecko/20100101 Firefox/93.0".

(** [{ 'User-Agent': ..., ...headers }] *)
Definition requestHeaders (headers : json) : object :=
  fold_left (fun o kv => setProperty (fst kv) (snd kv) o) (ownEntries headers)
            [("User-Agent", JString USER_AGENT)].

(** The object [getCacheStats] returns. *)
Record CacheStats : Type := MkStats {
  entries : nat;
  totalSizeMB : string;
  avgEntrySizeKB : string;
  maxSize : nat;
  expiryHours : float
}.

(** What a handler answers.  In [RError] the status code is the one the
    response carries, and the status message is the text the handler
    gives [createError]; h3 takes out of it the characters a status line
    cannot hold when it sends the error. *)
Inductive body : Type :=
| BText (s : string)
| BBytes (b : list Byte.byte)
| BStats (s : CacheStats).

Inductive reply : Type :=
| RCors                                            (* handleCors(event, {}) *)
| RError (statusCode : nat) (statusMessage : string) (* sendError(createError ...) *)
| RSuccess (headers : list (string * string)) (b : body).

Definition isCacheDisabled (env : environment) : bool :=
  match DISABLE_CACHE env with
  | Some v => String.eqb v "true"
  | None => false
  end.

Definition isM3U8Disabled (env : environment) : bool :=
  match DISABLE_M3U8 env with
  | Some v => String.eqb v "true"
  | None => false
  end.

(** [!s] for a query parameter: absent or empty. *)
Definition absent (p : option string) : bool :=
  match p with
  | Some s => negb (JsString.truthy s)
  | None => true
  end.

(* ================================================================== *)
(** * The segment cache ([m3u8-proxy.ts], lines 42-172) *)
(* ================================================================== *)

Record CacheEntry : Type := MkEntry {
  data : list Byte.byte;
  headers : list (string * string);
  timestamp : Z
}.

Definition CACHE_MAX_SIZE : nat := 2000.
Definition CACHE_EXPIRY_MS : Z := 2 * 60 * 60 * 1000.

(** A JavaScript [Map] from strings: its entries in insertion order, every
    key once ([well_formed]). *)
Definition Map (V : Type) := list (string * V).

Definition keys {V} (m : Map V) : list string := List.map fst m.

Definition well_formed {V} (m : Map V) : Prop := NoDup (keys m).

Fixpoint Map_get {V} (k : string) (m : Map V) : option V :=
  match m with
  | [] => None
  | (k', v) :: m' => if String.eqb k k' then Some v else Map_get k m'
  end.

(** [m.set(k, v)]: a key already present keeps its place. *)
Fixpoint Map_set {V} (k : string) (v : V) (m : Map V) : Map V :=
  match m with
  | [] => [(k, v)]
  | (k', v') :: m' =>
      if String.eqb k k' then (k, v) :: m' else (k', v') :: Map_set k v m'
  end.

(** [m.delete(k)] *)
Fixpoint Map_delete {V} (k : string) (m : Map V) : Map V :=
  match m with
  | [] => []
  | (k', v') :: m' =>
      if String.eqb k k' then Map_delete k m' else (k', v') :: Map_delete k m'
  end.

Definition Map_size {V} (m : Map V) : nat := List.length m.

Definition Cache := Map CacheEntry.

(** [now - entry.timestamp > CACHE_EXPIRY_MS] *)
Definition expired (now : Z) (entry : CacheEntry) : bool :=
  (now - timestamp entry >? CACHE_EXPIRY_MS)%Z.

(** The first loop of [cleanupCache]: every entry of the map is visited
    and deleted when expired. *)
Definition evictExpired (now : Z) (cache : Cache) : Cache :=
  fold_left (fun m kv => if expired now (snd kv) then Map_delete (fst kv) m else m)
            cache cache.

(** [entries.sort((a, b) => a[1].timestamp - b[1].timestamp)]: the sort is
    stable, so entries of equal timestamp keep their insertion order. *)
Fixpoint insertByTimestamp (x : string * CacheEntry) (l : list (string * CacheEntry))
  : list (string * CacheEntry) :=
  match l with
  | [] => [x]
  | y :: l' =>
      if (timestamp (snd x) - timestamp (snd y) <=? 0)%Z then x :: y :: l'
      else y :: insertByTimestamp x l'
  end.

Fixpoint sortByTimestamp (l : list (string * CacheEntry)) : list (string * CacheEntry) :=
  match l with
  | [] => []
  | x :: l' => insertByTimestamp x (sortByTimestamp l')
  end.

(** [a] was inserted no later than [b]. *)
Definition older (a b : string * CacheEntry) : Prop :=
  (timestamp (snd a) <= timestamp (snd b))%Z.

(** The second part of [cleanupCache]: over capacity, the oldest
    [size - CACHE_MAX_SIZE] entries are deleted. *)
Definition evictToCapacity (cache : Cache) : Cache :=
  if (CACHE_MAX_SIZE <? Map_size cache)%nat then
    let entries := sortByTimestamp cache in
    let toRemove := firstn (Map_size cache - CACHE_MAX_SIZE) entries in
    fold_left (fun m kv => Map_delete (fst kv) m) toRemove cache
  else cache.

(** [cleanupCache()]; the value returned is the size of the result. *)
Definition cleanupCache (now : Z) (cache : Cache) : Cache :=
  evictToCapacity (evictExpired now cache).

(** [kept] holds nothing that [cache] does not hold, and no more
    entries. *)
Definition within (kept cache : Cache) : Prop :=
  (forall k v, Map_get k kept = Some v -> Map_get k cache = Some v)
  /\ Map_size kept <= Map_size cache.

(** [getCachedSegment(url)]: the entry handed back and the cache after the
    call. *)
Definition getCachedSegment (env : environment) (now : Z) (url : string) (cache : Cache)
  : option CacheEntry * Cache :=
  if isCacheDisabled env then (None, cache)
  else
    match Map_get url cache with
    | Some entry =>
        if (now - timestamp entry >? CACHE_EXPIRY_MS)%Z
        then (None, Map_delete url cache)
        else (Some entry, cache)
    | None => (None, cache)
    end.

(** A non-negative integer below 2^53 (a count, a byte length, a number
    of milliseconds) as a JavaScript number, which is a binary64 float. *)
Definition number (n : Z) : float := PrimFloat.of_uint63 (Uint63.of_Z n).

Section Stats.

(** [x.toFixed(digits)] *)
Variable toFixed : float -> nat -> string.

(** [getCacheStats()] *)
Definition getCacheStats (cache : Cache) : CacheStats :=
  let sizes := List.map (fun kv => Z.of_nat (List.length (data (snd kv)))) cache in
  let totalBytes := fold_left (fun sum size => (sum + number size)%float) sizes 0%float in
  let avgBytes :=
    if (0 <? List.length sizes)%nat
    then (totalBytes / number (Z.of_nat (List.length sizes)))%float
    else 0%float in
  {| entries := Map_size cache;
     totalSizeMB := toFixed (totalBytes / number (1024 * 1024))%float 2;
     avgEntrySizeKB := toFixed (avgBytes / number 1024)%float 2;
     maxSize := CACHE_MAX_SIZE;
     expiryHours := (number CACHE_EXPIRY_MS / number (60 * 60 * 1000))%float |}.

(** [handleCacheStats(event)] *)
Definition handleCacheStats (now : Z) (cache : Cache) : reply * Cache :=
  let cache' := cleanupCache now cache in
  (RSuccess [("Content-Type", "application/json");
             ("Cache-Control", "no-cache, no-store, must-revalidate")]
            (BStats (getCacheStats cache')),
   cache').

End Stats.

(* ================================================================== *)
(** * The resolver and the rewriter ([m3u8-proxy.ts], lines 6-40, 177-379) *)
(* ================================================================== *)

Import JsString.

(** The pattern [parseURL] matches its argument against, with the [i]
    flag:
    [^(?:(https?:)?\/\/)?(([^\/?]+?)(?::(\d{0,5})(?=[\/?]|$))?)([\/?][\S\s]*|$)]. *)

(** [https?:] *)
Definition SCHEME : Regex.regex :=
  Regex.Seq (Regex.litI "http")
    (Regex.Seq (Regex.Opt (Regex.Unit (Regex.chrI "s"))) (Regex.Unit (Regex.chr ":"))).

(** [:(\d{0,5})(?=[\/?]|$)] *)
Definition PORT : Regex.regex :=
  Regex.Seq (Regex.Unit (Regex.chr ":"))
    (Regex.Seq (Regex.Group 4 (Regex.UpTo 5 Regex.digit))
       (Regex.Ahead (Regex.Alt (Regex.Unit Regex.slashOrQuery) Regex.Eol))).

(** [([\/?][\S\s]*|$)] *)
Definition TAIL : Regex.regex :=
  Regex.Group 5
    (Regex.Alt (Regex.Seq (Regex.Unit Regex.slashOrQuery) (Regex.Star Regex.anyUnit))
               Regex.Eol).

(** [(([^\/?]+?)(?:<PORT>)?)<TAIL>] *)
Definition HOST_AND_TAIL : Regex.regex :=
  Regex.Seq
    (Regex.Group 2
       (Regex.Seq (Regex.Group 3 (Regex.PlusLazy Regex.notSlashOrQuery)) (Regex.Opt PORT)))
    TAIL.

Definition URL_PATTERN : Regex.regex :=
  Regex.Seq Regex.Bol
    (Regex.Seq
       (Regex.Opt (Regex.Seq (Regex.Opt (Regex.Group 1 SCHEME)) (Regex.lit "//")))
       HOST_AND_TAIL).

(** [^https?:] with the [i] flag. *)
Definition SCHEME_PREFIX : Regex.regex := Regex.Seq Regex.Bol SCHEME.

(** Where the host of [URL_PATTERN] may end: at the end of the input, or
    before a slash or a question mark. *)
Definition atHostEnd (rest : string) : bool :=
  match rest with
  | EmptyString => true
  | String _ _ => Regex.slashOrQuery rest
  end.

(** An input [URL_PATTERN] has no host for: it is empty, or begins with a
    question mark, or with one slash, or with two slashes behind which the
    host would have to end at once. *)
Definition hostless (s : string) : bool :=
  match s with
  | EmptyString => true
  | String a r =>
      if Ascii.eqb a "?" then true
      else if Ascii.eqb a "/" then
        match r with
        | String b r' => if Ascii.eqb b "/" then atHostEnd r' else true
        | EmptyString => true
        end
      else false
  end.

(** The pattern of the key and media directives: [http], an optional
    [s], [://], then one or more units that are neither a double quote
    nor white space. *)
Definition ABSOLUTE_URL : Regex.regex :=
  Regex.Seq (Regex.lit "http")
    (Regex.Seq (Regex.Opt (Regex.Unit (Regex.chr "s")))
       (Regex.Seq (Regex.lit "://") (Regex.Plus Regex.notQuoteOrSpace))).

(** [regex.exec(line)?.[0]] *)
Definition firstAbsoluteUrl (line : string) : option string :=
  match Regex.exec ABSOLUTE_URL line with
  | Some m => Some (Regex.matched m)
  | None => None
  end.

(** [!match[i]]: the group took no part in the match, or matched the
    empty string. *)
Definition groupMissing (i : nat) (m : Regex.match_result) : bool :=
  match Regex.group i m with
  | Some s => negb (truthy s)
  | None => true
  end.

(** [match[i] === s] *)
Definition groupIs (i : nat) (s : string) (m : Regex.match_result) : bool :=
  match Regex.group i m with
  | Some s' => String.eqb s' s
  | None => false
  end.

(** [match[1]], [match[3]], [match[4]] and [match[5]] of
    [req_url.match(URL_PATTERN)]: scheme, host, port and tail. *)
Definition captured (s : string) : option (option string * option string
                                           * option string * option string) :=
  match Regex.exec URL_PATTERN s with
  | Some m => Some (Regex.group 1 m, Regex.group 3 m, Regex.group 4 m, Regex.group 5 m)
  | None => None
  end.

(** The string [parseURL] hands to the [URL] constructor when the pattern
    captured no scheme (lines 22-27). *)
Definition withAssumedScheme (req_url : string) (m : Regex.match_result) : string :=
  let req_url' := if startsWith req_url "//" then req_url else "//" ++ req_url in
  (if groupIs 4 "443" m then "https:" else "http:") ++ req_url'.

(** The calls a handler makes on the cache and on the prefetcher, in the
    order it makes them.  The promise a prefetch call returns is dropped:
    nothing awaits it. *)
Inductive effect : Type :=
| Prefetch (url : string) (headers : json)
    (* prefetchSegment(url, headers) *)
| Cleanup
    (* cleanupCache() *)
| PrefetchAll (urls : list string) (headers : json).
    (* Promise.all(urls.map(u => prefetchSegment(u, headers))).catch(...) *)

(** A computation of the rewriter: the effects it has caused so far, and
    its result or the exception that stopped it. *)
Definition M (A : Type) : Type := (list effect * outcome A)%type.

Definition ret {A} (a : A) : M A := ([], Ok a).

Definition bind {A B} (m : M A) (f : A -> M B) : M B :=
  match m with
  | (w, Ok a) => let (w', r) := f a in ((w ++ w')%list, r)
  | (w, Throw e) => (w, Throw e)
  end.

Definition emit (e : effect) : M unit := ([e], Ok tt).

Definition lift {A} (o : outcome A) : M A := ([], o).

Notation "x <- m ;; f" := (bind m (fun x => f))
  (at level 61, m at next level, right associativity).
Notation "' p <- m ;; f" := (bind m (fun x => match x with p => f end))
  (at level 61, p pattern, m at next level, right associativity).

Definition MANIFEST_HEADERS : list (string * string) :=
  [("Content-Type", "application/vnd.apple.mpegurl");
   ("Access-Control-Allow-Origin", "*");
   ("Access-Control-Allow-Headers", "*");
   ("Access-Control-Allow-Methods", "*");
   ("Cache-Control", "no-cache, no-store, must-revalidate")].

Definition SEGMENT_HEADERS (contentType : string) : list (string * string) :=
  [("Content-Type", contentType);
   ("Access-Control-Allow-Origin", "*");
   ("Access-Control-Allow-Headers", "*");
   ("Access-Control-Allow-Methods", "*");
   ("Cache-Control", "public, max-age=3600")].

(** [error.message || fallback] *)
Definition messageOr (e : exn) (fallback : string) : string :=
  if truthy (message e) then message e else fallback.

(** [statusCode: error.response?.status || 500] as [createError] takes
    it: h3 keeps a status code from 100 to 999 and puts its own default,
    500, in the place of any other. *)
Definition statusOr500 (e : exn) : nat :=
  match response_status e with
  | Some n => if ((100 <=? n) && (n <=? 999))%nat then n else 500
  | None => 500
  end.

(** [headers[name] || fallback] on a header snapshot. *)
Definition headerOr (name : string) (hs : list (string * string)) (fallback : string)
  : string :=
  match Map_get name hs with
  | Some v => if truthy v then v else fallback
  | None => fallback
  end.

(** [cachedSegment.headers['content-type'] || 'video/mp2t'] *)
Definition cachedContentType (segment : CacheEntry) : string :=
  headerOr "content-type" (headers segment) "video/mp2t".

Section Handlers.

(** [new URL(input)] and [new URL(input, base)] *)
Variable newURL : string -> option string -> outcome URL.
(** [JSON.parse] and [JSON.stringify] on parsed values *)
Variable JSON_parse : string -> outcome json.
Variable JSON_stringify : json -> string.
(** [globalThis.fetch(url, { method: 'GET', headers })], awaited *)
Variable fetch : string -> object -> outcome Response.
(** [Number.prototype.toFixed] *)
Variable toFixed : float -> nat -> string.

(** [parseURL(req_url, baseUrl)]: [Ok None] is the source's [null]. *)
Definition parseURL (req_url : string) (baseUrl : option string) : outcome (option string) :=
  if negb (absent baseUrl) then
    match newURL req_url baseUrl with
    | Ok u => Ok (Some (href u))
    | Throw e => Throw e
    end
  else
    match Regex.exec URL_PATTERN req_url with
    | None => Ok None
    | Some m =>
        if groupMissing 1 m && Regex.test SCHEME_PREFIX req_url then Ok None
        else
          let req_url' :=
            if groupMissing 1 m then withAssumedScheme req_url m else req_url in
          match newURL req_url' None with
          | Ok parsed =>
              if negb (truthy (hostname parsed)) then Ok None
              else Ok (Some (href parsed))
          | Throw _ => Ok None
          end
    end.

(** [if (resolved)]: the resolver returned a non-empty string. *)
Definition resolved (r : option string) : option string :=
  match r with
  | Some s => if truthy s then Some s else None
  | None => None
  end.

(** [endpoint] is [/ts-proxy] or [/m3u8-proxy]:
    [`${baseProxyUrl}<endpoint>?url=${encodeURIComponent(target)}&headers=${encodeURIComponent(JSON.stringify(headers))}`] *)
Definition proxyUrl (baseProxyUrl endpoint target : string) (headers : json) : string :=
  baseProxyUrl ++ endpoint ++ "?url=" ++ encodeURIComponent target
    ++ "&headers=" ++ encodeURIComponent (JSON_stringify headers).

Section Rewrite.

Variable env : environment.
Variable url : string.            (* the manifest's own URL *)
Variable headers : json.          (* the parsed [headers] parameter *)
Variable baseProxyUrl : string.

(** The body of the master playlist's loop (lines 226-261). *)
Definition masterLine (line : string) : M string :=
  if startsWith line "#" then
    if startsWith line "#EXT-X-KEY:" then
      match firstAbsoluteUrl line with
      | Some keyUrl =>
          if truthy keyUrl
          then ret (replace line keyUrl (proxyUrl baseProxyUrl "/ts-proxy" keyUrl headers))
          else ret line
      | None => ret line
      end
    else if startsWith line "#EXT-X-MEDIA:" then
      match firstAbsoluteUrl line with
      | Some mediaUrl =>
          if truthy mediaUrl
          then ret (replace line mediaUrl (proxyUrl baseProxyUrl "/m3u8-proxy" mediaUrl headers))
          else ret line
      | None => ret line
      end
    else ret line
  else if truthy (trim line) then
    variantUrl <- lift (parseURL line (Some url)) ;;
    match resolved variantUrl with
    | Some variantUrl => ret (proxyUrl baseProxyUrl "/m3u8-proxy" variantUrl headers)
    | None => ret line
    end
  else ret line.

Fixpoint masterLines (lines : list string) : M (list string) :=
  match lines with
  | [] => ret []
  | line :: rest =>
      newLine <- masterLine line ;;
      newLines <- masterLines rest ;;
      ret (newLine :: newLines)
  end.

(** The body of the media playlist's loop (lines 282-314): the line
    pushed on [newLines] and the URLs pushed on [segmentUrls]. *)
Definition mediaLine (line : string) : M (string * list string) :=
  if startsWith line "#" then
    if startsWith line "#EXT-X-KEY:" then
      match firstAbsoluteUrl line with
      | Some keyUrl =>
          if truthy keyUrl then
            let newLine :=
              replace line keyUrl (proxyUrl baseProxyUrl "/ts-proxy" keyUrl headers) in
            _ <- (if negb (isCacheDisabled env) then emit (Prefetch keyUrl headers)
                  else ret tt) ;;
            ret (newLine, [])
          else ret (line, [])
      | None => ret (line, [])
      end
    else ret (line, [])
  else if truthy (trim line) && negb (startsWith line "#") then
    segmentUrl <- lift (parseURL line (Some url)) ;;
    match resolved segmentUrl with
    | Some segmentUrl =>
        ret (proxyUrl baseProxyUrl "/ts-proxy" segmentUrl headers, [segmentUrl])
    | None => ret (line, [])
    end
  else ret (line, []).

Fixpoint mediaLines (lines : list string) : M (list string * list string) :=
  match lines with
  | [] => ret ([], [])
  | line :: rest =>
      '(newLine, urls) <- mediaLine line ;;
      '(newLines, segmentUrls) <- mediaLines rest ;;
      ret (newLine :: newLines, (urls ++ segmentUrls)%list)
  end.

(** A line the loops hand to the resolver: not a directive, not blank. *)
Definition isSegmentLine (line : string) : bool :=
  negb (startsWith line "#") && truthy (trim line).

(** The URL the media loop hands to the prefetcher at a key directive. *)
Definition keyUrlOf (line : string) : list string :=
  if startsWith line "#EXT-X-KEY:" then
    match firstAbsoluteUrl line with
    | Some keyUrl => if truthy keyUrl then [keyUrl] else []
    | None => []
    end
  else [].

(** The URL the media loop pushes on [segmentUrls] at a line. *)
Definition segmentUrlOf (line : string) : list string :=
  if isSegmentLine line then
    match parseURL line (Some url) with
    | Ok r => match resolved r with Some target => [target] | None => [] end
    | Throw _ => []
    end
  else [].

(** One [prefetchSegment] call for each URL, made only while the cache is
    enabled. *)
Definition prefetchEach (urls : list string) : list effect :=
  if isCacheDisabled env then [] else List.map (fun u => Prefetch u headers) urls.

(** Lines 222-273. *)
Definition rewriteMaster (m3u8Content : string) : M string :=
  newLines <- masterLines (split_nl m3u8Content) ;;
  ret (join_nl newLines).

(** Lines 276-343. *)
Definition rewriteMedia (m3u8Content : string) : M string :=
  '(newLines, segmentUrls) <- mediaLines (split_nl m3u8Content) ;;
  _ <- (if (0 <? List.length segmentUrls)%nat then
          if negb (isCacheDisabled env) then
            _ <- emit Cleanup ;;
            emit (PrefetchAll segmentUrls headers)
          else ret tt
        else ret tt) ;;
  ret (join_nl newLines).

(** Which of the two loops a manifest goes through (line 220). *)
Inductive playlist : Type := Master | Media.

Definition classify (m3u8Content : string) : playlist :=
  if includes m3u8Content "RESOLUTION=" then Master else Media.

Definition rewrite (m3u8Content : string) : M string :=
  match classify m3u8Content with
  | Master => rewriteMaster m3u8Content
  | Media => rewriteMedia m3u8Content
  end.

End Rewrite.


(** [headersParam ? JSON.parse(headersParam) : {}] *)
Definition parseHeaders (headersParam : option string) : outcome json :=
  match headersParam with
  | Some s => if truthy s then JSON_parse s else Ok (JObject [])
  | None => Ok (JObject [])
  end.

(** The [try] block of [proxyM3U8] (lines 199-344). *)
Definition proxyM3U8_try (env : environment) (req : request) (url : string) (headers : json)
  : M string :=
  response <- lift (fetch url (requestHeaders headers)) ;;
  if negb (ok response) then
    lift (Throw (Error ("Failed to fetch M3U8: " ++ decimal (status response) ++ " "
                        ++ statusText response)))
  else
    m3u8Content <- lift (text response) ;;
    let baseProxyUrl := requestProtocol req ++ "://" ++ requestHost req in
    rewrite env url headers baseProxyUrl m3u8Content.

(** How [proxyM3U8] answers once its [try] block has returned or thrown
    (lines 265-273, 335-343 and 345-351). *)
Definition proxyM3U8_answer (tried : M string) : list effect * reply :=
  match tried with
  | (effects, Ok rewritten) => (effects, RSuccess MANIFEST_HEADERS (BText rewritten))
  | (effects, Throw error) =>
      (effects, RError 500 (messageOr error "Error proxying M3U8 file"))
  end.

(** [proxyM3U8(event)]: the effects it caused, and its answer. *)
Definition proxyM3U8 (env : environment) (req : request) : list effect * reply :=
  if absent (query_url req) then ([], RError 400 "URL parameter is required")
  else
    let url := match query_url req with Some u => u | None => EmptyString end in
    match parseHeaders (query_headers req) with
    | Throw _ => ([], RError 400 "Invalid headers format")
    | Ok headers =>
        proxyM3U8_answer (proxyM3U8_try env req url headers)
    end.

(** ** The prefetcher (lines 92-139)

    [prefetchSegment] runs up to its first [await] when it is called, and
    the rest once [fetch] and [arrayBuffer] have settled. *)
Inductive prefetching : Type :=
| Finished
| AwaitingFetch (url : string) (init : object).

Definition prefetchSegment_begin (env : environment) (now : Z) (url : string)
    (headers : json) (cache : Cache) : Cache * prefetching :=
  if isCacheDisabled env then (cache, Finished)
  else
    let cache := if (CACHE_MAX_SIZE <=? Map_size cache)%nat
                 then cleanupCache now cache else cache in
    match Map_get url cache with
    | Some existing =>
        if (now - timestamp existing <=? CACHE_EXPIRY_MS)%Z then (cache, Finished)
        else (cache, AwaitingFetch url (requestHeaders headers))
    | None => (cache, AwaitingFetch url (requestHeaders headers))
    end.

Definition prefetchSegment_resume (now : Z) (url : string) (fetched : outcome Response)
    (cache : Cache) : Cache :=
  match fetched with
  | Throw _ => cache
  | Ok response =>
      if negb (ok response) then cache
      else
        match arrayBuffer response with
        | Throw _ => cache
        | Ok bytes => Map_set url (MkEntry bytes (response_headers response) now) cache
        end
  end.

(** The cache once the synchronous part of an effect has run. *)
Definition settle (env : environment) (now : Z) (cache : Cache) (e : effect) : Cache :=
  match e with
  | Cleanup => cleanupCache now cache
  | Prefetch u h => fst (prefetchSegment_begin env now u h cache)
  | PrefetchAll us h =>
      fold_left (fun c u => fst (prefetchSegment_begin env now u h c)) us cache
  end.

(** [segmentUrls.map(segmentUrl => prefetchSegment(segmentUrl, headers))]
    (lines 324-326) up to the first response: every call runs as far as
    its [fetch] before the next one starts.  The cache the calls leave,
    and the requests then under way, in the order they were made. *)
Fixpoint prefetchAll_begin (env : environment) (now : Z) (urls : list string)
    (headers : json) (cache : Cache) : Cache * list (string * object) :=
  match urls with
  | [] => (cache, [])
  | url :: rest =>
      let (cache, call) := prefetchSegment_begin env now url headers cache in
      let (cache, started) := prefetchAll_begin env now rest headers cache in
      (cache,
       match call with
       | AwaitingFetch u init => (u, init) :: started
       | Finished => started
       end)
  end.

(** The responses of requests under way arrive one after the other:
    when, for which URL, and what. *)
Definition prefetchAll_resume (arrived : list (Z * string * outcome Response))
    (cache : Cache) : Cache :=
  fold_left (fun c a => prefetchSegment_resume (fst (fst a)) (snd (fst a)) (snd a) c)
            arrived cache.

(** The default export of [m3u8-proxy.ts] (lines 363-379). *)
Definition m3u8Handler (env : environment) (req : request) (now : Z) (cache : Cache)
  : reply * Cache * list effect :=
  if preflight req then (RCors, cache, [])
  else if isM3U8Disabled env then (RError 404 "M3U8 proxying is disabled", cache, [])
  else if String.eqb (path req) "/cache-stats" then
    let (answer, cache') := handleCacheStats toFixed now cache in
    (answer, cache', [Cleanup])
  else
    let (effects, answer) := proxyM3U8 env req in
    (answer, fold_left (settle env now) effects cache, effects).

(** The [try] block of the default export of [ts-proxy.ts] (lines
    38-85): its answer and the cache after it. *)
Definition tsHandler_try (env : environment) (url : string) (headers : json) (now : Z)
    (cache : Cache) : reply * Cache :=
  let (cachedSegment, cache) :=
    if negb (isCacheDisabled env) then getCachedSegment env now url cache
    else (None, cache) in
  match cachedSegment with
  | Some segment =>
      (RSuccess (SEGMENT_HEADERS (cachedContentType segment)) (BBytes (data segment)),
       cache)
  | None =>
      let failed (error : exn) :=
        (RError (statusOr500 error) (messageOr error "Error proxying TS file"), cache) in
      match fetch url (requestHeaders headers) with
      | Throw error => failed error
      | Ok response =>
          if negb (ok response) then
            failed (Error ("Failed to fetch TS file: " ++ decimal (status response)
                           ++ " " ++ statusText response))
          else
            match arrayBuffer response with
            | Throw error => failed error
            | Ok bytes => (RSuccess (SEGMENT_HEADERS "video/mp2t") (BBytes bytes), cache)
            end
      end
  end.

(** The default export of [ts-proxy.ts]. *)
Definition tsHandler (env : environment) (req : request) (now : Z) (cache : Cache)
  : reply * Cache :=
  if preflight req then (RCors, cache)
  else if isM3U8Disabled env then (RError 404 "TS proxying is disabled", cache)
  else if absent (query_url req) then (RError 400 "URL parameter is required", cache)
  else
    let url := match query_url req with Some u => u | None => EmptyString end in
    match parseHeaders (query_headers req) with
    | Throw _ => (RError 400 "Invalid headers format", cache)
    | Ok headers => tsHandler_try env url headers now cache
    end.

(** ** The cache over the life of the process

    The caches a process can hold while its environment stays as it is.
    [segmentCache] starts empty (line 50); the interval timer runs
    [cleanupCache] (line 85); a request runs its handler; and a prefetch
    that went as far as its [fetch] stores what it fetched at some later
    time.  Which handler began that prefetch, and on which cache, is left
    open, so the relation holds of every cache the process can hold and
    possibly of more. *)
Inductive reachable (env : environment) : Cache -> Prop :=
| reach_start :
    reachable env []
| reach_interval (now : Z) (cache : Cache) :
    reachable env cache ->
    reachable env (cleanupCache now cache)
| reach_manifest (req : request) (now : Z) (cache : Cache) :
    reachable env cache ->
    reachable env (snd (fst (m3u8Handler env req now cache)))
| reach_segment (req : request) (now : Z) (cache : Cache) :
    reachable env cache ->
    reachable env (snd (tsHandler env req now cache))
| reach_prefetched (began : Z) (before after : Cache) (url : string) (headers : json)
    (init : object) (now : Z) (fetched : outcome Response) (cache : Cache) :
    prefetchSegment_begin env began url headers before = (after, AwaitingFetch url init) ->
    reachable env cache ->
    reachable env (prefetchSegment_resume now url fetched cache).

End Handlers.

(* ================================================================== *)
(** * A concrete platform for the examples *)
(* ================================================================== *)

(** The examples below need the platform's functions at a few arguments.
    [Sample] tabulates them there: what the WHATWG URL constructor,
    [JSON.parse], [JSON.stringify] and [toFixed] return on those arguments,
    and an origin that serves three playlists and one segment.  The URL
    constructor, [JSON.parse] and the origin refuse every other argument. *)
Module Sample.

Definition quoted (s : string) : string :=
  String DQUOTE (s ++ String DQUOTE EmptyString).

Definition invalidURL : exn := MkExn "Invalid URL" None.

Definition MEDIA_URL : string := "https://cdn.example/a/index.m3u8".
Definition MASTER_URL : string := "https://cdn.example/a/master.m3u8".
Definition BROKEN_URL : string := "https://cdn.example/a/broken.m3u8".
Definition KEY_URL : string := "https://keys.example/k1.bin".

Definition urlTable : list (string * option string * outcome URL) :=
  [ ("seg1.ts", Some MEDIA_URL, Ok (MkURL "https://cdn.example/a/seg1.ts" "cdn.example"));
    ("seg2.ts", Some MEDIA_URL, Ok (MkURL "https://cdn.example/a/seg2.ts" "cdn.example"));
    ("hi.m3u8", Some MASTER_URL, Ok (MkURL "https://cdn.example/a/hi.m3u8" "cdn.example"));
    ("lo.m3u8", Some MASTER_URL, Ok (MkURL "https://cdn.example/a/lo.m3u8" "cdn.example"));
    ("seg1.ts", Some BROKEN_URL, Ok (MkURL "https://cdn.example/a/seg1.ts" "cdn.example"));
    ("http://", Some BROKEN_URL, Throw invalidURL);
    ("http://", Some MASTER_URL, Throw invalidURL);
    ("http://example.com", None, Ok (MkURL "http://example.com/" "example.com"));
    ("https://example.com:443", None, Ok (MkURL "https://example.com/" "example.com"));
    ("http://example.com:8080/a?b", None,
       Ok (MkURL "http://example.com:8080/a?b" "example.com"));
    ("http://example.com:99999", None, Throw invalidURL);
    ("http://exa mple.com", None, Throw invalidURL) ].

Definition sameBase (a b : option string) : bool :=
  match a, b with
  | Some x, Some y => String.eqb x y
  | None, None => true
  | _, _ => false
  end.

Fixpoint lookupURL (t : list (string * option string * outcome URL))
    (input : string) (base : option string) : outcome URL :=
  match t with
  | [] => Throw invalidURL
  | (i, b, r) :: t' =>
      if String.eqb i input && sameBase b base then r else lookupURL t' input base
  end.

Definition newURL : string -> option string -> outcome URL := lookupURL urlTable.

Definition REFERER : json := JObject [("Referer", JString "https://site.example/")].

Definition JSON_parse (s : string) : outcome json :=
  if String.eqb s "{}" then Ok (JObject [])
  else if String.eqb s "null" then Ok JNull
  else if String.eqb s "true" then Ok (JBool true)
  else if String.eqb s "7" then Ok (JNumber 7%float)
  else if String.eqb s (quoted "ab") then Ok (JString "ab")
  else if String.eqb s ("{" ++ quoted "Referer" ++ ":" ++ quoted "https://site.example/" ++ "}")
       then Ok REFERER
  else Throw (MkExn "Unexpected token in JSON" None).

(** [toFixed] for a finite number below 10^21 (above, JavaScript switches
    to exponent notation): with [x = m * 2^e], the integer [n] nearest to
    [x * 10^digits], the larger one on a tie, written with [digits]
    decimals. *)
Definition fixedDigits (n : N) (digits : nat) : string :=
  let s := NilZero.string_of_uint (N.to_uint n) in
  let s := String.concat "" (repeat "0" (S digits - String.length s)) ++ s in
  let k := String.length s - digits in
  if Nat.eqb digits 0 then s
  else String.substring 0 k s ++ "." ++ String.substring k digits s.

Definition toFixed (x : float) (digits : nat) : string :=
  match Prim2SF x with
  | S754_zero _ => fixedDigits 0 digits
  | S754_finite sign m e =>
      let q := (Z.pos m * 10 ^ Z.of_nat digits)%Z in
      let n := if (0 <=? e)%Z then (q * 2 ^ e)%Z
               else ((2 * q + 2 ^ (- e)) / (2 * 2 ^ (- e)))%Z in
      (if sign then "-" else "") ++ fixedDigits (Z.to_N n) digits
  | S754_infinity sign => if sign then "-Infinity" else "Infinity"
  | S754_nan => "NaN"
  end.

(** [JSON.stringify] for values whose numbers are integers below 10^21
    and whose strings hold no character that JSON escapes. *)
Fixpoint JSON_stringify (v : json) : string :=
  match v with
  | JNull => "null"
  | JBool true => "true"
  | JBool false => "false"
  | JNumber x => toFixed x 0
  | JString s => quoted s
  | JArray items => "[" ++ String.concat "," (List.map JSON_stringify items) ++ "]"
  | JObject fields =>
      "{" ++ String.concat ","
               (List.map (fun kv => quoted (fst kv) ++ ":" ++ JSON_stringify (snd kv)) fields)
          ++ "}"
  end.

Definition MEDIA_PLAYLIST : string :=
  "#EXTM3U" ++ nl
  ++ "#EXT-X-KEY:METHOD=AES-128,URI=" ++ quoted KEY_URL ++ nl
  ++ "#EXTINF:4.0," ++ nl
  ++ "seg1.ts" ++ nl
  ++ nl
  ++ "#EXTINF:4.0," ++ nl
  ++ "seg2.ts" ++ nl
  ++ "#EXT-X-ENDLIST".

Definition MASTER_PLAYLIST : string :=
  "#EXTM3U" ++ nl
  ++ "#EXT-X-STREAM-INF:RESOLUTION=1920x1080" ++ nl
  ++ "hi.m3u8" ++ nl
  ++ "#EXT-X-STREAM-INF:RESOLUTION=640x360" ++ nl
  ++ "lo.m3u8" ++ nl.

Definition BROKEN_PLAYLIST : string :=
  "#EXTM3U" ++ nl
  ++ "#EXTINF:4.0," ++ nl
  ++ "http://" ++ nl
  ++ "#EXTINF:4.0," ++ nl
  ++ "seg1.ts".

Definition SEGMENT_BYTES : list Byte.byte := [Byte.x47; Byte.x40; Byte.x00; Byte.x10].

(** The character U+00E9 in its two bytes, and U+1F600 in its four: one
    and two UTF-16 code units. *)
Definition E_ACUTE : string :=
  String (ascii_of_N 195) (String (ascii_of_N 169) EmptyString).

Definition GRINNING_FACE : string :=
  String (ascii_of_N 240) (String (ascii_of_N 159)
    (String (ascii_of_N 152) (String (ascii_of_N 128) EmptyString))).

Definition served (body : string) : outcome Response :=
  Ok (MkResponse true 200 "OK" (Ok body) (Ok [])
        [("content-type", "application/vnd.apple.mpegurl")]).

Definition fetch (url : string) (init : object) : outcome Response :=
  if String.eqb url MEDIA_URL then served MEDIA_PLAYLIST
  else if String.eqb url MASTER_URL then served MASTER_PLAYLIST
  else if String.eqb url BROKEN_URL then served BROKEN_PLAYLIST
  else if String.eqb url "https://cdn.example/a/seg1.ts" then
    Ok (MkResponse true 200 "OK" (Throw (MkExn "body is not text" None))
          (Ok SEGMENT_BYTES) [("content-type", "video/mp2t")])
  else Throw (MkExn "fetch failed" None).

Definition ENABLED : environment := MkEnv None None.
Definition CACHE_OFF : environment := MkEnv (Some "true") None.
Definition PROXY_OFF : environment := MkEnv None (Some "true").

Definition get (path : string) (url headers : option string) : request :=
  MkRequest path false url headers "proxy.example" "https".

Definition entryAt (t : Z) : CacheEntry := MkEntry SEGMENT_BYTES [] t.

(** [n] entries with pairwise different keys, inserted one millisecond
    apart starting at [t]. *)
Fixpoint entriesFrom (n : nat) (t : Z) : Cache :=
  match n with
  | O => []
  | S n' => ("https://cdn.example/a/seg.ts?n=" ++ decimal n, entryAt t)
            :: entriesFrom n' (t + 1)
  end.

End Sample.

(* ================================================================== *)
(** * Facts about the String methods *)
(* ================================================================== *)

Module JsStringFacts.
Import JsString.

Lemma startsWith_iff (s p : string) :
  startsWith s p = true <-> exists r, s = p ++ r.
Proof.
  revert s.
  induction p as [|a p IH]; intros s; simpl.
  - split; [intros _; exists s; reflexivity|reflexivity].
  - destruct s as [|b s].
    + split; [discriminate|]. intros [r Hr]. discriminate.
    + destruct (Ascii.eqb a b) eqn:E; simpl.
      * apply Ascii.eqb_eq in E. subst b.
        rewrite IH. split; intros [r Hr]; exists r; congruence.
      * apply Ascii.eqb_neq in E.
        split; [discriminate|]. intros [r Hr]. congruence.
Qed.

Lemma includes_iff (s needle : string) :
  includes s needle = true <-> exists pre post, s = pre ++ needle ++ post.
Proof.
  induction s as [|a s IH]; simpl.
  - destruct (startsWith "" needle) eqn:E.
    + split; [|reflexivity]. intros _. apply startsWith_iff in E as [r Hr].
      exists "", r. exact Hr.
    + split; [discriminate|]. intros (pre & post & H).
      destruct pre; [|discriminate]. simpl in H.
      assert (startsWith "" needle = true) by (apply startsWith_iff; eauto).
      congruence.
  - destruct (startsWith (String a s) needle) eqn:E.
    + split; [|reflexivity]. intros _. apply startsWith_iff in E as [r Hr].
      exists "", r. exact Hr.
    + rewrite IH. split.
      * intros (pre & post & ->). exists (String a pre), post. reflexivity.
      * intros (pre & post & H). destruct pre as [|b pre].
        -- simpl in H.
           assert (startsWith (String a s) needle = true)
             by (apply startsWith_iff; eauto).
           congruence.
        -- simpl in H. injection H as _ ->. eauto.
Qed.

(** ** Lines *)

Lemma hasLF_app (a b : string) : hasLF (a ++ b) = hasLF a || hasLF b.
Proof.
  induction a as [|c a IH]; simpl; [reflexivity|].
  rewrite IH. apply orb_assoc.
Qed.

Lemma split_nl_nonempty (s : string) : split_nl s <> [].
Proof.
  induction s as [|c s IH]; simpl; [discriminate|].
  destruct (Ascii.eqb c LF); [discriminate|].
  destruct (split_nl s); [contradiction|discriminate].
Qed.

Lemma split_nl_lines (s : string) : Forall (fun l => hasLF l = false) (split_nl s).
Proof.
  induction s as [|c s IH]; simpl.
  - constructor; [reflexivity|constructor].
  - destruct (Ascii.eqb c LF) eqn:E.
    + constructor; [reflexivity|exact IH].
    + destruct (split_nl s) as [|l ls].
      * constructor; [simpl; now rewrite E|constructor].
      * inversion IH; subst. constructor; [simpl; rewrite E; assumption|assumption].
Qed.

Lemma join_split_nl (s : string) : join_nl (split_nl s) = s.
Proof.
  unfold join_nl.
  induction s as [|c s IH]; simpl; [reflexivity|].
  destruct (Ascii.eqb c LF) eqn:E.
  - apply Ascii.eqb_eq in E. subst c.
    destruct (split_nl s) as [|l ls] eqn:Es; [exfalso; eapply split_nl_nonempty; eauto|].
    simpl in *. rewrite IH. reflexivity.
  - destruct (split_nl s) as [|l ls] eqn:Es; [exfalso; eapply split_nl_nonempty; eauto|].
    simpl in *. destruct ls; simpl in *; rewrite <- IH; reflexivity.
Qed.

Lemma split_nl_line (l : string) : hasLF l = false -> split_nl l = [l].
Proof.
  induction l as [|c l IH]; simpl; [reflexivity|].
  destruct (Ascii.eqb c LF); simpl; [discriminate|].
  intros H. rewrite (IH H). reflexivity.
Qed.

Lemma split_nl_app_line (l rest : string) :
  hasLF l = false -> split_nl (l ++ String LF rest) = l :: split_nl rest.
Proof.
  induction l as [|c l IH]; simpl; [reflexivity|].
  destruct (Ascii.eqb c LF); simpl; [discriminate|].
  intros H. rewrite (IH H). reflexivity.
Qed.

(** Splitting undoes joining when no piece holds a line feed. *)
Lemma split_join_nl (ls : list string) :
  ls <> [] -> Forall (fun l => hasLF l = false) ls -> split_nl (join_nl ls) = ls.
Proof.
  unfold join_nl.
  induction ls as [|l ls IH]; [contradiction|].
  intros _ H. inversion H as [|? ? Hl Hls]; subst.
  destruct ls as [|l' ls'].
  - simpl. apply split_nl_line. assumption.
  - change (String.concat nl (l :: l' :: ls'))
      with (l ++ String LF (String.concat nl (l' :: ls'))).
    rewrite split_nl_app_line by assumption.
    f_equal. apply IH; [discriminate|assumption].
Qed.

(** ** [cut] and [replace] *)

Lemma drop_app (p r : string) : drop (String.length p) (p ++ r) = r.
Proof. induction p; simpl; auto. Qed.

Lemma startsWith_drop (s p : string) :
  startsWith s p = true -> s = p ++ drop (String.length p) s.
Proof.
  intros H. apply startsWith_iff in H as [r ->]. now rewrite drop_app.
Qed.

Lemma cut_Some (s needle pre post : string) :
  cut s needle = Some (pre, post) -> s = pre ++ needle ++ post.
Proof.
  revert pre post. induction s as [|a s IH]; intros pre post; simpl.
  - destruct (startsWith "" needle) eqn:E; [|discriminate].
    intros H. injection H as <- <-. now apply startsWith_drop.
  - destruct (startsWith (String a s) needle) eqn:E.
    + intros H. injection H as <- <-. now apply startsWith_drop.
    + destruct (cut s needle) as [[pre' post']|]; [|discriminate].
      intros H. injection H as <- <-. simpl. f_equal. apply IH. reflexivity.
Qed.

Lemma getSubstitution_one_line (matched pre post template : string) :
  hasLF matched = false -> hasLF pre = false -> hasLF post = false ->
  hasLF template = false ->
  hasLF (getSubstitution matched pre post template) = false.
Proof.
  intros Hm Hp Hq.
  assert (G : forall n template, String.length template <= n ->
              hasLF template = false ->
              hasLF (getSubstitution matched pre post template) = false).
  { induction n as [|n IH]; intros t Hn Ht.
    - destruct t; [reflexivity|simpl in Hn; lia].
    - destruct t as [|a r]; [reflexivity|].
      simpl in Ht. apply orb_false_iff in Ht as [Ha Hr].
      simpl in Hn. simpl.
      destruct (Ascii.eqb a "$").
      + destruct r as [|b r']; [simpl; now rewrite Ha|].
        simpl in Hr. apply orb_false_iff in Hr as [Hb Hr'].
        simpl in Hn.
        assert (IH' : hasLF (getSubstitution matched pre post r') = false)
          by (apply IH; [lia|assumption]).
        destruct (Ascii.eqb b "$"); [simpl; exact IH'|].
        destruct (Ascii.eqb b "&"); [rewrite hasLF_app, Hm; exact IH'|].
        destruct (Ascii.eqb b "`"); [rewrite hasLF_app, Hp; exact IH'|].
        destruct (Ascii.eqb b "'"); [rewrite hasLF_app, Hq; exact IH'|].
        cbn [hasLF]. rewrite Ha. cbn [orb].
        apply IH; [simpl; lia|simpl; now rewrite Hb].
      + cbn [hasLF]. rewrite Ha. cbn [orb]. apply IH; [lia|assumption]. }
  intros Ht. eapply G; eauto.
Qed.

Lemma replace_one_line (s pattern replacement : string) :
  hasLF s = false -> hasLF replacement = false ->
  hasLF (replace s pattern replacement) = false.
Proof.
  intros Hs Hr. unfold replace.
  destruct (cut s pattern) as [[pre post]|] eqn:E; [|assumption].
  apply cut_Some in E. subst s.
  rewrite !hasLF_app in Hs.
  apply orb_false_iff in Hs as [Hpre Hs]. apply orb_false_iff in Hs as [Hpat Hpost].
  rewrite !hasLF_app, Hpre, Hpost, getSubstitution_one_line; auto.
Qed.

(** ** [encodeURIComponent] *)

Lemma hexDigit_not_LF (d : N) : (d < 16)%N -> Ascii.eqb (hexDigit d) LF = false.
Proof.
  intros H. unfold hexDigit.
  assert (D : forall k, (k < 16)%nat -> Ascii.eqb
            (if (N.of_nat k <? 10)%N then ascii_of_N (48 + N.of_nat k)
             else ascii_of_N (55 + N.of_nat k)) LF = false).
  { intros k Hk. do 16 (destruct k as [|k]; [reflexivity|]). lia. }
  specialize (D (N.to_nat d)). rewrite N2Nat.id in D. apply D. lia.
Qed.

Lemma encodeURIComponent_one_line (s : string) : hasLF (encodeURIComponent s) = false.
Proof.
  induction s as [|a s IH]; simpl; [reflexivity|].
  destruct (unreserved a) eqn:U.
  - simpl. rewrite IH, orb_false_r.
    destruct (Ascii.eqb a LF) eqn:E; [|reflexivity].
    apply Ascii.eqb_eq in E. subst a. discriminate U.
  - cbn [hasLF]. rewrite IH, orb_false_r.
    rewrite !hexDigit_not_LF; [reflexivity| |].
    + apply N.mod_lt. discriminate.
    + apply N.Div0.div_lt_upper_bound.
      pose proof (N_ascii_bounded a). lia.
Qed.

End JsStringFacts.

(** ** Decimal numerals *)

Section DecimalFacts.

Lemma to_uint_nonnil (n : nat) : Nat.to_uint n <> Decimal.Nil.
Proof.
  rewrite <- (DecimalNat.Unsigned.of_to n) at 1.
  rewrite DecimalNat.Unsigned.to_of. apply DecimalFacts.unorm_nonnil.
Qed.

Lemma decimal_inj (n m : nat) : decimal n = decimal m -> n = m.
Proof.
  unfold decimal. intros H.
  apply DecimalNat.Unsigned.to_uint_inj.
  pose proof (NilZero.usu (Nat.to_uint n) (to_uint_nonnil n)) as Hn.
  pose proof (NilZero.usu (Nat.to_uint m) (to_uint_nonnil m)) as Hm.
  rewrite H in Hn. congruence.
Qed.


End DecimalFacts.

(* ================================================================== *)
(** * Facts about the rewriter *)
(* ================================================================== *)

Section RewriterFacts.
Import JsString JsStringFacts.

Variable newURL : string -> option string -> outcome URL.
Variable JSON_stringify : json -> string.

Variable env : environment.
Variable url : string.
Variable headers : json.
Variable baseProxyUrl : string.

Local Abbreviation parseURL := (parseURL newURL).
Local Abbreviation proxyUrl := (proxyUrl JSON_stringify).
Local Abbreviation mediaLine := (mediaLine newURL JSON_stringify env url headers baseProxyUrl).
Local Abbreviation mediaLines := (mediaLines newURL JSON_stringify env url headers baseProxyUrl).
Local Abbreviation masterLine := (masterLine newURL JSON_stringify url headers baseProxyUrl).
Local Abbreviation masterLines := (masterLines newURL JSON_stringify url headers baseProxyUrl).
Local Abbreviation rewriteMedia := (rewriteMedia newURL JSON_stringify env url headers baseProxyUrl).
Local Abbreviation rewriteMaster := (rewriteMaster newURL JSON_stringify url headers baseProxyUrl).
Local Abbreviation rewrite := (rewrite newURL JSON_stringify env url headers baseProxyUrl).
Local Abbreviation segmentUrlOf := (segmentUrlOf newURL url).
Local Abbreviation prefetchEach := (prefetchEach env headers).

(** ** The monad *)

Lemma bind_Ok {A B} (m : M A) (f : A -> M B) w b :
  bind m f = (w, Ok b) ->
  exists w1 a w2, m = (w1, Ok a) /\ f a = (w2, Ok b) /\ w = (w1 ++ w2)%list.
Proof.
  unfold bind. destruct m as [w1 [a|e]]; [|discriminate].
  destruct (f a) as [w2 r] eqn:E. intros H. injection H as <- ->.
  exists w1, a, w2. auto.
Qed.

Lemma bind_Throw {A B} (m : M A) (f : A -> M B) w e :
  m = (w, Throw e) -> bind m f = (w, Throw e).
Proof. intros ->. reflexivity. Qed.

(** ** One line of a media playlist *)

Lemma startsWith_key_directive (line : string) :
  startsWith line "#EXT-X-KEY:" = true -> startsWith line "#" = true.
Proof.
  intros H. apply startsWith_iff in H as [r ->]. reflexivity.
Qed.

Lemma startsWith_media_directive (line : string) :
  startsWith line "#EXT-X-MEDIA:" = true -> startsWith line "#" = true.
Proof.
  intros H. apply startsWith_iff in H as [r ->]. reflexivity.
Qed.

Lemma ws_len_hash (r : string) : ws_len (String "#" r) = 0.
Proof. destruct r as [|b [|c r]]; reflexivity. Qed.

Lemma blank_not_directive (line : string) :
  truthy (trim line) = false -> startsWith line "#" = false.
Proof.
  destruct line as [|a r]; [reflexivity|].
  intros H. cbn [startsWith]. rewrite andb_true_r.
  destruct (Ascii.eqb "#" a) eqn:E; [|reflexivity].
  apply Ascii.eqb_eq in E. subst a. exfalso.
  unfold trim, trimStart in H. cbn [trimStart_from] in H.
  rewrite ws_len_hash in H. cbn [trimEnd] in H. cbv zeta in H.
  rewrite ws_len_hash in H. discriminate H.
Qed.

Lemma mediaLine_directive (line : string) :
  startsWith line "#" = true -> startsWith line "#EXT-X-KEY:" = false ->
  mediaLine line = ret (line, []).
Proof. intros H1 H2. unfold mediaLine. now rewrite H1, H2. Qed.

Lemma mediaLine_blank (line : string) :
  truthy (trim line) = false -> mediaLine line = ret (line, []).
Proof.
  intros H. unfold mediaLine.
  rewrite (blank_not_directive _ H), H. reflexivity.
Qed.

Lemma mediaLine_segment (line : string) :
  isSegmentLine line = true ->
  mediaLine line =
    match parseURL line (Some url) with
    | Ok r =>
        match resolved r with
        | Some target => ret (proxyUrl baseProxyUrl "/ts-proxy" target headers, [target])
        | None => ret (line, [])
        end
    | Throw e => ([], Throw e)
    end.
Proof.
  unfold isSegmentLine. intros H. apply andb_true_iff in H as [H1 H2].
  apply negb_true_iff in H1.
  unfold mediaLine. rewrite H1, H2. simpl.
  destruct (parseURL line (Some url)) as [r|e]; simpl; [|reflexivity].
  destruct (resolved r); reflexivity.
Qed.

Lemma proxyUrl_one_line (endpoint target : string) :
  hasLF baseProxyUrl = false -> hasLF endpoint = false ->
  hasLF (proxyUrl baseProxyUrl endpoint target headers) = false.
Proof.
  intros Hb He. unfold proxyUrl.
  rewrite !hasLF_app, Hb, He, !encodeURIComponent_one_line. reflexivity.
Qed.

(** What the loop's body does at a line, when it does not throw. *)
Lemma mediaLine_Ok (line : string) w newLine urls :
  mediaLine line = (w, Ok (newLine, urls)) ->
  w = prefetchEach (keyUrlOf line)
  /\ urls = segmentUrlOf line
  /\ (hasLF baseProxyUrl = false -> hasLF line = false -> hasLF newLine = false).
Proof.
  unfold prefetchEach, keyUrlOf, segmentUrlOf.
  destruct (startsWith line "#EXT-X-KEY:") eqn:K.
  - pose proof (startsWith_key_directive _ K) as D.
    assert (S : isSegmentLine line = false) by (unfold isSegmentLine; now rewrite D).
    rewrite S. unfold mediaLine. rewrite D, K.
    destruct (firstAbsoluteUrl line) as [keyUrl|].
    + destruct (truthy keyUrl).
      * destruct (isCacheDisabled env); simpl; intros H; injection H as <- <- <-;
          (split; [reflexivity|split; [reflexivity|]]);
          intros; apply replace_one_line; auto; apply proxyUrl_one_line; auto.
      * intros H; injection H as <- <- <-. destruct (isCacheDisabled env); auto.
    + intros H; injection H as <- <- <-. destruct (isCacheDisabled env); auto.
  - destruct (isSegmentLine line) eqn:S.
    + rewrite (mediaLine_segment _ S).
      destruct (parseURL line (Some url)) as [r|e]; [|discriminate].
      destruct (resolved r) as [target|]; intros H; injection H as <- <- <-.
      * destruct (isCacheDisabled env); repeat split; auto;
          intros; apply proxyUrl_one_line; auto.
      * destruct (isCacheDisabled env); auto.
    + assert (E : mediaLine line = ret (line, [])).
      { unfold isSegmentLine in S. apply andb_false_iff in S as [S|S].
        - apply negb_false_iff in S. now apply mediaLine_directive.
        - now apply mediaLine_blank. }
      rewrite E. intros H; injection H as <- <- <-.
      destruct (isCacheDisabled env); auto.
Qed.

(** The loop's body throws only where the resolver does. *)
Lemma mediaLine_Throw (line : string) w e :
  mediaLine line = (w, Throw e) ->
  isSegmentLine line = true /\ parseURL line (Some url) = Throw e /\ w = [].
Proof.
  destruct (isSegmentLine line) eqn:S.
  - rewrite (mediaLine_segment _ S).
    destruct (parseURL line (Some url)) as [r|e'].
    + destruct (resolved r); discriminate.
    + intros H; injection H as <- <-. auto.
  - unfold isSegmentLine in S. apply andb_false_iff in S as [S|S].
    + apply negb_false_iff in S. unfold mediaLine. rewrite S.
      destruct (startsWith line "#EXT-X-KEY:"); [|discriminate].
      destruct (firstAbsoluteUrl line) as [k|]; [|discriminate].
      destruct (truthy k); [|discriminate].
      destruct (isCacheDisabled env); discriminate.
    + rewrite (mediaLine_blank _ S). discriminate.
Qed.

(** ** The loop *)

Lemma mediaLines_Ok (lines : list string) w newLines segmentUrls :
  mediaLines lines = (w, Ok (newLines, segmentUrls)) ->
  w = prefetchEach (flat_map keyUrlOf lines)
  /\ segmentUrls = flat_map segmentUrlOf lines
  /\ Forall2 (fun line newLine => exists w' urls, mediaLine line = (w', Ok (newLine, urls)))
             lines newLines.
Proof.
  revert w newLines segmentUrls.
  induction lines as [|line rest IH]; intros w newLines segmentUrls; simpl.
  - intros H. injection H as <- <- <-.
    unfold prefetchEach. destruct (isCacheDisabled env); auto.
  - intros H. apply bind_Ok in H as (w1 & [newLine urls] & w2 & H1 & H2 & ->).
    apply bind_Ok in H2 as (w3 & [newLines' urls'] & w4 & H3 & H4 & ->).
    injection H4 as <- <- <-.
    destruct (IH _ _ _ H3) as (-> & -> & F).
    destruct (mediaLine_Ok _ _ _ _ H1) as (-> & -> & _).
    repeat split.
    + unfold prefetchEach. destruct (isCacheDisabled env); [reflexivity|].
      rewrite app_nil_r, map_app. reflexivity.
    + constructor; eauto.
Qed.

Lemma mediaLines_total (lines : list string) :
  (forall line, In line lines -> isSegmentLine line = true ->
                exists r, parseURL line (Some url) = Ok r) ->
  exists w result, mediaLines lines = (w, Ok result).
Proof.
  induction lines as [|line rest IH]; intros H; simpl.
  - eexists _, _. reflexivity.
  - destruct IH as (w2 & [newLines urls'] & E2); [intros; apply H; simpl; auto|].
    destruct (mediaLine line) as [w1 [[newLine urls]|e]] eqn:E1.
    + unfold bind at 1. rewrite E2. simpl. eexists _, _. reflexivity.
    + apply mediaLine_Throw in E1 as (S & T & _).
      destruct (H line (or_introl eq_refl) S) as [r Hr]. congruence.
Qed.

(** A line on which the resolver throws stops the loop. *)
Lemma mediaLines_Throw (lines : list string) line e :
  In line lines -> isSegmentLine line = true -> parseURL line (Some url) = Throw e ->
  exists w e', mediaLines lines = (w, Throw e').
Proof.
  induction lines as [|l rest IH]; intros HIn S T; [contradiction|].
  simpl. destruct (mediaLine l) as [w1 [[newLine urls]|e1]] eqn:E1.
  - destruct HIn as [->|HIn].
    + rewrite (mediaLine_segment _ S), T in E1. discriminate.
    + destruct (IH HIn S T) as (w2 & e2 & E2).
      unfold bind at 1. rewrite E2. simpl. eauto.
  - simpl. eauto.
Qed.


(** ** One line of a master playlist *)

Lemma masterLine_variant (line : string) :
  isSegmentLine line = true ->
  masterLine line =
    match parseURL line (Some url) with
    | Ok r =>
        match resolved r with
        | Some target => ret (proxyUrl baseProxyUrl "/m3u8-proxy" target headers)
        | None => ret line
        end
    | Throw e => ([], Throw e)
    end.
Proof.
  unfold isSegmentLine. intros H. apply andb_true_iff in H as [H1 H2].
  apply negb_true_iff in H1.
  unfold masterLine. rewrite H1, H2. simpl.
  destruct (parseURL line (Some url)) as [r|e]; simpl; [|reflexivity].
  destruct (resolved r); reflexivity.
Qed.

Lemma masterLines_Throw (lines : list string) line e :
  In line lines -> isSegmentLine line = true -> parseURL line (Some url) = Throw e ->
  exists w e', masterLines lines = (w, Throw e').
Proof.
  induction lines as [|l rest IH]; intros HIn S T; [contradiction|].
  simpl. destruct (masterLine l) as [w1 [newLine|e1]] eqn:E1.
  - destruct HIn as [->|HIn].
    + rewrite (masterLine_variant _ S), T in E1. discriminate.
    + destruct (IH HIn S T) as (w2 & e2 & E2).
      unfold bind at 1. rewrite E2. simpl. eauto.
  - simpl. eauto.
Qed.

(** ** The rewriter *)

Lemma rewrite_Throw (m3u8Content line : string) e :
  In line (split_nl m3u8Content) -> isSegmentLine line = true ->
  parseURL line (Some url) = Throw e ->
  exists w e', rewrite m3u8Content = (w, Throw e').
Proof.
  intros HIn S T. unfold rewrite. destruct (classify m3u8Content).
  - destruct (masterLines_Throw _ _ _ HIn S T) as (w & e' & E).
    unfold rewriteMaster, bind. rewrite E. eauto.
  - destruct (mediaLines_Throw _ _ _ HIn S T) as (w & e' & E).
    unfold rewriteMedia, bind. rewrite E. eauto.
Qed.

Lemma rewriteMedia_Ok (m3u8Content : string) effects rewritten :
  rewriteMedia m3u8Content = (effects, Ok rewritten) ->
  exists w newLines segmentUrls,
    mediaLines (split_nl m3u8Content) = (w, Ok (newLines, segmentUrls))
    /\ rewritten = join_nl newLines
    /\ effects = (w ++ if isCacheDisabled env then []
                       else match segmentUrls with
                            | [] => []
                            | _ :: _ => [Cleanup; PrefetchAll segmentUrls headers]
                            end)%list.
Proof.
  unfold rewriteMedia. intros H.
  apply bind_Ok in H as (w & [newLines segmentUrls] & w2 & H1 & H2 & ->).
  exists w, newLines, segmentUrls. split; [exact H1|].
  destruct segmentUrls as [|u us]; simpl in H2.
  - injection H2 as <- <-. destruct (isCacheDisabled env); auto.
  - destruct (isCacheDisabled env); simpl in H2; injection H2 as <- <-; auto.
Qed.

Lemma Forall2_nth_error {A B} (R : A -> B -> Prop) (l : list A) (l' : list B) i a :
  Forall2 R l l' -> nth_error l i = Some a ->
  exists b, nth_error l' i = Some b /\ R a b.
Proof.
  intros F. revert i. induction F as [|x y l l' Hxy F IH]; intros i.
  - destruct i; discriminate.
  - destruct i as [|i]; simpl.
    + intros H. injection H as <-. eauto.
    + apply IH.
Qed.

(** C1, on the code.  For a manifest classified as a media playlist the
    rewriter returns a text exactly when the resolver throws on none of
    its segment lines; when it throws on one, the rewriter throws and
    there is no text.  A text it returns is the join of as many lines as
    the manifest has, the i-th of them made from the manifest's i-th
    line: a blank line and a directive other than a key directive are
    repeated byte for byte, and a segment line whose URI the resolver
    resolves becomes
    [{proxyBase}/ts-proxy?url=<encoded resolved URL>&headers=<encoded JSON of the headers>].
    These are the lines of the text returned, as long as the proxy's own
    origin [baseProxyUrl] holds no line feed. *)
Theorem media_rewrite_keeps_lines (m3u8Content : string) :
  classify m3u8Content = Media ->
  let lines := split_nl m3u8Content in
  ((forall line, In line lines -> isSegmentLine line = true ->
                 exists r, parseURL line (Some url) = Ok r) ->
   exists effects rewritten, rewrite m3u8Content = (effects, Ok rewritten))
  /\ (forall line e,
        In line lines -> isSegmentLine line = true ->
        parseURL line (Some url) = Throw e ->
        exists effects e', rewrite m3u8Content = (effects, Throw e'))
  /\ forall effects rewritten,
       rewrite m3u8Content = (effects, Ok rewritten) ->
       exists newLines,
         rewritten = join_nl newLines
         /\ List.length newLines = List.length lines
         /\ (hasLF baseProxyUrl = false -> split_nl rewritten = newLines)
         /\ forall i line,
              nth_error lines i = Some line ->
              exists newLine,
                nth_error newLines i = Some newLine
                /\ (truthy (trim line) = false -> newLine = line)
                /\ (startsWith line "#" = true -> startsWith line "#EXT-X-KEY:" = false ->
                    newLine = line)
                /\ (startsWith line "#" = false -> truthy (trim line) = true ->
                    forall target,
                      parseURL line (Some url) = Ok (Some target) -> truthy target = true ->
                      newLine = proxyUrl baseProxyUrl "/ts-proxy" target headers).
Proof.
  intros C lines.
  assert (X : forall line e,
            In line lines -> isSegmentLine line = true ->
            parseURL line (Some url) = Throw e ->
            exists effects e', rewrite m3u8Content = (effects, Throw e'))
    by (intros line e; apply rewrite_Throw).
  unfold rewrite in *. rewrite C in *. split; [|split; [exact X|]]; clear X.
  - intros T. destruct (mediaLines_total _ T) as (w & [newLines urls] & E).
    unfold rewriteMedia, bind. fold lines. rewrite E.
    destruct ((0 <? List.length urls)%nat); [destruct (negb (isCacheDisabled env))|];
      simpl; eauto.
  - intros effects rewritten H.
    apply rewriteMedia_Ok in H as (w & newLines & segmentUrls & E & -> & _).
    apply mediaLines_Ok in E as (_ & _ & F). fold lines in F.
    exists newLines. split; [reflexivity|]. split; [|split].
    + symmetry. eapply Forall2_length. exact F.
    + intros B. apply split_join_nl.
      * intros ->. inversion F as [E0|]. eapply split_nl_nonempty. symmetry. exact E0.
      * pose proof (split_nl_lines m3u8Content) as Hl. fold lines in Hl.
        clear - F Hl B. induction F as [|l n ls ns (w' & urls & Hn) F IH];
          constructor; inversion Hl; subst; auto.
        destruct (mediaLine_Ok _ _ _ _ Hn) as (_ & _ & G). auto.
    + intros i line Hi.
      destruct (Forall2_nth_error _ _ _ _ _ F Hi) as (newLine & Hn & w' & urls & Hm).
      exists newLine. split; [exact Hn|]. repeat split.
      * intros Hb. rewrite (mediaLine_blank _ Hb) in Hm. now injection Hm.
      * intros Hd Hk. rewrite (mediaLine_directive _ Hd Hk) in Hm. now injection Hm.
      * intros Hd Ht target Hp Htr.
        assert (S : isSegmentLine line = true) by (unfold isSegmentLine; now rewrite Hd, Ht).
        rewrite (mediaLine_segment _ S), Hp in Hm. simpl in Hm. rewrite Htr in Hm.
        now injection Hm.
Qed.

(** C2. The manifest goes through the master loop exactly when the text
    [RESOLUTION=] occurs somewhere in it, and through the media loop
    otherwise, whatever directives it holds. *)
Theorem classification_by_resolution_marker (m3u8Content : string) :
  let marked := exists pre post, m3u8Content = pre ++ "RESOLUTION=" ++ post in
  (classify m3u8Content = Master <-> marked)
  /\ (classify m3u8Content = Media <-> ~ marked)
  /\ (marked -> rewrite m3u8Content = rewriteMaster m3u8Content)
  /\ (~ marked -> rewrite m3u8Content = rewriteMedia m3u8Content).
Proof.
  cbv zeta. unfold rewrite, classify.
  pose proof (includes_iff m3u8Content "RESOLUTION=") as I.
  destruct (includes m3u8Content "RESOLUTION=").
  - assert (M : exists pre post, m3u8Content = pre ++ "RESOLUTION=" ++ post)
      by (apply I; reflexivity).
    repeat split; auto; try discriminate; intros; exfalso; auto.
  - assert (M : ~ exists pre post, m3u8Content = pre ++ "RESOLUTION=" ++ post)
      by (intros M; apply I in M; discriminate).
    repeat split; auto; try discriminate; intros; exfalso; auto.
Qed.


(** ** The master branch *)



Lemma masterLine_directive (line : string) :
  startsWith line "#" = true -> startsWith line "#EXT-X-KEY:" = false ->
  startsWith line "#EXT-X-MEDIA:" = false ->
  masterLine line = ret line.
Proof. intros H1 H2 H3. unfold masterLine. now rewrite H1, H2, H3. Qed.

Lemma masterLine_blank (line : string) :
  truthy (trim line) = false -> masterLine line = ret line.
Proof.
  intros H. unfold masterLine.
  rewrite (blank_not_directive _ H), H. reflexivity.
Qed.

Lemma masterLine_key (line keyUrl : string) :
  startsWith line "#EXT-X-KEY:" = true ->
  firstAbsoluteUrl line = Some keyUrl -> truthy keyUrl = true ->
  masterLine line
  = ret (replace line keyUrl (proxyUrl baseProxyUrl "/ts-proxy" keyUrl headers)).
Proof.
  intros K F T. unfold masterLine.
  now rewrite (startsWith_key_directive _ K), K, F, T.
Qed.

Lemma masterLine_media (line mediaUrl : string) :
  startsWith line "#EXT-X-MEDIA:" = true ->
  firstAbsoluteUrl line = Some mediaUrl -> truthy mediaUrl = true ->
  masterLine line
  = ret (replace line mediaUrl (proxyUrl baseProxyUrl "/m3u8-proxy" mediaUrl headers)).
Proof.
  intros K F T. unfold masterLine.
  rewrite (startsWith_media_directive _ K), K, F, T.
  destruct (startsWith line "#EXT-X-KEY:") eqn:E; [|reflexivity].
  apply startsWith_iff in E as [r ->]. discriminate K.
Qed.

Lemma masterLine_Ok (line : string) w newLine :
  masterLine line = (w, Ok newLine) ->
  w = [] /\ (hasLF baseProxyUrl = false -> hasLF line = false -> hasLF newLine = false).
Proof.
  unfold masterLine.
  destruct (startsWith line "#").
  - destruct (startsWith line "#EXT-X-KEY:").
    + destruct (firstAbsoluteUrl line) as [u|]; [destruct (truthy u)|];
        intros H; injection H as <- <-; split; auto.
      intros. apply replace_one_line; auto. apply proxyUrl_one_line; auto.
    + destruct (startsWith line "#EXT-X-MEDIA:").
      * destruct (firstAbsoluteUrl line) as [u|]; [destruct (truthy u)|];
          intros H; injection H as <- <-; split; auto.
        intros. apply replace_one_line; auto. apply proxyUrl_one_line; auto.
      * intros H; injection H as <- <-; auto.
  - destruct (truthy (trim line)).
    + destruct (parseURL line (Some url)) as [r|e]; simpl; [|discriminate].
      destruct (resolved r); intros H; injection H as <- <-; split; auto.
      intros. apply proxyUrl_one_line; auto.
    + intros H; injection H as <- <-; auto.
Qed.

Lemma masterLine_Throw (line : string) w e :
  masterLine line = (w, Throw e) ->
  isSegmentLine line = true /\ parseURL line (Some url) = Throw e.
Proof.
  destruct (isSegmentLine line) eqn:S.
  - rewrite (masterLine_variant _ S).
    destruct (parseURL line (Some url)) as [r|e'].
    + destruct (resolved r); discriminate.
    + intros H; injection H as <- <-. auto.
  - intros H. exfalso. revert H. unfold masterLine.
    unfold isSegmentLine in S.
    destruct (startsWith line "#").
    + destruct (startsWith line "#EXT-X-KEY:").
      * destruct (firstAbsoluteUrl line) as [u|]; [destruct (truthy u)|]; discriminate.
      * destruct (startsWith line "#EXT-X-MEDIA:"); [|discriminate].
        destruct (firstAbsoluteUrl line) as [u|]; [destruct (truthy u)|]; discriminate.
    + simpl in S. rewrite S. discriminate.
Qed.

Lemma masterLines_Ok (lines : list string) w newLines :
  masterLines lines = (w, Ok newLines) ->
  w = [] /\ Forall2 (fun line newLine => masterLine line = ([], Ok newLine)) lines newLines.
Proof.
  revert w newLines. induction lines as [|line rest IH]; intros w newLines; simpl.
  - intros H. injection H as <- <-. auto.
  - intros H. apply bind_Ok in H as (w1 & newLine & w2 & H1 & H2 & ->).
    apply bind_Ok in H2 as (w3 & newLines' & w4 & H3 & H4 & ->).
    injection H4 as <- <-.
    destruct (IH _ _ H3) as (-> & F).
    destruct (masterLine_Ok _ _ _ H1) as (-> & _).
    split; [reflexivity|]. constructor; auto.
Qed.

Lemma masterLines_total (lines : list string) :
  (forall line, In line lines -> isSegmentLine line = true ->
                exists r, parseURL line (Some url) = Ok r) ->
  exists w result, masterLines lines = (w, Ok result).
Proof.
  induction lines as [|line rest IH]; intros H; simpl.
  - eexists _, _. reflexivity.
  - destruct IH as (w2 & newLines & E2); [intros; apply H; simpl; auto|].
    destruct (masterLine line) as [w1 [newLine|e]] eqn:E1.
    + unfold bind at 1. rewrite E2. simpl. eexists _, _. reflexivity.
    + apply masterLine_Throw in E1 as (S & T).
      destruct (H line (or_introl eq_refl) S) as [r Hr]. congruence.
Qed.

(** The master branch returns a text exactly when the resolver throws on
    none of the manifest's variant lines; when it throws on one, the
    branch throws and there is no text.  A text it returns keeps the
    manifest's lines as the media branch does: a blank line and a
    directive other than a key or media directive are repeated; a key
    directive has its first absolute URL replaced by a segment-proxy URL
    and a media directive by a manifest-proxy URL; a variant line the
    resolver resolves becomes a manifest-proxy URL.  A branch that
    returns has made no call on the cache. *)
Theorem master_rewrite_keeps_lines (m3u8Content : string) :
  classify m3u8Content = Master ->
  let lines := split_nl m3u8Content in
  ((forall line, In line lines -> isSegmentLine line = true ->
                 exists r, parseURL line (Some url) = Ok r) ->
   exists rewritten, rewrite m3u8Content = ([], Ok rewritten))
  /\ (forall line e,
        In line lines -> isSegmentLine line = true ->
        parseURL line (Some url) = Throw e ->
        exists effects e', rewrite m3u8Content = (effects, Throw e'))
  /\ forall effects rewritten,
       rewrite m3u8Content = (effects, Ok rewritten) ->
       exists newLines,
         rewritten = join_nl newLines
         /\ effects = []
         /\ List.length newLines = List.length lines
         /\ (hasLF baseProxyUrl = false -> split_nl rewritten = newLines)
         /\ forall i line,
              nth_error lines i = Some line ->
              exists newLine,
                nth_error newLines i = Some newLine
                /\ (truthy (trim line) = false -> newLine = line)
                /\ (startsWith line "#" = true -> startsWith line "#EXT-X-KEY:" = false ->
                    startsWith line "#EXT-X-MEDIA:" = false -> newLine = line)
                /\ (forall keyUrl,
                      startsWith line "#EXT-X-KEY:" = true ->
                      firstAbsoluteUrl line = Some keyUrl -> truthy keyUrl = true ->
                      newLine = replace line keyUrl
                                  (proxyUrl baseProxyUrl "/ts-proxy" keyUrl headers))
                /\ (forall mediaUrl,
                      startsWith line "#EXT-X-MEDIA:" = true ->
                      firstAbsoluteUrl line = Some mediaUrl -> truthy mediaUrl = true ->
                      newLine = replace line mediaUrl
                                  (proxyUrl baseProxyUrl "/m3u8-proxy" mediaUrl headers))
                /\ (startsWith line "#" = false -> truthy (trim line) = true ->
                    forall target,
                      parseURL line (Some url) = Ok (Some target) -> truthy target = true ->
                      newLine = proxyUrl baseProxyUrl "/m3u8-proxy" target headers).
Proof.
  intros C lines.
  assert (X : forall line e,
            In line lines -> isSegmentLine line = true ->
            parseURL line (Some url) = Throw e ->
            exists effects e', rewrite m3u8Content = (effects, Throw e'))
    by (intros line e; apply rewrite_Throw).
  unfold rewrite in *. rewrite C in *. split; [|split; [exact X|]]; clear X.
  - intros T. destruct (masterLines_total _ T) as (w & newLines & E).
    destruct (masterLines_Ok _ _ _ E) as (-> & _).
    unfold rewriteMaster, bind. fold lines. rewrite E. simpl. eauto.
  - intros effects rewritten H. unfold rewriteMaster in H.
    apply bind_Ok in H as (w & newLines & w2 & E & H2 & ->).
    injection H2 as <- <-.
    apply masterLines_Ok in E as (-> & F). fold lines in F.
    exists newLines. split; [reflexivity|]. split; [reflexivity|]. split; [|split].
    + symmetry. eapply Forall2_length. exact F.
    + intros B. apply split_join_nl.
      * intros ->. inversion F as [E0|]. eapply split_nl_nonempty. symmetry. exact E0.
      * pose proof (split_nl_lines m3u8Content) as Hl. fold lines in Hl.
        clear - F Hl B. induction F as [|l n ls ns Hn F IH];
          constructor; inversion Hl; subst; auto.
        destruct (masterLine_Ok _ _ _ Hn) as (_ & G). auto.
    + intros i line Hi.
      destruct (Forall2_nth_error _ _ _ _ _ F Hi) as (newLine & Hn & Hm).
      exists newLine. split; [exact Hn|]. repeat split.
      * intros Hb. rewrite (masterLine_blank _ Hb) in Hm. now injection Hm.
      * intros Hd Hk Hx. rewrite (masterLine_directive _ Hd Hk Hx) in Hm. now injection Hm.
      * intros keyUrl Hk Hf Ht. rewrite (masterLine_key _ _ Hk Hf Ht) in Hm. now injection Hm.
      * intros mediaUrl Hk Hf Ht. rewrite (masterLine_media _ _ Hk Hf Ht) in Hm.
        now injection Hm.
      * intros Hd Ht target Hp Htr.
        assert (S : isSegmentLine line = true) by (unfold isSegmentLine; now rewrite Hd, Ht).
        rewrite (masterLine_variant _ S), Hp in Hm. simpl in Hm. rewrite Htr in Hm.
        now injection Hm.
Qed.

(** A line for which the resolver returns [null] or an empty string is
    repeated as it is, in both branches. *)
Lemma unresolved_line_passes_through (line : string) r :
  isSegmentLine line = true -> parseURL line (Some url) = Ok r -> resolved r = None ->
  masterLine line = ret line /\ mediaLine line = ret (line, []).
Proof.
  intros S P R. rewrite (masterLine_variant _ S), (mediaLine_segment _ S), P, R. auto.
Qed.

End RewriterFacts.

(* ================================================================== *)
(** * Facts about the segment cache *)
(* ================================================================== *)

Section CacheFacts.

(** ** Maps *)

Lemma Map_delete_filter {V} (k : string) (m : Map V) :
  Map_delete k m = filter (fun kv => negb (String.eqb k (fst kv))) m.
Proof.
  induction m as [|[k' v] m IH]; simpl; [reflexivity|].
  destruct (String.eqb k k'); simpl; now rewrite IH.
Qed.

Lemma Map_get_delete_same {V} (k : string) (m : Map V) :
  Map_get k (Map_delete k m) = None.
Proof.
  induction m as [|[k' v] m IH]; simpl; [reflexivity|].
  destruct (String.eqb k k') eqn:E; simpl; [assumption|].
  now rewrite E.
Qed.

Lemma Map_get_delete_other {V} (k k0 : string) (m : Map V) :
  k0 <> k -> Map_get k0 (Map_delete k m) = Map_get k0 m.
Proof.
  intros N. induction m as [|[k' v] m IH]; simpl; [reflexivity|].
  destruct (String.eqb k k') eqn:E; simpl.
  - apply String.eqb_eq in E. subst k'.
    apply String.eqb_neq in N. now rewrite N.
  - now rewrite IH.
Qed.

Lemma Map_get_set_same {V} (k : string) (v : V) (m : Map V) :
  Map_get k (Map_set k v m) = Some v.
Proof.
  induction m as [|[k' v'] m IH]; simpl.
  - now rewrite String.eqb_refl.
  - destruct (String.eqb k k') eqn:E; simpl.
    + now rewrite String.eqb_refl.
    + now rewrite E.
Qed.

Lemma Map_get_In {V} (k : string) (v : V) (m : Map V) :
  Map_get k m = Some v -> In (k, v) m.
Proof.
  induction m as [|[k' v'] m IH]; simpl; [discriminate|].
  destruct (String.eqb k k') eqn:E.
  - apply String.eqb_eq in E. subst k'. intros H. injection H as ->. now left.
  - auto.
Qed.

Lemma filter_filter {A} (f g : A -> bool) (l : list A) :
  filter f (filter g l) = filter (fun a => g a && f a) l.
Proof.
  induction l as [|a l IH]; simpl; [reflexivity|].
  destruct (g a); simpl; [destruct (f a)|]; now rewrite IH.
Qed.

Lemma filter_all {A} (f : A -> bool) (l : list A) :
  (forall a, In a l -> f a = true) -> filter f l = l.
Proof.
  induction l as [|a l IH]; simpl; intros H; [reflexivity|].
  rewrite (H a) by auto. f_equal. auto.
Qed.

Lemma filter_none {A} (f : A -> bool) (l : list A) :
  (forall a, In a l -> f a = false) -> filter f l = [].
Proof.
  induction l as [|a l IH]; simpl; intros H; [reflexivity|].
  rewrite (H a) by auto. auto.
Qed.

(** A loop of conditional deletions is one filter. *)
Lemma fold_delete {V} (P : string * V -> bool) (l : list (string * V)) (m : Map V) :
  fold_left (fun m kv => if P kv then Map_delete (fst kv) m else m) l m
  = filter (fun kv => negb (existsb (fun kv' => P kv' && String.eqb (fst kv') (fst kv)) l)) m.
Proof.
  revert m. induction l as [|x l IH]; intros m; simpl.
  - symmetry. now apply filter_all.
  - rewrite IH. destruct (P x); simpl.
    + rewrite Map_delete_filter, filter_filter. apply filter_ext.
      intros kv. now rewrite negb_orb.
    + reflexivity.
Qed.

Lemma keys_filter_NoDup {V} (f : string * V -> bool) (m : Map V) :
  well_formed m -> well_formed (filter f m).
Proof.
  unfold well_formed, keys.
  induction m as [|[k v] m IH]; simpl; intros H; [constructor|].
  inversion H as [|? ? Hk Hm]; subst.
  destruct (f (k, v)); simpl; [constructor|]; auto.
  intros HIn. apply Hk. apply in_map_iff in HIn as ([k' v'] & <- & HIn).
  apply filter_In in HIn as [HIn _]. apply in_map_iff. exists (k', v'). auto.
Qed.

Lemma well_formed_unique {V} (m : Map V) (kv kv' : string * V) :
  well_formed m -> In kv m -> In kv' m -> fst kv = fst kv' -> kv = kv'.
Proof.
  unfold well_formed, keys.
  induction m as [|x m IH]; simpl; intros H; [contradiction|].
  inversion H as [|? ? Hk Hm]; subst.
  intros [->|H1] [->|H2] E; auto.
  - exfalso. apply Hk. rewrite E. now apply in_map.
  - exfalso. apply Hk. rewrite <- E. now apply in_map.
Qed.

(** ** Expiry *)

Lemma evictExpired_filter (now : Z) (cache : Cache) :
  well_formed cache ->
  evictExpired now cache = filter (fun kv => negb (expired now (snd kv))) cache.
Proof.
  intros W. unfold evictExpired.
  rewrite (fold_delete (fun kv => expired now (snd kv))).
  apply filter_ext_in. intros kv HIn. f_equal.
  destruct (expired now (snd kv)) eqn:E.
  - apply existsb_exists. exists kv. now rewrite E, String.eqb_refl.
  - apply not_true_is_false. intros H.
    apply existsb_exists in H as (kv' & HIn' & H).
    apply andb_true_iff in H as [H1 H2]. apply String.eqb_eq in H2.
    rewrite (well_formed_unique _ _ _ W HIn' HIn H2) in H1. congruence.
Qed.

(** ** Sorting by timestamp *)

Lemma insertByTimestamp_perm x l : Permutation (insertByTimestamp x l) (x :: l).
Proof.
  induction l as [|y l IH]; simpl; [reflexivity|].
  destruct (timestamp (snd x) - timestamp (snd y) <=? 0)%Z; [reflexivity|].
  rewrite IH. apply perm_swap.
Qed.

Lemma sortByTimestamp_perm l : Permutation (sortByTimestamp l) l.
Proof.
  induction l as [|x l IH]; simpl; [reflexivity|].
  rewrite insertByTimestamp_perm. now constructor.
Qed.

Lemma insertByTimestamp_sorted x l :
  StronglySorted older l -> StronglySorted older (insertByTimestamp x l).
Proof.
  induction l as [|y l IH]; simpl; intros S.
  - repeat constructor.
  - inversion S as [|? ? Sl Fy]; subst.
    destruct (timestamp (snd x) - timestamp (snd y) <=? 0)%Z eqn:E.
    + apply Z.leb_le in E. constructor; [assumption|].
      constructor; [unfold older; lia|].
      eapply Forall_impl; [|exact Fy]. unfold older. intros; lia.
    + apply Z.leb_gt in E. constructor; [auto|].
      eapply Permutation_Forall; [symmetry; apply insertByTimestamp_perm|].
      constructor; [unfold older; lia|assumption].
Qed.

Lemma sortByTimestamp_sorted l : StronglySorted older (sortByTimestamp l).
Proof.
  induction l as [|x l IH]; simpl; [constructor|].
  now apply insertByTimestamp_sorted.
Qed.

Lemma sorted_split (l1 l2 : list (string * CacheEntry)) :
  StronglySorted older (l1 ++ l2) ->
  forall a b, In a l1 -> In b l2 -> older a b.
Proof.
  induction l1 as [|x l1 IH]; simpl; intros S a b Ha Hb; [contradiction|].
  inversion S as [|? ? Sl Fx]; subst.
  destruct Ha as [->|Ha]; [|eauto].
  rewrite Forall_forall in Fx. apply Fx. apply in_or_app. now right.
Qed.

(** ** Eviction *)

Lemma Permutation_filter {A} (f : A -> bool) (l l' : list A) :
  Permutation l l' -> Permutation (filter f l) (filter f l').
Proof.
  induction 1 as [| x l l' _ IH | x y l | l l' l'' _ IH1 _ IH2]; simpl.
  - constructor.
  - destruct (f x); [constructor|]; assumption.
  - destruct (f x), (f y); try reflexivity. apply perm_swap.
  - etransitivity; eassumption.
Qed.

(** Deleting the keys of the first [n] entries of a permutation [s] of
    the map leaves, up to order, the other entries of [s]. *)
Lemma delete_firstn (cache : Cache) (s : list (string * CacheEntry)) (n : nat) :
  well_formed cache -> Permutation s cache ->
  fold_left (fun m kv => Map_delete (fst kv) m) (firstn n s) cache
  = filter (fun kv => negb (existsb (fun kv' => String.eqb (fst kv') (fst kv)) (firstn n s)))
           cache
  /\ Permutation
       (fold_left (fun m kv => Map_delete (fst kv) m) (firstn n s) cache)
       (skipn n s).
Proof.
  intros W P.
  assert (E : fold_left (fun m kv => Map_delete (fst kv) m) (firstn n s) cache
              = filter (fun kv => negb (existsb (fun kv' => String.eqb (fst kv') (fst kv))
                                                (firstn n s))) cache).
  { rewrite (fold_delete (fun _ => true)). apply filter_ext. reflexivity. }
  split; [exact E|]. rewrite E.
  etransitivity; [apply Permutation_filter; symmetry; exact P|].
  assert (Ws : well_formed s).
  { unfold well_formed, keys in *. eapply Permutation_NoDup; [|exact W].
    apply Permutation_map. now symmetry. }
  rewrite <- (firstn_skipn n s) at 1.
  rewrite filter_app, filter_none, filter_all; [reflexivity| |].
  - intros kv HIn. apply negb_true_iff, not_true_is_false. intros H.
    apply existsb_exists in H as (kv' & HIn' & H). apply String.eqb_eq in H.
    assert (kv' = kv).
    { apply (well_formed_unique s); auto.
      - rewrite <- (firstn_skipn n s). apply in_or_app. now left.
      - rewrite <- (firstn_skipn n s). apply in_or_app. now right. }
    subst kv'.
    assert (D : NoDup s).
    { unfold well_formed, keys in Ws. eapply NoDup_map_inv. exact Ws. }
    rewrite <- (firstn_skipn n s) in D. apply NoDup_app_remove_l in D as D2.
    clear - D HIn HIn'.
    induction (firstn n s) as [|x l IH]; [contradiction|].
    simpl in D. inversion D as [|? ? Hx Hl]; subst.
    destruct HIn' as [->|HIn']; [apply Hx; apply in_or_app; now right|auto].
  - intros kv HIn. apply negb_false_iff, existsb_exists.
    exists kv. now rewrite String.eqb_refl.
Qed.

(** Under capacity nothing is evicted. *)
Lemma evictToCapacity_small (cache : Cache) :
  Map_size cache <= CACHE_MAX_SIZE -> evictToCapacity cache = cache.
Proof.
  intros H. unfold evictToCapacity.
  destruct (CACHE_MAX_SIZE <? Map_size cache)%nat eqn:C; [|reflexivity].
  apply Nat.ltb_lt in C. lia.
Qed.

(** Over capacity the surplus is evicted, oldest first. *)
Lemma evictToCapacity_oldest (cache : Cache) :
  well_formed cache -> CACHE_MAX_SIZE < Map_size cache ->
  exists removed,
    Permutation cache (removed ++ evictToCapacity cache)
    /\ List.length removed = Map_size cache - CACHE_MAX_SIZE
    /\ Map_size (evictToCapacity cache) = CACHE_MAX_SIZE
    /\ (forall r k, In r removed -> In k (evictToCapacity cache) -> older r k)
    /\ well_formed (evictToCapacity cache).
Proof.
  intros W C. unfold evictToCapacity, Map_size in *.
  apply Nat.ltb_lt in C as C'. rewrite C'.
  set (s := sortByTimestamp cache).
  set (n := List.length cache - CACHE_MAX_SIZE).
  pose proof (sortByTimestamp_perm cache) as P. fold s in P.
  destruct (delete_firstn _ _ n W P) as [E Q].
  set (kept := fold_left (fun m kv => Map_delete (fst kv) m) (firstn n s) cache) in *.
  assert (Ls : List.length s = List.length cache) by (now apply Permutation_length).
  exists (firstn n s). split; [|split; [|split; [|split]]].
  - rewrite Q, firstn_skipn. now symmetry.
  - rewrite length_firstn, Ls. unfold n. lia.
  - rewrite (Permutation_length Q), length_skipn, Ls. unfold n. lia.
  - intros r k Hr Hk. apply (Permutation_in _ Q) in Hk.
    apply (sorted_split (firstn n s) (skipn n s)); auto.
    rewrite firstn_skipn. apply sortByTimestamp_sorted.
  - rewrite E. now apply keys_filter_NoDup.
Qed.

Lemma well_formed_evictExpired (now : Z) (cache : Cache) :
  well_formed cache -> well_formed (evictExpired now cache).
Proof. intros W. rewrite evictExpired_filter by exact W. now apply keys_filter_NoDup. Qed.

Lemma well_formed_cleanupCache (now : Z) (cache : Cache) :
  well_formed cache -> well_formed (cleanupCache now cache).
Proof.
  intros W. unfold cleanupCache.
  pose proof (well_formed_evictExpired now cache W) as Ws.
  destruct (Nat.le_gt_cases (Map_size (evictExpired now cache)) CACHE_MAX_SIZE) as [C|C].
  - now rewrite evictToCapacity_small.
  - now destruct (evictToCapacity_oldest _ Ws C) as (_ & _ & _ & _ & _ & H).
Qed.

(** C3. One pass of [cleanupCache] over a map: the expired entries go;
    the result holds at most [CACHE_MAX_SIZE] entries; when the entries
    that survived expiry were more than that, exactly the surplus was
    removed, the result holds exactly [CACHE_MAX_SIZE] entries, and no
    removed entry is younger than an entry that was kept. *)
Theorem cleanupCache_capacity (now : Z) (cache : Cache) :
  well_formed cache ->
  let survivors := evictExpired now cache in
  let cache' := cleanupCache now cache in
  survivors = filter (fun kv => negb (expired now (snd kv))) cache
  /\ Map_size cache' <= CACHE_MAX_SIZE
  /\ well_formed cache'
  /\ (Map_size survivors <= CACHE_MAX_SIZE -> cache' = survivors)
  /\ (CACHE_MAX_SIZE < Map_size survivors ->
      Map_size cache' = CACHE_MAX_SIZE
      /\ exists removed,
           Permutation survivors (removed ++ cache')
           /\ List.length removed = Map_size survivors - CACHE_MAX_SIZE
           /\ forall r k, In r removed -> In k cache' ->
                          (timestamp (snd r) <= timestamp (snd k))%Z).
Proof.
  intros W survivors cache'.
  pose proof (well_formed_evictExpired now cache W) as Ws. fold survivors in Ws.
  split; [apply evictExpired_filter; exact W|].
  split; [|split; [now apply well_formed_cleanupCache|split]].
  - unfold cache', cleanupCache. fold survivors.
    destruct (Nat.le_gt_cases (Map_size survivors) CACHE_MAX_SIZE) as [C|C].
    + now rewrite evictToCapacity_small.
    + destruct (evictToCapacity_oldest _ Ws C) as (_ & _ & _ & L & _). lia.
  - intros C. unfold cache', cleanupCache. fold survivors.
    now apply evictToCapacity_small.
  - intros C. unfold cache', cleanupCache. fold survivors.
    destruct (evictToCapacity_oldest _ Ws C) as (removed & P & L & K & O & _).
    split; [exact K|]. exists removed. auto.
Qed.

End CacheFacts.

(** ** The map stays a map *)

Section CacheInvariant.

Lemma keys_Map_set {V} (k : string) (v : V) (m : Map V) :
  keys (Map_set k v m) = if existsb (String.eqb k) (keys m) then keys m
                         else (keys m ++ [k])%list.
Proof.
  induction m as [|[k' v'] m IH]; simpl; [reflexivity|].
  destruct (String.eqb k k') eqn:E; simpl.
  - apply String.eqb_eq in E. now subst k'.
  - rewrite IH. now destruct (existsb (String.eqb k) (keys m)).
Qed.

Lemma well_formed_set {V} (k : string) (v : V) (m : Map V) :
  well_formed m -> well_formed (Map_set k v m).
Proof.
  unfold well_formed. intros W. rewrite keys_Map_set.
  destruct (existsb (String.eqb k) (keys m)) eqn:E; [exact W|].
  apply NoDup_app; [exact W|repeat constructor; auto|].
  intros x Hx [Hk|[]]. subst x.
  assert (existsb (String.eqb k) (keys m) = true); [|congruence].
  apply existsb_exists. exists k. now rewrite String.eqb_refl.
Qed.

Lemma well_formed_delete {V} (k : string) (m : Map V) :
  well_formed m -> well_formed (Map_delete k m).
Proof. rewrite Map_delete_filter. apply keys_filter_NoDup. Qed.

Lemma well_formed_getCachedSegment (env : environment) (now : Z) (url : string)
    (cache : Cache) :
  well_formed cache -> well_formed (snd (getCachedSegment env now url cache)).
Proof.
  intros W. unfold getCachedSegment.
  destruct (isCacheDisabled env); [exact W|].
  destruct (Map_get url cache) as [entry|]; [|exact W].
  destruct (now - timestamp entry >? CACHE_EXPIRY_MS)%Z; [|exact W].
  now apply well_formed_delete.
Qed.

Lemma well_formed_prefetchSegment_begin (env : environment) (now : Z) (url : string)
    (headers : json) (cache : Cache) :
  well_formed cache -> well_formed (fst (prefetchSegment_begin env now url headers cache)).
Proof.
  intros W. unfold prefetchSegment_begin.
  destruct (isCacheDisabled env); [exact W|].
  set (c := if (CACHE_MAX_SIZE <=? Map_size cache)%nat then cleanupCache now cache else cache).
  assert (Wc : well_formed c).
  { unfold c. destruct (CACHE_MAX_SIZE <=? Map_size cache)%nat; [|exact W].
    now apply well_formed_cleanupCache. }
  destruct (Map_get url c) as [existing|]; [|exact Wc].
  destruct (now - timestamp existing <=? CACHE_EXPIRY_MS)%Z; exact Wc.
Qed.

Lemma well_formed_prefetchSegment_resume (now : Z) (url : string)
    (fetched : outcome Response) (cache : Cache) :
  well_formed cache -> well_formed (prefetchSegment_resume now url fetched cache).
Proof.
  intros W. unfold prefetchSegment_resume.
  destruct fetched as [response|e]; [|exact W].
  destruct (negb (ok response)); [exact W|].
  destruct (arrayBuffer response); [|exact W].
  now apply well_formed_set.
Qed.

Lemma well_formed_settle (env : environment) (now : Z) (cache : Cache) (e : effect) :
  well_formed cache -> well_formed (settle env now cache e).
Proof.
  intros W. destruct e as [u h| |us h]; simpl.
  - now apply well_formed_prefetchSegment_begin.
  - now apply well_formed_cleanupCache.
  - revert cache W. induction us as [|u us IH]; intros cache W; simpl; [exact W|].
    apply IH. now apply well_formed_prefetchSegment_begin.
Qed.

Lemma cleanupCache_unexpired (now : Z) (cache : Cache) :
  well_formed cache ->
  forall kv, In kv (cleanupCache now cache) -> In kv cache /\ expired now (snd kv) = false.
Proof.
  intros W kv HIn. unfold cleanupCache in HIn.
  pose proof (well_formed_evictExpired now cache W) as Ws.
  assert (HIn' : In kv (evictExpired now cache)).
  { destruct (Nat.le_gt_cases (Map_size (evictExpired now cache)) CACHE_MAX_SIZE) as [C|C].
    - now rewrite evictToCapacity_small in HIn.
    - destruct (evictToCapacity_oldest _ Ws C) as (removed & P & _).
      eapply Permutation_in; [symmetry; exact P|]. apply in_or_app. now right. }
  rewrite evictExpired_filter in HIn' by exact W.
  apply filter_In in HIn' as [H1 H2]. now apply negb_true_iff in H2.
Qed.

Lemma cleanupCache_size (now : Z) (cache : Cache) :
  well_formed cache -> Map_size (cleanupCache now cache) <= CACHE_MAX_SIZE.
Proof.
  intros W. unfold cleanupCache.
  pose proof (well_formed_evictExpired now cache W) as Ws.
  destruct (Nat.le_gt_cases (Map_size (evictExpired now cache)) CACHE_MAX_SIZE) as [C|C].
  - now rewrite evictToCapacity_small.
  - destruct (evictToCapacity_oldest _ Ws C) as (_ & _ & _ & L & _). lia.
Qed.

(** A second pass at the same instant changes nothing. *)
Lemma cleanupCache_idempotent (now : Z) (cache : Cache) :
  well_formed cache ->
  cleanupCache now (cleanupCache now cache) = cleanupCache now cache.
Proof.
  intros W.
  pose proof (well_formed_cleanupCache now cache W) as W'.
  set (cache' := cleanupCache now cache) in *.
  assert (E : evictExpired now cache' = cache').
  { rewrite evictExpired_filter by exact W'. apply filter_all. intros kv HIn.
    destruct (cleanupCache_unexpired now cache W kv HIn) as [_ H]. now rewrite H. }
  unfold cleanupCache at 1. rewrite E. apply evictToCapacity_small.
  now apply cleanupCache_size.
Qed.

End CacheInvariant.

(** The text the media branch returns does not depend on the cache being
    enabled. *)
Section AnyEnvironment.
Import JsString.

Variable newURL : string -> option string -> outcome URL.
Variable JSON_stringify : json -> string.
Variables env env' : environment.
Variable url : string.
Variable headers : json.
Variable baseProxyUrl : string.




End AnyEnvironment.


(* ================================================================== *)
(** * Facts about the resolver's pattern *)
(* ================================================================== *)

Section PatternFacts.
Import JsString Regex.

(** The matcher, one step at a time. *)
Lemma run_Seq a b k pos rest cs :
  run (Seq a b) k pos rest cs = run a (run b k) pos rest cs.
Proof. reflexivity. Qed.

Lemma run_Alt a b k pos rest cs :
  run (Alt a b) k pos rest cs =
    match run a k pos rest cs with
    | Some res => Some res
    | None => run b k pos rest cs
    end.
Proof. reflexivity. Qed.

Lemma run_Opt a k pos rest cs :
  run (Opt a) k pos rest cs =
    match run a k pos rest cs with
    | Some res => Some res
    | None => k pos rest cs
    end.
Proof. reflexivity. Qed.

Lemma run_Unit c k pos rest cs :
  run (Unit c) k pos rest cs =
    match rest with
    | String _ rest' => if c rest then k (S pos) rest' cs else None
    | EmptyString => None
    end.
Proof. reflexivity. Qed.

Lemma run_Group i a k pos rest cs :
  run (Group i a) k pos rest cs =
    run a (fun pos' rest' cs' =>
             k pos' rest' ((i, String.substring 0 (pos' - pos) rest) :: cs'))
        pos rest cs.
Proof. reflexivity. Qed.

Lemma run_Eol k pos rest cs :
  run Eol k pos rest cs =
    match rest with EmptyString => k pos rest cs | String _ _ => None end.
Proof. reflexivity. Qed.

Lemma run_Bol k pos rest cs :
  run Bol k pos rest cs = if Nat.eqb pos 0 then k pos rest cs else None.
Proof. reflexivity. Qed.

Lemma run_Star (c : class) k pos rest cs :
  run (Star c) k pos rest cs =
    match rest with
    | String _ rest' =>
        if c rest then
          match run (Star c) k (S pos) rest' cs with
          | Some res => Some res
          | None => k pos rest cs
          end
        else k pos rest cs
    | EmptyString => k pos rest cs
    end.
Proof. destruct rest; reflexivity. Qed.

Lemma run_StarLazy (c : class) k pos rest cs :
  run (StarLazy c) k pos rest cs =
    match k pos rest cs with
    | Some res => Some res
    | None =>
        match rest with
        | String _ rest' => if c rest then run (StarLazy c) k (S pos) rest' cs else None
        | EmptyString => None
        end
    end.
Proof. destruct rest; reflexivity. Qed.

Lemma notSlashOrQuery_atHostEnd (rest : string) :
  notSlashOrQuery rest = negb (atHostEnd rest).
Proof. destruct rest; reflexivity. Qed.

(** A greedy star of any unit in front of a continuation that accepts
    the end of the input succeeds. *)
Lemma run_Star_anyUnit k pos rest cs :
  (forall p, k p EmptyString cs <> None) ->
  run (Star anyUnit) k pos rest cs <> None.
Proof.
  intros K. revert pos. induction rest as [|a rest IH]; intros pos.
  - rewrite run_Star. apply K.
  - rewrite run_Star. cbn [anyUnit].
    specialize (IH (S pos)).
    destruct (run (Star anyUnit) k (S pos) rest cs); congruence.
Qed.

Lemma run_TAIL pos rest cs :
  let accept := fun p (_ : string) cs' => Some (p, cs') in
  (atHostEnd rest = true -> run TAIL accept pos rest cs <> None)
  /\ (atHostEnd rest = false -> run TAIL accept pos rest cs = None).
Proof.
  cbv zeta. unfold TAIL. rewrite run_Group, run_Alt, run_Seq, run_Unit, run_Eol.
  destruct rest as [|a rest].
  - split; discriminate.
  - cbn [atHostEnd]. split; intros H; rewrite H; [|reflexivity].
    match goal with
    | |- match ?x with _ => _ end <> None =>
        assert (G : x <> None); [|destruct x; [discriminate|congruence]]
    end.
    apply run_Star_anyUnit. discriminate.
Qed.

(** The lazy host ends at the latest where the host may end. *)
Lemma run_lazy_host k pos rest cs :
  (forall p r, atHostEnd r = true -> k p r cs <> None) ->
  run (StarLazy notSlashOrQuery) k pos rest cs <> None.
Proof.
  intros K. revert pos. induction rest as [|a rest IH]; intros pos.
  - rewrite run_StarLazy.
    specialize (K pos EmptyString eq_refl). destruct (k pos EmptyString cs); congruence.
  - rewrite run_StarLazy.
    destruct (k pos (String a rest) cs) eqn:E; [discriminate|].
    rewrite notSlashOrQuery_atHostEnd.
    destruct (atHostEnd (String a rest)) eqn:A; cbn [negb].
    + exfalso. apply (K pos (String a rest) A). exact E.
    + apply IH.
Qed.

Lemma run_HOST_AND_TAIL pos rest cs :
  let accept := fun p (_ : string) cs' => Some (p, cs') in
  (atHostEnd rest = false -> run HOST_AND_TAIL accept pos rest cs <> None)
  /\ (atHostEnd rest = true -> run HOST_AND_TAIL accept pos rest cs = None).
Proof.
  cbv zeta. unfold HOST_AND_TAIL, PlusLazy.
  rewrite run_Seq, run_Group, run_Seq, run_Group, run_Seq, run_Unit.
  rewrite notSlashOrQuery_atHostEnd.
  destruct rest as [|a rest]; [split; [discriminate|reflexivity]|].
  split; intros H; rewrite H; cbn [negb]; [|reflexivity].
  apply run_lazy_host. intros p r A.
  rewrite run_Opt.
  match goal with
  | |- match ?x with _ => _ end <> None => destruct x; [discriminate|]
  end.
  apply run_TAIL. exact A.
Qed.

(** Behind [^] the pattern matches at offset 0 only. *)
Lemma search_Bol (r : regex) pos rest :
  0 < pos -> search (Seq Bol r) pos rest = None.
Proof.
  revert pos. induction rest as [|a rest IH]; intros pos H.
  - cbn [search]. unfold matchAt. rewrite run_Seq, run_Bol.
    destruct pos; [lia|reflexivity].
  - cbn [search]. unfold matchAt at 1. rewrite run_Seq, run_Bol.
    destruct pos as [|pos]; [lia|]. cbn [Nat.eqb].
    apply IH. lia.
Qed.

(** The scheme needs an [h] or an [H] to start with. *)
Lemma run_SCHEME_fails k pos a r cs :
  Ascii.eqb (toLower "h") (toLower a) = false ->
  run (Opt (Group 1 SCHEME)) k pos (String a r) cs = k pos (String a r) cs.
Proof.
  intros H. rewrite run_Opt, run_Group. unfold SCHEME.
  change (litI "http") with (Seq (Unit (chrI "h")) (litI "ttp")).
  rewrite !run_Seq, run_Unit. unfold chrI at 1. rewrite H. reflexivity.
Qed.

Lemma run_slashes k pos a r cs :
  run (lit "//") k pos (String a r) cs =
    if Ascii.eqb "/" a then
      match r with
      | String b r' => if Ascii.eqb "/" b then k (S (S pos)) r' cs else None
      | EmptyString => None
      end
    else None.
Proof.
  change (lit "//") with (Seq (Unit (chr "/")) (Unit (chr "/"))).
  rewrite run_Seq, run_Unit. unfold chr at 1.
  destruct (Ascii.eqb "/" a); [|reflexivity].
  rewrite run_Unit. destruct r; reflexivity.
Qed.

(** [URL_PATTERN] fails exactly on the inputs it has no host for. *)
Lemma URL_PATTERN_fails_iff_hostless (s : string) :
  exec URL_PATTERN s = None <-> hostless s = true.
Proof.
  assert (X : exec URL_PATTERN s = None <-> matchAt URL_PATTERN 0 s = None).
  { unfold exec. destruct s as [|a r]; cbn [search].
    - destruct (matchAt URL_PATTERN 0 EmptyString); split; congruence.
    - unfold URL_PATTERN at 2. rewrite search_Bol by lia.
      destruct (matchAt URL_PATTERN 0 (String a r)); split; congruence. }
  rewrite X. clear X. unfold matchAt.
  set (accept := fun p (_ : string) (cs' : captures) => Some (p, cs')).
  assert (Y : run URL_PATTERN accept 0 s [] = None <-> hostless s = true).
  { unfold URL_PATTERN. rewrite run_Seq, run_Bol. cbn [Nat.eqb].
    rewrite run_Seq, run_Opt, run_Seq.
    pose proof (fun pos rest => run_HOST_AND_TAIL pos rest []) as HT. cbv zeta in HT.
    fold accept in HT.
    set (K := run HOST_AND_TAIL accept) in *. clearbody K.
    destruct s as [|a r].
    - split; [reflexivity|]. intros _.
      rewrite run_Opt, run_Group. unfold SCHEME.
      change (litI "http") with (Seq (Unit (chrI "h")) (litI "ttp")).
      rewrite !run_Seq, run_Unit.
      change (lit "//") with (Seq (Unit (chr "/")) (Unit (chr "/"))).
      rewrite run_Seq, run_Unit. apply (HT 0 EmptyString). reflexivity.
    - cbn [hostless].
      destruct (Ascii.eqb a "?") eqn:Q.
      { apply Ascii.eqb_eq in Q. subst a. split; [reflexivity|]. intros _.
        rewrite run_SCHEME_fails by reflexivity. rewrite run_slashes.
        cbn [Ascii.eqb Bool.eqb]. apply (HT 0 (String "?" r)). reflexivity. }
      destruct (Ascii.eqb a "/") eqn:S.
      { apply Ascii.eqb_eq in S. subst a.
        assert (E : K 0 (String "/" r) [] = None) by (apply HT; reflexivity).
        rewrite run_SCHEME_fails by reflexivity. rewrite run_slashes, E.
        rewrite Ascii.eqb_refl.
        destruct r as [|b r']; [split; reflexivity|].
        rewrite (Ascii.eqb_sym b "/").
        destruct (Ascii.eqb "/" b); [|split; reflexivity].
        destruct (atHostEnd r') eqn:A.
        - split; [reflexivity|]. intros _. now rewrite (proj2 (HT 2 r') A).
        - pose proof (proj1 (HT 2 r') A) as N.
          destruct (K 2 r' []); split; congruence. }
      assert (A : atHostEnd (String a r) = false).
      { cbn [atHostEnd slashOrQuery]. now rewrite Q, S. }
      pose proof (proj1 (HT 0 (String a r)) A) as N.
      split; [|discriminate]. intros H. exfalso.
      destruct (run (Opt (Group 1 SCHEME)) (run (lit "//") K) 0 (String a r) []);
        [discriminate|contradiction]. }
  destruct (run URL_PATTERN accept 0 s []) as [[p cs]|]; split; intros H;
    try discriminate; try reflexivity.
  - apply Y in H. discriminate.
  - now apply Y.
Qed.

(** The groups [URL_PATTERN] captures on a few inputs: scheme, host, port
    and tail. *)
Example URL_PATTERN_examples :
  captured "http://example.com:8080/a/b?c"
    = Some (Some "http:", Some "example.com", Some "8080", Some "/a/b?c")
  /\ captured "HTTPS://Example.com"
    = Some (Some "HTTPS:", Some "Example.com", None, Some "")
  /\ captured "example.com:443" = Some (None, Some "example.com", Some "443", Some "")
  /\ captured "//example.com?q" = Some (None, Some "example.com", None, Some "?q")
  /\ captured "a:1:2/x" = Some (None, Some "a:1", Some "2", Some "/x")
  /\ captured "example.com:" = Some (None, Some "example.com", Some "", Some "")
  /\ captured "example.com:999999" = Some (None, Some "example.com:999999", None, Some "")
  /\ captured "http://" = Some (None, Some "http", Some "", Some "//")
  /\ captured "http:/x" = Some (None, Some "http", Some "", Some "/x")
  /\ captured "//" = None
  /\ captured "/path" = None
  /\ captured "" = None.
Proof. repeat split; vm_compute; reflexivity. Qed.

(** The first absolute URL of a directive ends before a double quote or
    white space. *)
Example ABSOLUTE_URL_examples :
  firstAbsoluteUrl ("#EXT-X-KEY:METHOD=AES-128,URI="
                    ++ String DQUOTE ("https://k.example/key.bin"
                    ++ String DQUOTE ",IV=0x1"))
    = Some "https://k.example/key.bin"
  /\ firstAbsoluteUrl "#EXT-X-KEY:METHOD=NONE http:// https://a b" = Some "https://a"
  /\ firstAbsoluteUrl "#EXT-X-KEY:METHOD=AES-128,URI=key.bin" = None
  /\ firstAbsoluteUrl "#EXT-X-KEY:URI=HTTP://K.EXAMPLE/KEY" = None.
Proof. repeat split; vm_compute; reflexivity. Qed.

End PatternFacts.

(* ================================================================== *)
(** * Facts about the resolver *)
(* ================================================================== *)

Section ResolverFacts.
Import JsString.

Variable newURL : string -> option string -> outcome URL.

Local Abbreviation parseURL := (parseURL newURL).

Lemma truthy_false (s : string) : truthy s = false <-> s = EmptyString.
Proof. destruct s; simpl; split; congruence. Qed.

(** C7, as the code has it.  Without a base the resolver never throws,
    and it returns [null] exactly when the input does not match the
    pattern (which is when the pattern finds no character for the host);
    or no scheme was captured although the input begins with
    [http:] or [https:]; or the [URL] constructor throws on the string it
    is handed; or the URL it builds has an empty host.  Otherwise the
    resolver returns the [href] of that URL.  When no scheme was captured
    the string handed over is the input behind [//] (added unless the
    input begins with it) and [https:] when the captured port is [443],
    [http:] otherwise. *)
Theorem parseURL_without_base (req_url : string) :
  let rejected m := groupMissing 1 m && Regex.test SCHEME_PREFIX req_url in
  let handed m := if groupMissing 1 m then withAssumedScheme req_url m else req_url in
  (Regex.exec URL_PATTERN req_url = None <-> hostless req_url = true)
  /\ (parseURL req_url None = Ok None <->
     Regex.exec URL_PATTERN req_url = None
     \/ exists m,
          Regex.exec URL_PATTERN req_url = Some m
          /\ (rejected m = true
              \/ rejected m = false
                 /\ ((exists e, newURL (handed m) None = Throw e)
                     \/ exists u, newURL (handed m) None = Ok u
                                  /\ hostname u = EmptyString)))
  /\ (forall m u,
        Regex.exec URL_PATTERN req_url = Some m -> rejected m = false ->
        newURL (handed m) None = Ok u -> hostname u <> EmptyString ->
        parseURL req_url None = Ok (Some (href u)))
  /\ (forall m,
        Regex.exec URL_PATTERN req_url = Some m -> groupMissing 1 m = true ->
        handed m = (if groupIs 4 "443" m then "https:" else "http:")
                     ++ (if startsWith req_url "//" then req_url else "//" ++ req_url))
  /\ (forall e, parseURL req_url None <> Throw e).
Proof.
  cbv zeta. split; [apply URL_PATTERN_fails_iff_hostless|].
  unfold parseURL. simpl absent. cbn [negb].
  destruct (Regex.exec URL_PATTERN req_url) as [m|].
  2: { split; [split; auto|]. repeat split; discriminate. }
  assert (G3 : forall m0, Some m = Some m0 -> groupMissing 1 m0 = true ->
            (if groupMissing 1 m0 then withAssumedScheme req_url m0 else req_url)
            = (if groupIs 4 "443" m0 then "https:" else "http:")
                ++ (if startsWith req_url "//" then req_url else "//" ++ req_url)).
  { intros m0 _ G. rewrite G. reflexivity. }
  destruct (groupMissing 1 m && Regex.test SCHEME_PREFIX req_url) eqn:R.
  - split; [|split; [|split; [exact G3|discriminate]]].
    + split; [|reflexivity]. intros _. right. exists m. auto.
    + intros m0 u H Hr. injection H as <-. congruence.
  - destruct (newURL (if groupMissing 1 m then withAssumedScheme req_url m else req_url)
                     None) as [u|e] eqn:U.
    + destruct (truthy (hostname u)) eqn:T; cbn [negb].
      * split; [|split; [|split; [exact G3|discriminate]]].
        -- split; [discriminate|].
           intros [H|(m0 & H & [H'|(_ & [(e & He)|(u' & Hu & Hh)])])];
             try discriminate; injection H as <-; try congruence.
           assert (u' = u) by congruence. subst u'.
           rewrite Hh in T. discriminate.
        -- intros m0 u' H _ Hu _. injection H as <-. congruence.
      * apply truthy_false in T.
        split; [|split; [|split; [exact G3|discriminate]]].
        -- split; [|reflexivity]. intros _. right. exists m. split; [reflexivity|].
           right. split; [exact R|]. right. eauto.
        -- intros m0 u' H _ Hu N. injection H as <-.
           assert (u' = u) by congruence. subst u'. contradiction.
    + split; [|split; [|split; [exact G3|discriminate]]].
      * split; [|reflexivity]. intros _. right. exists m. split; [reflexivity|].
        right. split; [exact R|]. left. eauto.
      * intros m0 u' H _ Hu _. injection H as <-. congruence.
Qed.

End ResolverFacts.

(* ================================================================== *)
(** * Facts about the handlers *)
(* ================================================================== *)

Section HandlerFacts.
Import JsString.

Variable newURL : string -> option string -> outcome URL.
Variable JSON_parse : string -> outcome json.
Variable JSON_stringify : json -> string.
Variable fetch : string -> object -> outcome Response.
Variable toFixed : float -> nat -> string.

Local Abbreviation parseURL := (parseURL newURL).
Local Abbreviation parseHeaders := (parseHeaders JSON_parse).
Local Abbreviation rewrite := (rewrite newURL JSON_stringify).
Local Abbreviation proxyM3U8_try := (proxyM3U8_try newURL JSON_stringify fetch).
Local Abbreviation proxyM3U8 := (proxyM3U8 newURL JSON_parse JSON_stringify fetch).
Local Abbreviation m3u8Handler :=
  (m3u8Handler newURL JSON_parse JSON_stringify fetch toFixed).
Local Abbreviation tsHandler_try := (tsHandler_try fetch).
Local Abbreviation tsHandler := (tsHandler JSON_parse fetch).
Local Abbreviation getCacheStats := (getCacheStats toFixed).

Lemma absent_false (p : option string) :
  absent p = false -> exists u, p = Some u /\ truthy u = true.
Proof.
  destruct p as [u|]; simpl; [|discriminate].
  intros H. apply negb_false_iff in H. eauto.
Qed.

Lemma parseURL_with_base (line url : string) :
  truthy url = true ->
  parseURL line (Some url) =
    match newURL line (Some url) with
    | Ok u => Ok (Some (href u))
    | Throw e => Throw e
    end.
Proof. intros T. unfold parseURL. simpl. now rewrite T. Qed.

(** ** The stats endpoint *)

(** C5, as the code has it.  A request whose [event.path], which is the
    path together with the query string, is exactly [/cache-stats] is
    answered by the CORS responder when it is a preflight request, by 404
    when [DISABLE_M3U8] is [true], and otherwise by the JSON stats object
    [{entries, totalSizeMB, avgEntrySizeKB, maxSize, expiryHours}] taken
    after one [cleanupCache] pass, with [maxSize] 2000 and [expiryHours]
    2.  Under any other [event.path], [/cache-stats?x=1] and
    [/cache-stats/] among them, a request that passes the two checks is
    answered as a manifest request: 400 when it has no [url]. *)
Theorem cache_stats_answer (env : environment) (req : request) (now : Z) (cache : Cache) :
  let cache' := cleanupCache now cache in
  let stats := getCacheStats cache' in
  (path req = "/cache-stats" ->
   m3u8Handler env req now cache =
     (if preflight req then (RCors, cache, [])
      else if isM3U8Disabled env then (RError 404 "M3U8 proxying is disabled", cache, [])
      else (RSuccess [("Content-Type", "application/json");
                      ("Cache-Control", "no-cache, no-store, must-revalidate")]
                     (BStats stats),
            cache', [Cleanup]))
   /\ entries stats = Map_size cache'
   /\ maxSize stats = 2000
   /\ expiryHours stats = 2%float)
  /\ (path req <> "/cache-stats" ->
      preflight req = false -> isM3U8Disabled env = false ->
      fst (fst (m3u8Handler env req now cache)) = snd (proxyM3U8 env req)
      /\ snd (m3u8Handler env req now cache) = fst (proxyM3U8 env req)
      /\ (absent (query_url req) = true ->
          m3u8Handler env req now cache
          = (RError 400 "URL parameter is required", cache, []))).
Proof.
  cbv zeta. split.
  - intros P. split; [|repeat split].
    unfold m3u8Handler. rewrite P.
    destruct (preflight req); [reflexivity|].
    destruct (isM3U8Disabled env); reflexivity.
  - intros P F D. apply String.eqb_neq in P.
    unfold m3u8Handler. rewrite F, D, P.
    split; [|split].
    + now destruct (proxyM3U8 env req).
    + now destruct (proxyM3U8 env req).
    + intros A. unfold proxyM3U8. now rewrite A.
Qed.

(** ** A line the URL constructor rejects *)

(** C6, on the code.  When the manifest was fetched and one of its lines
    that is neither a directive nor blank makes [new URL(line, url)]
    throw, [proxyM3U8] answers 500, whichever branch rewrites the
    manifest: the line is not passed through. *)
Theorem unresolvable_line_fails_request (env : environment) (req : request)
    (url : string) (headers : json) (response : Response) (m3u8Content line : string)
    (e : exn) :
  query_url req = Some url -> truthy url = true ->
  parseHeaders (query_headers req) = Ok headers ->
  fetch url (requestHeaders headers) = Ok response -> ok response = true ->
  text response = Ok m3u8Content ->
  In line (split_nl m3u8Content) -> isSegmentLine line = true ->
  newURL line (Some url) = Throw e ->
  exists effects e',
    proxyM3U8 env req = (effects, RError 500 (messageOr e' "Error proxying M3U8 file")).
Proof.
  intros Q T H F O X HIn S N.
  assert (P : parseURL line (Some url) = Throw e)
    by (rewrite parseURL_with_base, N; auto).
  destruct (rewrite_Throw newURL JSON_stringify env url headers
              (requestProtocol req ++ "://" ++ requestHost req) _ _ _ HIn S P)
    as (w & e' & R).
  exists w, e'. unfold proxyM3U8. rewrite Q. simpl absent. rewrite T. cbn [negb].
  rewrite H. unfold proxyM3U8_try. rewrite F. simpl. rewrite O. simpl.
  rewrite X. simpl in R |- *. rewrite R. reflexivity.
Qed.

(** ** The segment endpoint and the cache *)

Lemma Map_get_delete_Some {V} (k k0 : string) (v : V) (m : Map V) :
  Map_get k0 (Map_delete k m) = Some v -> Map_get k0 m = Some v.
Proof.
  destruct (String.eqb_spec k0 k) as [->|N].
  - now rewrite Map_get_delete_same.
  - now rewrite Map_get_delete_other.
Qed.

Lemma getCachedSegment_cache (env : environment) (now : Z) (url : string) (cache : Cache) :
  snd (getCachedSegment env now url cache) = cache
  \/ exists entry,
       isCacheDisabled env = false /\ Map_get url cache = Some entry
       /\ expired now entry = true
       /\ fst (getCachedSegment env now url cache) = None
       /\ snd (getCachedSegment env now url cache) = Map_delete url cache.
Proof.
  unfold getCachedSegment, expired.
  destruct (isCacheDisabled env); [now left|].
  destruct (Map_get url cache) as [entry|]; [|now left].
  destruct (now - timestamp entry >? CACHE_EXPIRY_MS)%Z eqn:E; [|now left].
  right. exists entry. auto.
Qed.

Lemma tsHandler_try_cache (env : environment) (url : string) (headers : json) (now : Z)
    (cache : Cache) :
  snd (tsHandler_try env url headers now cache)
  = if isCacheDisabled env then cache else snd (getCachedSegment env now url cache).
Proof.
  unfold tsHandler_try.
  destruct (isCacheDisabled env); simpl.
  - destruct (fetch url (requestHeaders headers)) as [r|e]; [|reflexivity].
    destruct (ok r); simpl; [|reflexivity].
    destruct (arrayBuffer r); reflexivity.
  - destruct (getCachedSegment env now url cache) as [[segment|] c]; [reflexivity|].
    destruct (fetch url (requestHeaders headers)) as [r|e]; [|reflexivity].
    destruct (ok r); simpl; [|reflexivity].
    destruct (arrayBuffer r); reflexivity.
Qed.

(** C9, as the code has it.  The segment endpoint never stores anything:
    the cache after a request is the cache before it, or the cache before
    it without the requested key when that key's entry had expired, so
    every key the cache holds afterwards it held before with the same
    entry.  On a miss (the cache is disabled, or it holds no unexpired
    entry for the URL) with the origin answering successfully, the answer
    is the origin's body. *)
Theorem segment_request_never_stores (env : environment) (req : request) (now : Z)
    (cache : Cache) :
  let answer := fst (tsHandler env req now cache) in
  let cache' := snd (tsHandler env req now cache) in
  (cache' = cache
   \/ exists url entry,
        query_url req = Some url /\ Map_get url cache = Some entry
        /\ expired now entry = true /\ cache' = Map_delete url cache)
  /\ (forall k v, Map_get k cache' = Some v -> Map_get k cache = Some v)
  /\ (forall url headers response bytes,
        preflight req = false -> isM3U8Disabled env = false ->
        query_url req = Some url -> truthy url = true ->
        parseHeaders (query_headers req) = Ok headers ->
        (isCacheDisabled env = true
         \/ forall entry, Map_get url cache = Some entry -> expired now entry = true) ->
        fetch url (requestHeaders headers) = Ok response -> ok response = true ->
        arrayBuffer response = Ok bytes ->
        answer = RSuccess (SEGMENT_HEADERS "video/mp2t") (BBytes bytes)).
Proof.
  cbv zeta.
  assert (A : snd (tsHandler env req now cache) = cache
              \/ exists url entry,
                   query_url req = Some url /\ Map_get url cache = Some entry
                   /\ expired now entry = true
                   /\ snd (tsHandler env req now cache) = Map_delete url cache).
  { unfold tsHandler.
    destruct (preflight req); [now left|].
    destruct (isM3U8Disabled env); [now left|].
    destruct (absent (query_url req)) eqn:Q; [now left|].
    apply absent_false in Q as (url & -> & T).
    destruct (parseHeaders (query_headers req)) as [headers|e]; [|now left].
    rewrite tsHandler_try_cache.
    destruct (isCacheDisabled env) eqn:D; [now left|].
    destruct (getCachedSegment_cache env now url cache)
      as [E|(entry & _ & G & X & _ & E)]; [now left|].
    right. exists url, entry. auto. }
  split; [exact A|]. split.
  - intros k v. destruct A as [->|(url & entry & _ & _ & _ & ->)]; [auto|].
    apply Map_get_delete_Some.
  - intros url headers response bytes P D Q T H M F O B.
    unfold tsHandler. rewrite P, D, Q. simpl absent. rewrite T. cbn [negb].
    rewrite H. unfold tsHandler_try.
    assert (G : (if negb (isCacheDisabled env) then getCachedSegment env now url cache
                 else (None, cache))
                = (None, snd (if negb (isCacheDisabled env)
                              then getCachedSegment env now url cache else (None, cache)))).
    { destruct (isCacheDisabled env) eqn:C; [reflexivity|]. simpl.
      destruct M as [M|M]; [discriminate|].
      unfold getCachedSegment. rewrite C.
      destruct (Map_get url cache) as [entry|]; [|reflexivity].
      specialize (M entry eq_refl). unfold expired in M. now rewrite M. }
    rewrite G, F. simpl. rewrite O. simpl. rewrite B. reflexivity.
Qed.

(** ** The [headers] parameter *)

Lemma setProperty_keeps (k k' : string) (v : json) (o : object) :
  Map_get k o <> None -> Map_get k (setProperty k' v o) <> None.
Proof.
  induction o as [|[k0 v0] o IH]; simpl; [congruence|].
  destruct (String.eqb k' k0) eqn:E; simpl.
  - apply String.eqb_eq in E. subst k0.
    destruct (String.eqb k k'); congruence.
  - destruct (String.eqb k k0); auto.
Qed.

Lemma setProperty_sets (k : string) (v : json) (o : object) :
  Map_get k (setProperty k v o) = Some v.
Proof.
  induction o as [|[k0 v0] o IH]; simpl.
  - now rewrite String.eqb_refl.
  - destruct (String.eqb k k0) eqn:E; simpl.
    + now rewrite String.eqb_refl.
    + now rewrite E.
Qed.

Lemma spread_keeps (k : string) (entries o : object) :
  Map_get k o <> None ->
  Map_get k (fold_left (fun o kv => setProperty (fst kv) (snd kv) o) entries o) <> None.
Proof.
  revert o. induction entries as [|kv entries IH]; intros o H; simpl; [exact H|].
  apply IH. now apply setProperty_keeps.
Qed.






End HandlerFacts.

(* ================================================================== *)
(** * The cache over the life of the process *)
(* ================================================================== *)

Section ProcessFacts.

Variable newURL : string -> option string -> outcome URL.
Variable JSON_parse : string -> outcome json.
Variable JSON_stringify : json -> string.
Variable fetch : string -> object -> outcome Response.
Variable toFixed : float -> nat -> string.

Local Abbreviation m3u8Handler :=
  (m3u8Handler newURL JSON_parse JSON_stringify fetch toFixed).
Local Abbreviation tsHandler := (tsHandler JSON_parse fetch).
Local Abbreviation reachable :=
  (reachable newURL JSON_parse JSON_stringify fetch toFixed).

Lemma well_formed_settled (env : environment) (now : Z) (effects : list effect)
    (cache : Cache) :
  well_formed cache -> well_formed (fold_left (settle env now) effects cache).
Proof.
  revert cache. induction effects as [|e effects IH]; intros cache W; simpl; [exact W|].
  apply IH. now apply well_formed_settle.
Qed.

Lemma well_formed_m3u8Handler (env : environment) (req : request) (now : Z)
    (cache : Cache) :
  well_formed cache -> well_formed (snd (fst (m3u8Handler env req now cache))).
Proof.
  intros W. unfold m3u8Handler.
  destruct (preflight req); [exact W|].
  destruct (isM3U8Disabled env); [exact W|].
  destruct (String.eqb (path req) "/cache-stats").
  - simpl. now apply well_formed_cleanupCache.
  - destruct (proxyM3U8 newURL JSON_parse JSON_stringify fetch env req) as [effects answer].
    simpl. now apply well_formed_settled.
Qed.

Lemma tsHandler_cache (env : environment) (req : request) (now : Z) (cache : Cache) :
  snd (tsHandler env req now cache) = cache
  \/ exists url, snd (tsHandler env req now cache) = snd (getCachedSegment env now url cache).
Proof.
  unfold tsHandler.
  destruct (preflight req); [now left|].
  destruct (isM3U8Disabled env); [now left|].
  destruct (absent (query_url req)); [now left|].
  destruct (parseHeaders JSON_parse (query_headers req)) as [headers|e]; [|now left].
  rewrite tsHandler_try_cache.
  destruct (isCacheDisabled env); [now left|]. right. eauto.
Qed.

Lemma well_formed_tsHandler (env : environment) (req : request) (now : Z)
    (cache : Cache) :
  well_formed cache -> well_formed (snd (tsHandler env req now cache)).
Proof.
  intros W. destruct (tsHandler_cache env req now cache) as [->|[url ->]]; [exact W|].
  now apply well_formed_getCachedSegment.
Qed.

Lemma cleanupCache_empty (now : Z) : cleanupCache now [] = [].
Proof. reflexivity. Qed.

Lemma settle_disabled (env : environment) (now : Z) (e : effect) :
  isCacheDisabled env = true -> settle env now [] e = [].
Proof.
  intros D. destruct e as [u h| |us h]; simpl.
  - unfold prefetchSegment_begin. now rewrite D.
  - apply cleanupCache_empty.
  - induction us as [|u us IH]; simpl; [reflexivity|].
    unfold prefetchSegment_begin at 2. rewrite D. exact IH.
Qed.

Lemma settled_disabled (env : environment) (now : Z) (effects : list effect) :
  isCacheDisabled env = true -> fold_left (settle env now) effects [] = [].
Proof.
  intros D. induction effects as [|e effects IH]; simpl; [reflexivity|].
  now rewrite settle_disabled.
Qed.

Lemma reachable_enabled (env : environment) (cache : Cache) (url : string)
    (entry : CacheEntry) :
  reachable env cache -> Map_get url cache = Some entry -> isCacheDisabled env = false.
Proof.
  intros R G. destruct (isCacheDisabled env) eqn:D; [|reflexivity]. exfalso.
  assert (E : cache = []); [|now rewrite E in G].
  clear G. induction R as [|now cache R E|req now cache R E|req now cache R E
                          |began before after u headers init now fetched cache B R E].
  - reflexivity.
  - rewrite E. apply cleanupCache_empty.
  - rewrite E. unfold m3u8Handler.
    destruct (preflight req); [reflexivity|].
    destruct (isM3U8Disabled env); [reflexivity|].
    destruct (String.eqb (path req) "/cache-stats"); [reflexivity|].
    destruct (proxyM3U8 newURL JSON_parse JSON_stringify fetch env req)
      as [effects answer].
    simpl. now apply settled_disabled.
  - rewrite E.
    destruct (tsHandler_cache env req now []) as [->|[u ->]]; [reflexivity|].
    unfold getCachedSegment. now rewrite D.
  - unfold prefetchSegment_begin in B. rewrite D in B. discriminate.
Qed.

(** Under an environment that stays as it is, the keys of every cache the
    process can hold are distinct, as the keys of a [Map] are; and while
    [DISABLE_CACHE] is [true] the cache holds nothing: no prefetch stores
    anything, so a stored entry is only ever looked up while the cache is
    enabled. *)
Theorem cache_of_a_process (env : environment) (cache : Cache) :
  reachable env cache ->
  well_formed cache
  /\ (isCacheDisabled env = true -> cache = [])
  /\ (forall url entry, Map_get url cache = Some entry -> isCacheDisabled env = false).
Proof.
  intros R.
  assert (A : well_formed cache /\ (isCacheDisabled env = true -> cache = [])).
  { induction R as [|now cache R [W E]|req now cache R [W E]|req now cache R [W E]
                   |began before after url headers init now fetched cache B R [W E]].
    - split; [constructor|reflexivity].
    - split; [now apply well_formed_cleanupCache|].
      intros D. rewrite (E D). apply cleanupCache_empty.
    - split; [now apply well_formed_m3u8Handler|].
      intros D. rewrite (E D). unfold m3u8Handler.
      destruct (preflight req); [reflexivity|].
      destruct (isM3U8Disabled env); [reflexivity|].
      destruct (String.eqb (path req) "/cache-stats"); [reflexivity|].
      destruct (proxyM3U8 newURL JSON_parse JSON_stringify fetch env req)
        as [effects answer].
      simpl. now apply settled_disabled.
    - split; [now apply well_formed_tsHandler|].
      intros D. rewrite (E D).
      destruct (tsHandler_cache env req now []) as [->|[url ->]]; [reflexivity|].
      unfold getCachedSegment. now rewrite D.
    - split; [now apply well_formed_prefetchSegment_resume|].
      intros D. unfold prefetchSegment_begin in B. rewrite D in B. discriminate. }
  destruct A as [W E]. split; [exact W|]. split; [exact E|].
  intros url entry G. destruct (isCacheDisabled env) eqn:D; [|reflexivity].
  rewrite (E eq_refl) in G. discriminate.
Qed.

(** C4.  On every cache the process can hold while its environment stays
    as it is, a lookup of a stored key hands the entry back and leaves
    the cache alone when the entry's age [now - timestamp] is at most
    [CACHE_EXPIRY_MS]; when the age is larger the lookup is a miss and
    the entry is deleted, every other key staying as it was; and a key
    that is not stored is a miss.  In particular an entry a prefetch
    stores at [t0] is handed back at every [now <= t0 + CACHE_EXPIRY_MS]
    and is a miss, and gone, at every later [now]. *)
Theorem getCachedSegment_lazy_expiry (env : environment) (now : Z) (url : string)
    (cache : Cache) :
  reachable env cache ->
  (forall entry, Map_get url cache = Some entry ->
     ((now - timestamp entry <= CACHE_EXPIRY_MS)%Z ->
        getCachedSegment env now url cache = (Some entry, cache))
     /\ ((now - timestamp entry > CACHE_EXPIRY_MS)%Z ->
        getCachedSegment env now url cache = (None, Map_delete url cache)
        /\ Map_get url (Map_delete url cache) = None
        /\ forall k, k <> url -> Map_get k (Map_delete url cache) = Map_get k cache))
  /\ (Map_get url cache = None -> getCachedSegment env now url cache = (None, cache))
  /\ (forall began before after headers init response bytes t0,
        prefetchSegment_begin env began url headers before
          = (after, AwaitingFetch url init) ->
        ok response = true -> arrayBuffer response = Ok bytes ->
        let inserted := MkEntry bytes (response_headers response) t0 in
        let stored := prefetchSegment_resume t0 url (Ok response) cache in
        reachable env stored
        /\ Map_get url stored = Some inserted
        /\ ((now <= t0 + CACHE_EXPIRY_MS)%Z ->
            getCachedSegment env now url stored = (Some inserted, stored))
        /\ ((now > t0 + CACHE_EXPIRY_MS)%Z ->
            fst (getCachedSegment env now url stored) = None
            /\ Map_get url (snd (getCachedSegment env now url stored)) = None)).
Proof.
  intros R.
  assert (A : forall c entry, reachable env c -> Map_get url c = Some entry ->
            ((now - timestamp entry <= CACHE_EXPIRY_MS)%Z ->
               getCachedSegment env now url c = (Some entry, c))
            /\ ((now - timestamp entry > CACHE_EXPIRY_MS)%Z ->
               getCachedSegment env now url c = (None, Map_delete url c))).
  { intros c entry Rc G. unfold getCachedSegment.
    rewrite (reachable_enabled env c url entry Rc G), G.
    destruct (Z.gtb_spec (now - timestamp entry) CACHE_EXPIRY_MS) as [X|X]; split;
      intros Y; (reflexivity || lia). }
  split; [|split].
  - intros entry G. destruct (A cache entry R G) as [A1 A2]. split; [exact A1|].
    intros H. split; [exact (A2 H)|]. split.
    + apply Map_get_delete_same.
    + intros k N. now apply Map_get_delete_other.
  - intros G. unfold getCachedSegment. rewrite G. now destruct (isCacheDisabled env).
  - intros began before after headers init response bytes t0 B O Bb. cbv zeta.
    assert (Rs : reachable env (prefetchSegment_resume t0 url (Ok response) cache))
      by (eapply reach_prefetched; eassumption).
    assert (E : prefetchSegment_resume t0 url (Ok response) cache
                = Map_set url (MkEntry bytes (response_headers response) t0) cache).
    { unfold prefetchSegment_resume. now rewrite O, Bb. }
    assert (G : Map_get url (prefetchSegment_resume t0 url (Ok response) cache)
                = Some (MkEntry bytes (response_headers response) t0))
      by (rewrite E; apply Map_get_set_same).
    split; [exact Rs|]. split; [exact G|].
    destruct (A _ _ Rs G) as [A1 A2]. cbn [timestamp] in A1, A2. split.
    + intros H. apply A1. lia.
    + intros H. rewrite A2 by lia. cbn [fst snd]. split; [reflexivity|].
      apply Map_get_delete_same.
Qed.

End ProcessFacts.

(* ================================================================== *)
(** * What a match consumes, and the directive whose URL is replaced *)
(* ================================================================== *)

Section MatcherFacts.
Import JsString JsStringFacts Regex.

Lemma append_assoc (a b c : string) : (a ++ b) ++ c = a ++ b ++ c.
Proof. induction a as [|x a IH]; simpl; [reflexivity|]. now rewrite IH. Qed.

Lemma append_inv_head (a b c : string) : a ++ b = a ++ c -> b = c.
Proof. induction a as [|x a IH]; simpl; [auto|]. intros H. injection H as H. auto. Qed.

Lemma substring_drop (n : nat) (s : string) : s = String.substring 0 n s ++ drop n s.
Proof.
  revert s. induction n as [|n IH]; intros [|a s]; simpl; try reflexivity.
  now rewrite <- IH.
Qed.

Lemma drop_drop (n m : nat) (s : string) : drop m (drop n s) = drop (n + m) s.
Proof.
  revert s. induction n as [|n IH]; intros s; simpl; [reflexivity|].
  destruct s as [|a s]; [now destruct m|]. apply IH.
Qed.

Lemma length_drop (n : nat) (s : string) :
  String.length (drop n s) = String.length s - n.
Proof.
  revert s. induction n as [|n IH]; intros [|a s]; simpl; try reflexivity.
  apply IH.
Qed.

(** A successful run hands its continuation the input behind the units it
    consumed. *)
Lemma run_consumes (r : regex) :
  forall k pos rest cs res,
    run r k pos rest cs = Some res ->
    exists n cs', n <= String.length rest /\ k (pos + n) (drop n rest) cs' = Some res.
Proof.
  induction r as [| | |c|a IHa b IHb|a IHa b IHb|a IHa|c|c|m c|i a IHa|a IHa];
    intros k pos rest cs res H.
  - exists 0, cs. rewrite Nat.add_0_r. split; [lia|exact H].
  - rewrite run_Bol in H. destruct (Nat.eqb pos 0); [|discriminate].
    exists 0, cs. rewrite Nat.add_0_r. split; [lia|exact H].
  - rewrite run_Eol in H. destruct rest; [|discriminate].
    exists 0, cs. rewrite Nat.add_0_r. split; [lia|exact H].
  - rewrite run_Unit in H. destruct rest as [|x rest']; [discriminate|].
    destruct (c (String x rest')); [|discriminate].
    exists 1, cs. rewrite Nat.add_1_r. split; [simpl; lia|exact H].
  - rewrite run_Seq in H.
    destruct (IHa _ _ _ _ _ H) as (n1 & cs1 & L1 & H1).
    destruct (IHb _ _ _ _ _ H1) as (n2 & cs2 & L2 & H2).
    exists (n1 + n2), cs2. rewrite length_drop in L2. rewrite drop_drop in H2.
    rewrite Nat.add_assoc. split; [lia|exact H2].
  - rewrite run_Alt in H. destruct (run a k pos rest cs) as [res'|] eqn:E.
    + injection H as <-. exact (IHa _ _ _ _ _ E).
    + exact (IHb _ _ _ _ _ H).
  - rewrite run_Opt in H. destruct (run a k pos rest cs) as [res'|] eqn:E.
    + injection H as <-. exact (IHa _ _ _ _ _ E).
    + exists 0, cs. rewrite Nat.add_0_r. split; [lia|exact H].
  - revert pos H. induction rest as [|x rest' IH]; intros pos H; rewrite run_Star in H.
    + exists 0, cs. rewrite Nat.add_0_r. split; [lia|exact H].
    + destruct (c (String x rest')).
      * destruct (run (Star c) k (S pos) rest' cs) as [res'|] eqn:E.
        -- injection H as <-. destruct (IH _ E) as (n & cs' & L & H').
           exists (S n), cs'. rewrite Nat.add_succ_r. split; [simpl; lia|exact H'].
        -- exists 0, cs. rewrite Nat.add_0_r. split; [lia|exact H].
      * exists 0, cs. rewrite Nat.add_0_r. split; [lia|exact H].
  - revert pos H. induction rest as [|x rest' IH]; intros pos H; rewrite run_StarLazy in H.
    + destruct (k pos EmptyString cs) as [res'|] eqn:E; [|discriminate].
      injection H as <-. exists 0, cs. rewrite Nat.add_0_r. split; [lia|exact E].
    + destruct (k pos (String x rest') cs) as [res'|] eqn:E.
      * injection H as <-. exists 0, cs. rewrite Nat.add_0_r. split; [lia|exact E].
      * destruct (c (String x rest')); [|discriminate].
        destruct (IH _ H) as (n & cs' & L & H').
        exists (S n), cs'. rewrite Nat.add_succ_r. split; [simpl; lia|exact H'].
  - revert pos rest H. induction m as [|m IH]; intros pos rest H.
    + exists 0, cs. rewrite Nat.add_0_r. split; [lia|]. destruct rest; exact H.
    + destruct rest as [|x rest'].
      * exists 0, cs. rewrite Nat.add_0_r. split; [lia|exact H].
      * simpl in H. destruct (c (String x rest')).
        -- match type of H with
           | match ?t with _ => _ end = _ => destruct t as [res'|] eqn:E
           end.
           ++ injection H as <-. destruct (IH _ _ E) as (n & cs' & L & H').
              exists (S n), cs'. rewrite Nat.add_succ_r. split; [simpl; lia|exact H'].
           ++ exists 0, cs. rewrite Nat.add_0_r. split; [lia|exact H].
        -- exists 0, cs. rewrite Nat.add_0_r. split; [lia|exact H].
  - rewrite run_Group in H.
    destruct (IHa _ _ _ _ _ H) as (n & cs' & L & H'). eauto.
  - simpl in H.
    destruct (run a (fun p _ cs' => Some (p, cs')) pos rest cs) as [[p cs']|]; [|discriminate].
    exists 0, cs'. rewrite Nat.add_0_r. split; [lia|exact H].
Qed.

(** The text of a match stands in the input. *)
Lemma matchAt_matched (r : regex) (pos : nat) (rest : string) (m : match_result) :
  matchAt r pos rest = Some m ->
  exists n, n <= String.length rest /\ matched m = String.substring 0 n rest
            /\ run r (fun p _ cs => Some (p, cs)) pos rest [] = Some (pos + n, groups m).
Proof.
  unfold matchAt. intros H.
  destruct (run r (fun p _ cs => Some (p, cs)) pos rest []) as [[p cs]|] eqn:E;
    [|discriminate].
  injection H as <-.
  destruct (run_consumes _ _ _ _ _ _ E) as (n & cs' & L & H).
  injection H as <- <-. exists n. simpl.
  replace (pos + n - pos) with n by lia. auto.
Qed.

Lemma search_matched (r : regex) (rest : string) :
  forall pos m, search r pos rest = Some m ->
                exists pre post, rest = pre ++ matched m ++ post.
Proof.
  induction rest as [|x rest' IH]; intros pos m H; simpl in H.
  - destruct (matchAt r pos EmptyString) as [m'|] eqn:E; [|discriminate].
    injection H as <-. destruct (matchAt_matched _ _ _ _ E) as (n & _ & -> & _).
    exists EmptyString, (drop n EmptyString). apply substring_drop.
  - destruct (matchAt r pos (String x rest')) as [m'|] eqn:E.
    + injection H as <-. destruct (matchAt_matched _ _ _ _ E) as (n & _ & -> & _).
      exists EmptyString, (drop n (String x rest')). apply substring_drop.
    + destruct (IH _ _ H) as (pre & post & ->).
      exists (String x pre), post. reflexivity.
Qed.

Ltac chr_step R :=
  rewrite ?run_Seq in R; rewrite run_Unit in R;
  match type of R with
  | match ?s with _ => _ end = _ => destruct s as [|? ?]; [discriminate|]
  end;
  match type of R with
  | (if chr ?a (String ?x ?r) then _ else _) = _ =>
      change (chr a (String x r)) with (Ascii.eqb a x) in R;
      destruct (Ascii.eqb_spec a x) as [<-|]; [|discriminate]
  end.

Lemma ABSOLUTE_URL_tail (scheme : string) (pos pos' n : nat) (rest' : string)
    (cs : captures) :
  pos' = pos + String.length scheme ->
  run (Seq (lit "://") (Plus notQuoteOrSpace)) (fun p _ cs => Some (p, cs)) pos' rest' []
  = Some (pos + n, cs) ->
  exists body after,
    truthy body = true
    /\ String.substring 0 n (scheme ++ rest') = (scheme ++ "://") ++ body
    /\ scheme ++ rest' = (scheme ++ "://") ++ body ++ after.
Proof.
  intros P H.
  change (lit "://") with (Seq (Unit (chr ":")) (Seq (Unit (chr "/")) (Unit (chr "/")))) in H.
  rewrite !run_Seq in H. chr_step H. chr_step H. chr_step H.
  unfold Plus in H. rewrite ?run_Seq in H. rewrite run_Unit in H.
  match type of H with
  | match ?s with _ => _ end = _ => destruct s as [|x r4]; [discriminate|]
  end.
  destruct (notQuoteOrSpace (String x r4)); [|discriminate].
  destruct (run_consumes _ _ _ _ _ _ H) as (j & cs' & Lj & A).
  injection A as A _.
  assert (N : n = String.length scheme + 3 + S j) by lia.
  exists (String x (String.substring 0 j r4)), (drop j r4).
  split; [reflexivity|]. split.
  - rewrite N. clear.
    induction scheme as [|c scheme IH]; simpl; [reflexivity|].
    f_equal. exact IH.
  - rewrite append_assoc. f_equal. simpl. do 4 f_equal. apply substring_drop.
Qed.

(** What [ABSOLUTE_URL] matches begins with [http://] or [https://] and
    goes on for at least one more unit. *)
Lemma ABSOLUTE_URL_matched (pos : nat) (rest : string) (m : match_result) :
  matchAt ABSOLUTE_URL pos rest = Some m ->
  exists scheme body after,
    (scheme = "http://" \/ scheme = "https://")
    /\ truthy body = true
    /\ matched m = scheme ++ body
    /\ rest = scheme ++ body ++ after.
Proof.
  intros H. destruct (matchAt_matched _ _ _ _ H) as (n & L & M & R). clear H L.
  rewrite M. clear M. revert R. generalize (groups m). intros cs R.
  unfold ABSOLUTE_URL in R.
  change (lit "http")
    with (Seq (Unit (chr "h")) (Seq (Unit (chr "t")) (Seq (Unit (chr "t")) (Unit (chr "p")))))
    in R.
  rewrite !run_Seq in R. chr_step R. chr_step R. chr_step R. chr_step R.
  rewrite ?run_Seq in R. rewrite run_Opt in R.
  match type of R with
  | match ?t with _ => _ end = _ => destruct t as [res|] eqn:S5
  end.
  - injection R as ->. chr_step S5.
    destruct (ABSOLUTE_URL_tail "https" pos (5 + pos) n _ cs ltac:(simpl; lia) S5)
      as (body & after & B & Mm & Er).
    exists "https://", body, after. auto.
  - destruct (ABSOLUTE_URL_tail "http" pos (4 + pos) n _ cs ltac:(simpl; lia) R)
      as (body & after & B & Mm & Er).
    exists "http://", body, after. auto.
Qed.

Lemma search_eq (r : regex) (pos : nat) (rest : string) :
  search r pos rest =
    match matchAt r pos rest with
    | Some m => Some m
    | None =>
        match rest with
        | String _ rest' => search r (S pos) rest'
        | EmptyString => None
        end
    end.
Proof. destruct rest; reflexivity. Qed.

Lemma search_matchAt (r : regex) (rest : string) :
  forall pos m, search r pos rest = Some m ->
                exists pos' rest', matchAt r pos' rest' = Some m.
Proof.
  induction rest as [|x rest' IH]; intros pos m H; rewrite search_eq in H.
  - destruct (matchAt r pos EmptyString) as [m'|] eqn:E; [|discriminate].
    injection H as <-. eauto.
  - destruct (matchAt r pos (String x rest')) as [m'|] eqn:E.
    + injection H as <-. eauto.
    + exact (IH _ _ H).
Qed.

Lemma firstAbsoluteUrl_Some (line keyUrl : string) :
  firstAbsoluteUrl line = Some keyUrl ->
  truthy keyUrl = true
  /\ (startsWith keyUrl "http://" = true \/ startsWith keyUrl "https://" = true)
  /\ exists pre post, line = pre ++ keyUrl ++ post.
Proof.
  unfold firstAbsoluteUrl, exec. intros H.
  destruct (search ABSOLUTE_URL 0 line) as [m|] eqn:E; [|discriminate].
  injection H as <-.
  destruct (search_matchAt _ _ _ _ E) as (pos' & rest' & A).
  destruct (ABSOLUTE_URL_matched _ _ _ A) as (s & b & a & S & _ & M & _).
  split; [|split].
  - rewrite M. destruct S as [->| ->]; reflexivity.
  - rewrite M. destruct S as [->| ->]; [left|right]; reflexivity.
  - exact (search_matched _ _ _ _ E).
Qed.

(** ** [replace] at the first occurrence *)

Lemma cut_finds (needle : string) (pre post : string) :
  exists pre' post', cut (pre ++ needle ++ post) needle = Some (pre', post').
Proof.
  induction pre as [|c pre IH].
  - simpl. destruct (needle ++ post) eqn:E.
    + assert (S : startsWith EmptyString needle = true)
        by (apply startsWith_iff; exists post; now rewrite E).
      simpl. rewrite S. eauto.
    + assert (S : startsWith (String a s) needle = true)
        by (apply startsWith_iff; exists post; now rewrite E).
      simpl. rewrite S. eauto.
  - destruct IH as (pre' & post' & IH). simpl.
    destruct (startsWith (String c (pre ++ needle ++ post)) needle); [eauto|].
    rewrite IH. eauto.
Qed.

Lemma includes_cons (c : ascii) (s needle : string) :
  includes (String c s) needle = false -> includes s needle = false.
Proof. simpl. destruct (startsWith (String c s) needle); [discriminate|auto]. Qed.

Lemma includes_app_unit (a b : string) (c : ascii) :
  includes (a ++ b) (String c EmptyString)
  = includes a (String c EmptyString) || includes b (String c EmptyString).
Proof.
  induction a as [|x a IH]; simpl.
  - reflexivity.
  - destruct (Ascii.eqb c x); simpl; [reflexivity|]. exact IH.
Qed.

(** A replacement text without a dollar sign is inserted as it is. *)
Lemma getSubstitution_plain (matched pre post template : string) :
  includes template "$" = false ->
  getSubstitution matched pre post template = template.
Proof.
  induction template as [|a r IH]; intros H; [reflexivity|].
  assert (Hr : includes r "$" = false) by exact (includes_cons _ _ _ H).
  destruct (Ascii.eqb_spec a "$") as [->|N]; [discriminate H|].
  cbn [getSubstitution]. apply Ascii.eqb_neq in N. rewrite N.
  now rewrite (IH Hr).
Qed.

Lemma replace_in_place (s pattern replacement : string) :
  (exists pre post, s = pre ++ pattern ++ post) ->
  includes replacement "$" = false ->
  exists pre post,
    s = pre ++ pattern ++ post /\ replace s pattern replacement = pre ++ replacement ++ post.
Proof.
  intros (pre0 & post0 & ->) D.
  destruct (cut_finds pattern pre0 post0) as (pre & post & C).
  exists pre, post. split; [exact (cut_Some _ _ _ _ C)|].
  unfold replace. rewrite C. now rewrite getSubstitution_plain.
Qed.

Lemma encodeURIComponent_units (s : string) (c : ascii) :
  unreserved c = false -> c <> "%"%char ->
  includes (encodeURIComponent s) (String c EmptyString) = false.
Proof.
  intros U P. induction s as [|a r IH]; [reflexivity|].
  assert (Hx : forall d, (d < 16)%N -> Ascii.eqb c (hexDigit d) = false).
  { intros d Hd. destruct (Ascii.eqb_spec c (hexDigit d)) as [->|]; [|reflexivity].
    exfalso. revert U. clear -Hd.
    assert (D : In d (List.map N.of_nat (seq 0 16))).
    { apply in_map_iff. exists (N.to_nat d). split; [lia|]. apply in_seq. lia. }
    simpl in D.
    repeat (destruct D as [<-|D]; [vm_compute; discriminate|]). contradiction. }
  simpl. destruct (unreserved a) eqn:Ua.
  - simpl. destruct (Ascii.eqb_spec c a) as [->|]; [congruence|exact IH].
  - simpl. destruct (Ascii.eqb_spec c "%") as [->|]; [congruence|]. simpl.
    rewrite Hx by (apply N.Div0.div_lt_upper_bound; destruct a as [[] [] [] [] [] [] [] []]; vm_compute; reflexivity).
    simpl. rewrite Hx by (apply N.mod_lt; discriminate). simpl. exact IH.
Qed.

End MatcherFacts.

Section DirectiveFacts.
Import JsString JsStringFacts.

Variable newURL : string -> option string -> outcome URL.
Variable JSON_stringify : json -> string.
Variable env : environment.
Variable url : string.
Variable headers : json.
Variable baseProxyUrl : string.

Local Abbreviation proxyUrl := (proxyUrl JSON_stringify).
Local Abbreviation mediaLine := (mediaLine newURL JSON_stringify env url headers baseProxyUrl).
Local Abbreviation masterLine := (masterLine newURL JSON_stringify url headers baseProxyUrl).

Lemma proxyUrl_plain (endpoint target : string) :
  includes baseProxyUrl "$" = false -> includes endpoint "$" = false ->
  includes (proxyUrl baseProxyUrl endpoint target headers) "$" = false.
Proof.
  intros B E. unfold proxyUrl.
  rewrite !includes_app_unit, B, E.
  rewrite !encodeURIComponent_units by (reflexivity || discriminate).
  reflexivity.
Qed.

(** The URL of a key or media directive is replaced where it stands.
    When the pattern finds [target] in a directive and the proxy's own
    address holds no dollar sign, [target] begins with [http://] or
    [https://], and the directive is [pre ++ target ++ post] where [pre]
    holds no earlier occurrence of [target]; a key directive is rewritten
    to [pre], the [/ts-proxy] URL of [target] and [post], by the master
    loop and by the media loop, which also hands [target] to the
    prefetcher while the cache is enabled; a media directive is
    rewritten by the master loop to [pre], the [/m3u8-proxy] URL of
    [target] and [post]. *)
Theorem directive_url_replaced_in_place (line target : string) :
  firstAbsoluteUrl line = Some target ->
  includes baseProxyUrl "$" = false ->
  exists pre post,
    line = pre ++ target ++ post
    /\ cut line target = Some (pre, post)
    /\ (startsWith target "http://" = true \/ startsWith target "https://" = true)
    /\ (startsWith line "#EXT-X-KEY:" = true ->
        let newLine := pre ++ proxyUrl baseProxyUrl "/ts-proxy" target headers ++ post in
        masterLine line = ([], Ok newLine)
        /\ mediaLine line
           = (if isCacheDisabled env then [] else [Prefetch target headers],
              Ok (newLine, [])))
    /\ (startsWith line "#EXT-X-MEDIA:" = true ->
        masterLine line
        = ([], Ok (pre ++ proxyUrl baseProxyUrl "/m3u8-proxy" target headers ++ post))).
Proof.
  intros F B.
  destruct (firstAbsoluteUrl_Some _ _ F) as (T & S & pre0 & post0 & E).
  destruct (cut_finds target pre0 post0) as (pre & post & C). rewrite <- E in C.
  pose proof (cut_Some _ _ _ _ C) as E'.
  assert (R : forall endpoint, includes endpoint "$" = false ->
            replace line target (proxyUrl baseProxyUrl endpoint target headers)
            = pre ++ proxyUrl baseProxyUrl endpoint target headers ++ post).
  { intros endpoint D. unfold replace. rewrite C.
    now rewrite getSubstitution_plain by (now apply proxyUrl_plain). }
  exists pre, post. split; [exact E'|]. split; [exact C|]. split; [exact S|]. split.
  - intros K. cbv zeta. split.
    + unfold masterLine.
      rewrite (startsWith_key_directive _ K), K, F, T, R by reflexivity. reflexivity.
    + unfold mediaLine.
      rewrite (startsWith_key_directive _ K), K, F, T, R by reflexivity.
      destruct (isCacheDisabled env); reflexivity.
  - intros Md. unfold masterLine.
    assert (K : startsWith line "#EXT-X-KEY:" = false).
    { apply startsWith_iff in Md as (r & ->). reflexivity. }
    rewrite (startsWith_media_directive _ Md), K, Md, F, T, R by reflexivity. reflexivity.
Qed.

End DirectiveFacts.

(* ================================================================== *)
(** * The proxy URL carries its target unambiguously *)
(* ================================================================== *)

Section ProxyUrlFacts.
Import JsString JsStringFacts.

Variable JSON_stringify : json -> string.

Local Abbreviation proxyUrl := (proxyUrl JSON_stringify).

Lemma hexDigit_inj (d d' : N) :
  (d < 16)%N -> (d' < 16)%N -> hexDigit d = hexDigit d' -> d = d'.
Proof.
  assert (C : forall x, (x < 16)%N ->
            N_of_ascii (hexDigit x) = if (x <? 10)%N then (48 + x)%N else (55 + x)%N).
  { intros x Hx.
    assert (D : In x (List.map N.of_nat (seq 0 16))).
    { apply in_map_iff. exists (N.to_nat x). split; [lia|]. apply in_seq. lia. }
    simpl in D. repeat (destruct D as [<-|D]; [reflexivity|]). contradiction. }
  intros Hd Hd' H. apply (f_equal N_of_ascii) in H. rewrite !C in H by assumption.
  destruct (N.ltb_spec d 10), (N.ltb_spec d' 10); lia.
Qed.

Lemma N_of_ascii_bound (a : ascii) : (N_of_ascii a < 256)%N.
Proof. destruct a as [[] [] [] [] [] [] [] []]; reflexivity. Qed.

Lemma escape_inj (a b : ascii) :
  hexDigit (N_of_ascii a / 16) = hexDigit (N_of_ascii b / 16) ->
  hexDigit (N_of_ascii a mod 16) = hexDigit (N_of_ascii b mod 16) ->
  a = b.
Proof.
  intros H1 H2.
  pose proof (N_of_ascii_bound a) as Ba. pose proof (N_of_ascii_bound b) as Bb.
  apply hexDigit_inj in H1; [|apply N.Div0.div_lt_upper_bound; assumption..].
  apply hexDigit_inj in H2; [|apply N.mod_lt; discriminate..].
  rewrite <- (ascii_N_embedding a), <- (ascii_N_embedding b). f_equal.
  rewrite (N.div_mod (N_of_ascii a) 16), (N.div_mod (N_of_ascii b) 16) by discriminate.
  now rewrite H1, H2.
Qed.

Lemma encodeURIComponent_inj (s t : string) :
  encodeURIComponent s = encodeURIComponent t -> s = t.
Proof.
  revert t. induction s as [|a s IH]; intros [|b t] H; simpl in H.
  - reflexivity.
  - destruct (unreserved b); discriminate.
  - destruct (unreserved a); discriminate.
  - destruct (unreserved a) eqn:Ua, (unreserved b) eqn:Ub.
    + injection H as -> H. f_equal. auto.
    + injection H as -> H. discriminate Ua.
    + injection H as <- H. discriminate Ub.
    + injection H as H1 H2 H. f_equal; [now apply escape_inj|auto].
Qed.

Lemma append_inv_unit (c : ascii) (a a' x x' : string) :
  includes a (String c EmptyString) = false ->
  includes a' (String c EmptyString) = false ->
  a ++ String c x = a' ++ String c x' -> a = a' /\ x = x'.
Proof.
  revert a'. induction a as [|y a IH]; intros [|y' a'] Ha Ha' H; simpl in H.
  - injection H as ->. auto.
  - injection H as <- _. simpl in Ha'. rewrite Ascii.eqb_refl in Ha'. discriminate.
  - injection H as -> _. simpl in Ha. rewrite Ascii.eqb_refl in Ha. discriminate.
  - injection H as -> H.
    destruct (IH a' (includes_cons _ _ _ Ha) (includes_cons _ _ _ Ha') H) as [-> ->].
    auto.
Qed.

(** A proxy URL is its base and endpoint followed by a query of exactly
    two parameters: the encoded target and the encoded header JSON hold
    nothing but unreserved characters and percent escapes, so none of
    the characters that delimit a query; and two proxy URLs on the same
    base and endpoint are equal only when their targets and their header
    JSON are. *)
Theorem proxy_url_determines_target (baseProxyUrl endpoint : string) :
  (forall target headers,
     exists u h,
       proxyUrl baseProxyUrl endpoint target headers
       = baseProxyUrl ++ endpoint ++ "?url=" ++ u ++ "&headers=" ++ h
       /\ forall c, unreserved c = false -> c <> "%"%char ->
                    includes u (String c EmptyString) = false
                    /\ includes h (String c EmptyString) = false)
  /\ (forall target target' headers headers',
        proxyUrl baseProxyUrl endpoint target headers
        = proxyUrl baseProxyUrl endpoint target' headers' ->
        target = target' /\ JSON_stringify headers = JSON_stringify headers').
Proof.
  split.
  - intros target headers.
    exists (encodeURIComponent target), (encodeURIComponent (JSON_stringify headers)).
    split; [reflexivity|]. intros c U P.
    split; now apply encodeURIComponent_units.
  - intros target target' headers headers' H. unfold proxyUrl in H.
    apply append_inv_head in H. apply append_inv_head in H.
    apply (append_inv_head "?url=") in H.
    apply (append_inv_unit "&") in H;
      [|now apply encodeURIComponent_units..].
    destruct H as [H1 H2]. apply (append_inv_head "headers=") in H2.
    split; now apply encodeURIComponent_inj.
Qed.

End ProxyUrlFacts.

(* ================================================================== *)
(** * The headers sent to the origin *)
(* ================================================================== *)

Section RequestHeaderFacts.

Lemma Map_get_setProperty_other (k k' : string) (v : json) (o : object) :
  k <> k' -> Map_get k (setProperty k' v o) = Map_get k o.
Proof.
  intros N. induction o as [|[k0 v0] o IH]; simpl.
  - apply String.eqb_neq in N. now rewrite N.
  - destruct (String.eqb_spec k' k0) as [->|N0]; simpl.
    + apply String.eqb_neq in N. now rewrite N.
    + now rewrite IH.
Qed.

Lemma Map_get_app {V} (k : string) (a b : Map V) :
  Map_get k (a ++ b)%list = match Map_get k a with Some v => Some v | None => Map_get k b end.
Proof.
  induction a as [|[k0 v0] a IH]; simpl; [reflexivity|].
  now destruct (String.eqb k k0).
Qed.

Lemma spread_get (k : string) (entries o : object) :
  Map_get k (fold_left (fun o kv => setProperty (fst kv) (snd kv) o) entries o)
  = match Map_get k (rev entries) with
    | Some v => Some v
    | None => Map_get k o
    end.
Proof.
  revert o. induction entries as [|[k0 v0] entries IH]; intros o; simpl; [reflexivity|].
  rewrite IH, Map_get_app. destruct (Map_get k (rev entries)); [reflexivity|].
  simpl. destruct (String.eqb_spec k k0) as [->|N].
  - apply setProperty_sets.
  - now apply Map_get_setProperty_other.
Qed.

Lemma keys_setProperty (k : string) (v : json) (o : object) :
  keys (setProperty k v o)
  = if existsb (String.eqb k) (keys o) then keys o else (keys o ++ [k])%list.
Proof.
  induction o as [|[k0 v0] o IH]; simpl; [reflexivity|].
  destruct (String.eqb k k0) eqn:E; simpl.
  - apply String.eqb_eq in E. now subst k0.
  - rewrite IH. now destruct (existsb (String.eqb k) (keys o)).
Qed.

Lemma well_formed_setProperty (k : string) (v : json) (o : object) :
  well_formed o -> well_formed (setProperty k v o).
Proof.
  unfold well_formed. intros W. rewrite keys_setProperty.
  destruct (existsb (String.eqb k) (keys o)) eqn:E; [exact W|].
  apply NoDup_app; [exact W|repeat constructor; auto|].
  intros x Hx [Hk|[]]. subst x.
  assert (existsb (String.eqb k) (keys o) = true); [|congruence].
  apply existsb_exists. exists k. now rewrite String.eqb_refl.
Qed.

(** The object handed to [fetch] as [headers] holds every name once.
    Under a name the parsed [headers] value has as an own property it
    holds that property's value, the last one if the name occurs more
    than once; the default [User-Agent] stays only when the value has no
    property of exactly that name; and there is nothing else in it. *)
Theorem request_headers_merge (headers : json) :
  well_formed (requestHeaders headers)
  /\ forall name,
       Map_get name (requestHeaders headers)
       = match Map_get name (rev (ownEntries headers)) with
         | Some v => Some v
         | None =>
             if String.eqb name "User-Agent" then Some (JString USER_AGENT) else None
         end.
Proof.
  unfold requestHeaders. split.
  - generalize (ownEntries headers).
    assert (W : well_formed [("User-Agent", JString USER_AGENT)])
      by (repeat constructor; intros []).
    revert W. generalize [("User-Agent", JString USER_AGENT)].
    intros o W entries. revert o W.
    induction entries as [|kv entries IH]; intros o W; simpl; [exact W|].
    apply IH. now apply well_formed_setProperty.
  - intros name. rewrite spread_get. reflexivity.
Qed.

End RequestHeaderFacts.

(* ================================================================== *)
(** * What the handlers and the sweep do to the cache *)
(* ================================================================== *)

Section SweepFacts.

Lemma In_Map_get {V} (k : string) (v : V) (m : Map V) :
  well_formed m -> In (k, v) m -> Map_get k m = Some v.
Proof.
  unfold well_formed. induction m as [|[k0 v0] m IH]; intros W HIn; [contradiction|].
  simpl in W. inversion W as [|? ? N W']; subst. simpl.
  destruct HIn as [E|HIn].
  - injection E as -> ->. now rewrite String.eqb_refl.
  - destruct (String.eqb_spec k k0) as [->|_]; [|auto].
    exfalso. apply N. change k0 with (fst (k0, v)). now apply in_map.
Qed.

(** The sweep keeps a part of the cache as it stands: entries are
    neither changed nor moved. *)
Lemma cleanupCache_filter (now : Z) (cache : Cache) :
  well_formed cache ->
  exists kept,
    cleanupCache now cache = filter kept cache
    /\ forall kv, kept kv = true -> expired now (snd kv) = false.
Proof.
  intros W. unfold cleanupCache.
  pose proof (well_formed_evictExpired now cache W) as Ws.
  rewrite evictExpired_filter in * by exact W.
  set (survivors := filter (fun kv => negb (expired now (snd kv))) cache) in *.
  unfold evictToCapacity.
  destruct (CACHE_MAX_SIZE <? Map_size survivors)%nat.
  - cbv zeta.
    destruct (delete_firstn survivors (sortByTimestamp survivors)
                (Map_size survivors - CACHE_MAX_SIZE) Ws (sortByTimestamp_perm _))
      as [-> _].
    unfold survivors. rewrite filter_filter. eexists. split; [reflexivity|].
    intros kv H. apply andb_true_iff in H as [H _]. now apply negb_true_iff in H.
  - exists (fun kv => negb (expired now (snd kv))). split; [reflexivity|].
    intros kv H. now apply negb_true_iff in H.
Qed.

Lemma Map_get_filter (f : string * CacheEntry -> bool) (cache : Cache) k v :
  well_formed cache -> Map_get k (filter f cache) = Some v -> Map_get k cache = Some v.
Proof.
  intros W H. apply In_Map_get; [exact W|].
  apply Map_get_In in H. now apply filter_In in H as [H _].
Qed.

Lemma filter_length_le {A} (f : A -> bool) (l : list A) :
  List.length (filter f l) <= List.length l.
Proof. induction l as [|a l IH]; simpl; [lia|]. destruct (f a); simpl; lia. Qed.

Lemma within_refl (cache : Cache) : within cache cache.
Proof. split; auto. Qed.

Lemma within_trans (a b c : Cache) : within a b -> within b c -> within a c.
Proof. intros [H1 L1] [H2 L2]. split; [auto|lia]. Qed.

Lemma within_cleanupCache (now : Z) (cache : Cache) :
  well_formed cache -> within (cleanupCache now cache) cache.
Proof.
  intros W. destruct (cleanupCache_filter now cache W) as (kept & -> & _). split.
  - intros k v. now apply Map_get_filter.
  - apply filter_length_le.
Qed.

Lemma within_prefetchSegment_begin (env : environment) (now : Z) (url : string)
    (headers : json) (cache : Cache) :
  well_formed cache -> within (fst (prefetchSegment_begin env now url headers cache)) cache.
Proof.
  intros W. unfold prefetchSegment_begin.
  destruct (isCacheDisabled env); [apply within_refl|].
  set (c := if (CACHE_MAX_SIZE <=? Map_size cache)%nat then cleanupCache now cache else cache).
  assert (Wc : within c cache).
  { unfold c. destruct (CACHE_MAX_SIZE <=? Map_size cache)%nat; [|apply within_refl].
    now apply within_cleanupCache. }
  destruct (Map_get url c) as [existing|]; [|exact Wc].
  destruct (now - timestamp existing <=? CACHE_EXPIRY_MS)%Z; exact Wc.
Qed.

Lemma within_settle (env : environment) (now : Z) (cache : Cache) (e : effect) :
  well_formed cache -> within (settle env now cache e) cache.
Proof.
  intros W. destruct e as [u h| |us h]; simpl.
  - now apply within_prefetchSegment_begin.
  - now apply within_cleanupCache.
  - revert cache W. induction us as [|u us IH]; intros cache W; simpl; [apply within_refl|].
    eapply within_trans; [apply IH; now apply well_formed_prefetchSegment_begin|].
    now apply within_prefetchSegment_begin.
Qed.

Lemma within_settled (env : environment) (now : Z) (effects : list effect) (cache : Cache) :
  well_formed cache -> within (fold_left (settle env now) effects cache) cache.
Proof.
  revert cache. induction effects as [|e effects IH]; intros cache W; simpl;
    [apply within_refl|].
  eapply within_trans; [apply IH; now apply well_formed_settle|].
  now apply within_settle.
Qed.

End SweepFacts.

Section EndpointFacts.
Import JsString.

Variable newURL : string -> option string -> outcome URL.
Variable JSON_parse : string -> outcome json.
Variable JSON_stringify : json -> string.
Variable fetch : string -> object -> outcome Response.
Variable toFixed : float -> nat -> string.

Local Abbreviation parseHeaders := (parseHeaders JSON_parse).
Local Abbreviation rewrite := (rewrite newURL JSON_stringify).
Local Abbreviation proxyM3U8_try := (proxyM3U8_try newURL JSON_stringify fetch).
Local Abbreviation proxyM3U8 := (proxyM3U8 newURL JSON_parse JSON_stringify fetch).
Local Abbreviation m3u8Handler :=
  (m3u8Handler newURL JSON_parse JSON_stringify fetch toFixed).
Local Abbreviation getCacheStats := (getCacheStats toFixed).


Lemma cleanupCache_nothing_to_do (now : Z) (cache : Cache) :
  well_formed cache -> Map_size cache <= CACHE_MAX_SIZE ->
  (forall kv, In kv cache -> expired now (snd kv) = false) ->
  cleanupCache now cache = cache.
Proof.
  intros W L U. unfold cleanupCache. rewrite evictExpired_filter by exact W.
  rewrite filter_all by (intros kv H; now rewrite (U kv H)).
  now apply evictToCapacity_small.
Qed.

(** The sweep leaves what it keeps as it stands: the result is the cache
    with some entries taken out, the others unchanged and in their order
    of insertion; no entry it keeps has expired; and a cache within
    capacity none of whose entries has expired is left as it is. *)
Theorem cleanupCache_keeps_order (now : Z) (cache : Cache) :
  well_formed cache ->
  (exists kept, cleanupCache now cache = filter kept cache)
  /\ (forall kv, In kv (cleanupCache now cache) -> expired now (snd kv) = false)
  /\ (forall k v, Map_get k (cleanupCache now cache) = Some v -> Map_get k cache = Some v)
  /\ (Map_size cache <= CACHE_MAX_SIZE ->
      (forall kv, In kv cache -> expired now (snd kv) = false) ->
      cleanupCache now cache = cache).
Proof.
  intros W. destruct (cleanupCache_filter now cache W) as (kept & E & U).
  split; [eauto|]. split; [|split].
  - intros kv H. rewrite E in H. apply filter_In in H as [_ H]. auto.
  - apply (within_cleanupCache now cache W).
  - now apply cleanupCache_nothing_to_do.
Qed.

Lemma mediaLines_quiet (env : environment) (url : string) (headers : json)
    (baseProxyUrl : string) (lines : list string) :
  isCacheDisabled env = true ->
  fst (mediaLines newURL JSON_stringify env url headers baseProxyUrl lines) = [].
Proof.
  intros D. induction lines as [|line lines IH]; [reflexivity|].
  cbn [mediaLines].
  assert (L : fst (mediaLine newURL JSON_stringify env url headers baseProxyUrl line) = []).
  { unfold mediaLine. rewrite D. cbn [negb].
    destruct (startsWith line "#").
    - destruct (startsWith line "#EXT-X-KEY:"); [|reflexivity].
      destruct (firstAbsoluteUrl line) as [k|]; [|reflexivity].
      destruct (truthy k); reflexivity.
    - destruct (truthy (trim line) && negb false); [|reflexivity].
      destruct (parseURL newURL line (Some url)) as [r|e]; [|reflexivity].
      simpl. destruct (resolved r); reflexivity. }
  destruct (mediaLine newURL JSON_stringify env url headers baseProxyUrl line)
    as [w [[newLine urls]|e]]; simpl in L; subst w; [|reflexivity].
  destruct (mediaLines newURL JSON_stringify env url headers baseProxyUrl lines)
    as [w' [[newLines segmentUrls]|e]]; simpl in IH; subst w'; reflexivity.
Qed.

Lemma masterLines_quiet (url : string) (headers : json) (baseProxyUrl : string)
    (lines : list string) :
  fst (masterLines newURL JSON_stringify url headers baseProxyUrl lines) = [].
Proof.
  induction lines as [|line lines IH]; [reflexivity|].
  cbn [masterLines].
  assert (L : fst (masterLine newURL JSON_stringify url headers baseProxyUrl line) = []).
  { unfold masterLine.
    destruct (startsWith line "#").
    - destruct (startsWith line "#EXT-X-KEY:").
      + destruct (firstAbsoluteUrl line) as [k|]; [|reflexivity].
        destruct (truthy k); reflexivity.
      + destruct (startsWith line "#EXT-X-MEDIA:"); [|reflexivity].
        destruct (firstAbsoluteUrl line) as [k|]; [|reflexivity].
        destruct (truthy k); reflexivity.
    - destruct (truthy (trim line)); [|reflexivity].
      destruct (parseURL newURL line (Some url)) as [r|e]; [|reflexivity].
      simpl. destruct (resolved r); reflexivity. }
  destruct (masterLine newURL JSON_stringify url headers baseProxyUrl line)
    as [w [newLine|e]]; simpl in L; subst w; [|reflexivity].
  destruct (masterLines newURL JSON_stringify url headers baseProxyUrl lines)
    as [w' [newLines|e]]; simpl in IH; subst w'; reflexivity.
Qed.

Lemma proxyM3U8_quiet (env : environment) (req : request) :
  isCacheDisabled env = true -> fst (proxyM3U8 env req) = [].
Proof.
  intros D. unfold proxyM3U8.
  destruct (absent (query_url req)); [reflexivity|].
  destruct (parseHeaders (query_headers req)) as [headers|e]; [|reflexivity].
  unfold proxyM3U8_answer.
  match goal with
  | |- fst (match ?t with _ => _ end) = _ =>
      assert (Q : fst t = []); [|destruct t as [w [s|e]]; simpl in Q; now subst w]
  end.
  unfold proxyM3U8_try.
  destruct (fetch _ (requestHeaders headers)) as [response|e]; [|reflexivity].
  simpl. destruct (ok response); simpl; [|reflexivity].
  destruct (text response) as [m3u8Content|e]; [|reflexivity].
  simpl.
  set (url := match query_url req with Some u => u | None => EmptyString end).
  set (base := (requestProtocol req ++ _)%string).
  unfold rewrite. destruct (classify m3u8Content).
  - unfold rewriteMaster.
    pose proof (masterLines_quiet url headers base (split_nl m3u8Content)) as Q.
    destruct (masterLines newURL JSON_stringify url headers base (split_nl m3u8Content))
      as [w [newLines|e]]; simpl in Q; subst w; reflexivity.
  - unfold rewriteMedia.
    pose proof (mediaLines_quiet env url headers base (split_nl m3u8Content) D) as Q.
    destruct (mediaLines newURL JSON_stringify env url headers base (split_nl m3u8Content))
      as [w [[newLines segmentUrls]|e]]; simpl in Q; subst w; [|reflexivity].
    simpl. rewrite D. simpl.
    destruct (0 <? List.length segmentUrls)%nat; reflexivity.
Qed.

(** The manifest endpoint stores nothing while it answers: whatever the
    request and the answer, every entry the cache holds afterwards it
    held before, unchanged, and it holds no more entries than before.
    With the cache disabled a request other than [/cache-stats] leaves
    the cache as it was. *)
Theorem manifest_request_never_stores (env : environment) (req : request) (now : Z)
    (cache : Cache) :
  well_formed cache ->
  let cache' := snd (fst (m3u8Handler env req now cache)) in
  (forall k v, Map_get k cache' = Some v -> Map_get k cache = Some v)
  /\ Map_size cache' <= Map_size cache
  /\ well_formed cache'
  /\ (isCacheDisabled env = true -> path req <> "/cache-stats" -> cache' = cache).
Proof.
  intros W. cbv zeta.
  assert (A : within (snd (fst (m3u8Handler env req now cache))) cache).
  { unfold m3u8Handler.
    destruct (preflight req); [apply within_refl|].
    destruct (isM3U8Disabled env); [apply within_refl|].
    destruct (String.eqb (path req) "/cache-stats").
    - simpl. now apply within_cleanupCache.
    - destruct (proxyM3U8 env req) as [effects answer]. simpl.
      now apply within_settled. }
  destruct A as [A1 A2]. split; [exact A1|]. split; [exact A2|].
  split; [now apply well_formed_m3u8Handler|].
  intros D P. unfold m3u8Handler.
  destruct (preflight req); [reflexivity|].
  destruct (isM3U8Disabled env); [reflexivity|].
  apply String.eqb_neq in P. rewrite P.
  pose proof (proxyM3U8_quiet env req D) as Q.
  destruct (proxyM3U8 env req) as [effects answer]. simpl in Q. subst effects.
  reflexivity.
Qed.

Lemma truthy_append (a b : string) : truthy a = true -> truthy (a ++ b) = true.
Proof. destruct a; [discriminate|reflexivity]. Qed.

(** When the origin answers with a status that is not a success, both
    endpoints answer 500, whatever that status was, and give
    [createError] a status message that names it; when the request to
    the origin fails altogether, the manifest endpoint answers 500 and
    the segment endpoint the status the error carries if that lies from
    100 to 999, and 500 otherwise, the status message being the error's
    message, or the endpoint's own text when the error has none. *)
Theorem origin_failure_answers_500 (env : environment) (req : request) (url : string)
    (headers : json) :
  query_url req = Some url -> truthy url = true ->
  parseHeaders (query_headers req) = Ok headers ->
  (forall response,
     fetch url (requestHeaders headers) = Ok response -> ok response = false ->
     proxyM3U8 env req
     = ([], RError 500 ("Failed to fetch M3U8: " ++ decimal (status response) ++ " "
                        ++ statusText response))
     /\ forall now cache,
          preflight req = false -> isM3U8Disabled env = false ->
          fst (getCachedSegment env now url cache) = None ->
          fst (tsHandler JSON_parse fetch env req now cache)
          = RError 500 ("Failed to fetch TS file: " ++ decimal (status response) ++ " "
                        ++ statusText response))
  /\ (forall error,
        fetch url (requestHeaders headers) = Throw error ->
        proxyM3U8 env req = ([], RError 500 (messageOr error "Error proxying M3U8 file"))
        /\ forall now cache,
             preflight req = false -> isM3U8Disabled env = false ->
             fst (getCachedSegment env now url cache) = None ->
             fst (tsHandler JSON_parse fetch env req now cache)
             = RError (statusOr500 error) (messageOr error "Error proxying TS file")).
Proof.
  intros Q T P.
  assert (A : absent (query_url req) = false) by (rewrite Q; simpl; now rewrite T).
  assert (M : forall now cache,
            preflight req = false -> isM3U8Disabled env = false ->
            fst (getCachedSegment env now url cache) = None ->
            fst (tsHandler JSON_parse fetch env req now cache)
            = fst (match fetch url (requestHeaders headers) with
                   | Throw error =>
                       (RError (statusOr500 error)
                               (messageOr error "Error proxying TS file"), cache)
                   | Ok response =>
                       if negb (ok response) then
                         (RError 500 ("Failed to fetch TS file: "
                                      ++ decimal (status response) ++ " "
                                      ++ statusText response), cache)
                       else
                         match arrayBuffer response with
                         | Throw error =>
                             (RError (statusOr500 error)
                                     (messageOr error "Error proxying TS file"), cache)
                         | Ok bytes =>
                             (RSuccess (SEGMENT_HEADERS "video/mp2t") (BBytes bytes), cache)
                         end
                   end)).
  { intros now cache F D G. unfold tsHandler. rewrite F, D, A, P, Q.
    unfold tsHandler_try.
    destruct (isCacheDisabled env) eqn:C; cbn [negb].
    - destruct (fetch url (requestHeaders headers)) as [r|e]; [|reflexivity].
      destruct (negb (ok r)); [reflexivity|].
      destruct (arrayBuffer r); reflexivity.
    - destruct (getCachedSegment env now url cache) as [[segment|] c]; [discriminate G|].
      destruct (fetch url (requestHeaders headers)) as [r|e]; [|reflexivity].
      destruct (negb (ok r)); [reflexivity|].
      destruct (arrayBuffer r); reflexivity. }
  split.
  - intros response F O. split.
    + unfold proxyM3U8. rewrite A, P, Q. unfold proxyM3U8_try. rewrite F. simpl.
      rewrite O. reflexivity.
    + intros now cache Fp D G. rewrite (M now cache Fp D G), F, O. reflexivity.
  - intros error F. split.
    + unfold proxyM3U8. rewrite A, P, Q. unfold proxyM3U8_try. rewrite F. reflexivity.
    + intros now cache Fp D G. rewrite (M now cache Fp D G), F. reflexivity.
Qed.

End EndpointFacts.

Section CapacityFacts.

Variable toFixed : float -> nat -> string.

Local Abbreviation getCacheStats := (getCacheStats toFixed).
Local Abbreviation handleCacheStats := (handleCacheStats toFixed).

Lemma Map_size_set {V} (k : string) (v : V) (m : Map V) :
  Map_size (Map_set k v m)
  = match Map_get k m with Some _ => Map_size m | None => S (Map_size m) end.
Proof.
  unfold Map_size. induction m as [|[k0 v0] m IH]; simpl; [reflexivity|].
  destruct (String.eqb k k0); simpl; [reflexivity|].
  rewrite IH. now destruct (Map_get k m).
Qed.

(** The capacity bounds the cache when a prefetch starts, not when it
    ends.  While the cache is enabled, a prefetch that goes on to its
    [fetch] does so on a cache of at most [CACHE_MAX_SIZE] entries; if
    what it fetched is stored in that very cache, nothing else having
    been stored in between, the cache holds at most one entry more; and
    when the cache holds exactly [CACHE_MAX_SIZE] entries none of which
    has expired, and none for the URL, nothing is evicted and the cache
    ends with [CACHE_MAX_SIZE + 1] entries. *)
Theorem prefetch_may_exceed_capacity (env : environment) (now : Z) (url : string)
    (headers : json) (cache : Cache) :
  isCacheDisabled env = false -> well_formed cache ->
  let started := fst (prefetchSegment_begin env now url headers cache) in
  Map_size started <= CACHE_MAX_SIZE
  /\ (forall response bytes stored,
        ok response = true -> arrayBuffer response = Ok bytes ->
        Map_size (prefetchSegment_resume stored url (Ok response) started)
        <= CACHE_MAX_SIZE + 1)
  /\ (Map_size cache = CACHE_MAX_SIZE ->
      (forall kv, In kv cache -> expired now (snd kv) = false) ->
      Map_get url cache = None ->
      prefetchSegment_begin env now url headers cache
      = (cache, AwaitingFetch url (requestHeaders headers))
      /\ forall response bytes stored,
           ok response = true -> arrayBuffer response = Ok bytes ->
           Map_size (prefetchSegment_resume stored url (Ok response) cache)
           = CACHE_MAX_SIZE + 1).
Proof.
  intros D W. cbv zeta.
  assert (R : forall c response bytes stored,
            ok response = true -> arrayBuffer response = Ok bytes ->
            Map_size (prefetchSegment_resume stored url (Ok response) c)
            = match Map_get url c with Some _ => Map_size c | None => S (Map_size c) end).
  { intros c response bytes stored O B. unfold prefetchSegment_resume.
    rewrite O, B. cbn [negb]. apply Map_size_set. }
  assert (L : Map_size (fst (prefetchSegment_begin env now url headers cache))
              <= CACHE_MAX_SIZE).
  { unfold prefetchSegment_begin. rewrite D.
    set (c := if (CACHE_MAX_SIZE <=? Map_size cache)%nat
              then cleanupCache now cache else cache).
    assert (Lc : Map_size c <= CACHE_MAX_SIZE).
    { unfold c. destruct (Nat.leb_spec CACHE_MAX_SIZE (Map_size cache)); [|lia].
      now apply cleanupCache_size. }
    destruct (Map_get url c) as [existing|]; [|exact Lc].
    destruct (now - timestamp existing <=? CACHE_EXPIRY_MS)%Z; exact Lc. }
  split; [exact L|]. split.
  - intros response bytes stored O B. rewrite (R _ _ _ _ O B).
    destruct (Map_get url _); lia.
  - intros S U G.
    assert (E : prefetchSegment_begin env now url headers cache
                = (cache, AwaitingFetch url (requestHeaders headers))).
    { unfold prefetchSegment_begin. rewrite D.
      destruct (Nat.leb_spec CACHE_MAX_SIZE (Map_size cache)); [|lia].
      rewrite cleanupCache_nothing_to_do by (auto; lia). now rewrite G. }
    split; [exact E|].
    intros response bytes stored O B. rewrite (R _ _ _ _ O B), G. lia.
Qed.

(** What [/cache-stats] counts is the cache after its sweep: at most
    [maxSize] entries, none of them expired and each one held before;
    a second call at the same time changes nothing and reports the
    same; and over an empty cache both sizes are those of zero, no
    average being taken. *)
Theorem stats_count_the_swept_cache (now : Z) (cache : Cache) :
  well_formed cache ->
  let cache' := snd (handleCacheStats now cache) in
  let stats := getCacheStats cache' in
  cache' = cleanupCache now cache
  /\ entries stats = Map_size cache'
  /\ entries stats <= maxSize stats
  /\ entries stats <= Map_size cache
  /\ (forall kv, In kv cache' -> In kv cache /\ expired now (snd kv) = false)
  /\ handleCacheStats now cache' = handleCacheStats now cache
  /\ (cache' = [] ->
      totalSizeMB stats = toFixed 0%float 2 /\ avgEntrySizeKB stats = toFixed 0%float 2).
Proof.
  intros W. cbv zeta. unfold handleCacheStats. cbn [snd].
  split; [reflexivity|]. split; [reflexivity|]. split; [|split; [|split; [|split]]].
  - change (Map_size (cleanupCache now cache) <= CACHE_MAX_SIZE).
    now apply cleanupCache_size.
  - apply (within_cleanupCache now cache W).
  - now apply cleanupCache_unexpired.
  - rewrite (cleanupCache_nothing_to_do now (cleanupCache now cache)); [reflexivity| | |].
    + now apply well_formed_cleanupCache.
    + now apply cleanupCache_size.
    + intros kv H. now apply (cleanupCache_unexpired now cache W).
  - intros ->. split; reflexivity.
Qed.

End CapacityFacts.

(* ================================================================== *)
(** * The rewriter and the resolver *)
(* ================================================================== *)

Section ResolutionFacts.
Import JsString JsStringFacts.

Variable newURL : string -> option string -> outcome URL.
Variable JSON_stringify : json -> string.
Variable env : environment.
Variable url : string.
Variable headers : json.
Variable baseProxyUrl : string.

Local Abbreviation parseURL := (parseURL newURL).
Local Abbreviation proxyUrl := (proxyUrl JSON_stringify).
Local Abbreviation mediaLine := (mediaLine newURL JSON_stringify env url headers baseProxyUrl).
Local Abbreviation mediaLines := (mediaLines newURL JSON_stringify env url headers baseProxyUrl).
Local Abbreviation masterLine := (masterLine newURL JSON_stringify url headers baseProxyUrl).
Local Abbreviation masterLines := (masterLines newURL JSON_stringify url headers baseProxyUrl).
Local Abbreviation rewriteMedia := (rewriteMedia newURL JSON_stringify env url headers baseProxyUrl).
Local Abbreviation rewriteMaster := (rewriteMaster newURL JSON_stringify url headers baseProxyUrl).
Local Abbreviation rewrite := (rewrite newURL JSON_stringify env url headers baseProxyUrl).
Local Abbreviation segmentUrlOf := (segmentUrlOf newURL url).

(** A line the loops leave alone whatever the branch: it is no URI line,
    and when it is a key or media directive the pattern finds no
    absolute URL in it. *)
Local Abbreviation inert line :=
  (isSegmentLine line = false
   /\ (startsWith line "#EXT-X-KEY:" = true \/ startsWith line "#EXT-X-MEDIA:" = true ->
       firstAbsoluteUrl line = None)).

Lemma inert_masterLine (line : string) : inert line -> masterLine line = ([], Ok line).
Proof.
  intros [S F]. unfold masterLine. unfold isSegmentLine in S.
  destruct (startsWith line "#"); simpl in S.
  - destruct (startsWith line "#EXT-X-KEY:"); [now rewrite F by auto|].
    destruct (startsWith line "#EXT-X-MEDIA:"); [now rewrite F by auto|reflexivity].
  - now rewrite S.
Qed.

Lemma inert_mediaLine (line : string) : inert line -> mediaLine line = ([], Ok (line, [])).
Proof.
  intros [S F]. unfold mediaLine. unfold isSegmentLine in S.
  destruct (startsWith line "#"); simpl in S.
  - destruct (startsWith line "#EXT-X-KEY:"); [now rewrite F by auto|reflexivity].
  - now rewrite S.
Qed.

(** A manifest with no URI line and no absolute URL in a key or media
    directive, the empty manifest among them, comes back byte for byte,
    whichever branch rewrites it; nothing is resolved, nothing is
    prefetched and nothing can fail. *)
Theorem manifest_without_urls_is_unchanged (m3u8Content : string) :
  (forall line, In line (split_nl m3u8Content) -> inert line) ->
  rewrite m3u8Content = ([], Ok m3u8Content).
Proof.
  intros H. unfold rewrite.
  destruct (classify m3u8Content).
  - unfold rewriteMaster.
    assert (E : forall lines, (forall line, In line lines -> inert line) ->
                masterLines lines = ([], Ok lines)).
    { induction lines as [|line lines IH]; intros Hl; [reflexivity|].
      simpl. rewrite inert_masterLine by (apply Hl; now left).
      simpl. rewrite IH by (intros l Hi; apply Hl; now right). reflexivity. }
    rewrite (E _ H). simpl. now rewrite join_split_nl.
  - unfold rewriteMedia.
    assert (E : forall lines, (forall line, In line lines -> inert line) ->
                mediaLines lines = ([], Ok (lines, []))).
    { induction lines as [|line lines IH]; intros Hl; [reflexivity|].
      simpl. rewrite inert_mediaLine by (apply Hl; now left).
      simpl. rewrite IH by (intros l Hi; apply Hl; now right). reflexivity. }
    rewrite (E _ H). simpl. now rewrite join_split_nl.
Qed.

Lemma parseURL_resolves (line : string) :
  truthy url = true ->
  parseURL line (Some url) =
    match newURL line (Some url) with
    | Ok u => Ok (Some (href u))
    | Throw e => Throw e
    end.
Proof. intros T. unfold parseURL. simpl. now rewrite T. Qed.


End ResolutionFacts.

Section BaseFacts.
Import JsString.

Variable JSON_parse : string -> outcome json.
Variable JSON_stringify : json -> string.
Variable fetch : string -> object -> outcome Response.

(** No URL is resolved without a base.  The segment endpoint makes no
    call to the URL constructor, and every call the manifest endpoint
    makes passes the manifest's own URL as the base: two constructors
    that agree whenever a base is given make [proxyM3U8] answer alike on
    every request, so the part of [parseURL] that deals with a missing
    base (the pattern, the assumed scheme, the empty host) has no
    bearing on any answer. *)
Theorem endpoints_never_resolve_without_base
    (newURL newURL' : string -> option string -> outcome URL)
    (env : environment) (req : request) :
  (forall input base, newURL input (Some base) = newURL' input (Some base)) ->
  proxyM3U8 newURL JSON_parse JSON_stringify fetch env req
  = proxyM3U8 newURL' JSON_parse JSON_stringify fetch env req.
Proof.
  intros A.
  assert (P : forall url line, truthy url = true ->
            parseURL newURL line (Some url) = parseURL newURL' line (Some url)).
  { intros url line T. rewrite !parseURL_resolves by exact T. now rewrite A. }
  assert (Lm : forall url headers base line, truthy url = true ->
            mediaLine newURL JSON_stringify env url headers base line
            = mediaLine newURL' JSON_stringify env url headers base line).
  { intros url headers base line T. unfold mediaLine. now rewrite P. }
  assert (Lv : forall url headers base line, truthy url = true ->
            masterLine newURL JSON_stringify url headers base line
            = masterLine newURL' JSON_stringify url headers base line).
  { intros url headers base line T. unfold masterLine. now rewrite P. }
  assert (R : forall url headers base m3u8Content, truthy url = true ->
            rewrite newURL JSON_stringify env url headers base m3u8Content
            = rewrite newURL' JSON_stringify env url headers base m3u8Content).
  { intros url headers base m3u8Content T. unfold rewrite.
    destruct (classify m3u8Content).
    - unfold rewriteMaster. f_equal.
      induction (split_nl m3u8Content) as [|line lines IH]; [reflexivity|].
      simpl. now rewrite Lv, IH.
    - unfold rewriteMedia. f_equal.
      induction (split_nl m3u8Content) as [|line lines IH]; [reflexivity|].
      simpl. now rewrite Lm, IH. }
  unfold proxyM3U8.
  destruct (absent (query_url req)) eqn:Q; [reflexivity|].
  destruct (parseHeaders JSON_parse (query_headers req)) as [headers|e]; [|reflexivity].
  f_equal. unfold proxyM3U8_try.
  destruct (fetch _ (requestHeaders headers)) as [response|e]; [|reflexivity].
  simpl. destruct (ok response); simpl; [|reflexivity].
  destruct (text response) as [m3u8Content|e]; [|reflexivity].
  simpl. rewrite R; [reflexivity|].
  destruct (query_url req) as [u|]; [|discriminate Q].
  simpl in Q. now apply negb_false_iff in Q.
Qed.

End BaseFacts.

Section GateFacts.
Import JsString.

Variable newURL : string -> option string -> outcome URL.
Variable JSON_parse : string -> outcome json.
Variable JSON_stringify : json -> string.
Variable toFixed : float -> nat -> string.

(** What is refused is refused before any work is done.  On both
    endpoints a preflight request gets the CORS answer; any other
    request gets 404 while [DISABLE_M3U8] is [true]; and otherwise a
    request whose [url] parameter is missing or empty gets 400, whatever
    its [headers] parameter is (on the manifest endpoint, unless the
    path is [/cache-stats]).  In each case the origin is not asked, the
    answer being the same whatever the origin would do, the cache is
    left as it is and nothing is prefetched. *)
Theorem refused_before_any_work (fetch : string -> object -> outcome Response)
    (env : environment) (req : request) (now : Z) (cache : Cache) :
  preflight req = true \/ isM3U8Disabled env = true \/ absent (query_url req) = true ->
  let refusal (disabled : string) :=
    if preflight req then RCors
    else if isM3U8Disabled env then RError 404 disabled
    else RError 400 "URL parameter is required" in
  tsHandler JSON_parse fetch env req now cache = (refusal "TS proxying is disabled", cache)
  /\ (path req <> "/cache-stats" \/ preflight req = true \/ isM3U8Disabled env = true ->
      m3u8Handler newURL JSON_parse JSON_stringify fetch toFixed env req now cache
      = (refusal "M3U8 proxying is disabled", cache, [])).
Proof.
  intros H. cbv zeta. unfold m3u8Handler, tsHandler.
  destruct (preflight req); [auto|].
  destruct (isM3U8Disabled env); [auto|].
  destruct H as [H|[H|H]]; try discriminate H.
  rewrite H. split; [reflexivity|].
  intros [P|[P|P]]; try discriminate P.
  apply String.eqb_neq in P. rewrite P. unfold proxyM3U8. now rewrite H.
Qed.

End GateFacts.

Section LookupFacts.

Lemma Map_get_filter_unique (f : string * CacheEntry -> bool) (cache : Cache) (k : string) :
  well_formed cache ->
  Map_get k (filter f cache)
  = match Map_get k cache with
    | Some v => if f (k, v) then Some v else None
    | None => None
    end.
Proof.
  unfold well_formed. induction cache as [|[k0 v0] cache IH]; intros W; [reflexivity|].
  simpl in W. inversion W as [|? ? N W']; subst. simpl.
  destruct (String.eqb_spec k k0) as [->|Nk].
  - destruct (f (k0, v0)) eqn:F; simpl.
    + now rewrite String.eqb_refl.
    + rewrite (IH W').
      destruct (Map_get k0 cache) as [v|] eqn:G; [|reflexivity].
      exfalso. apply N. apply Map_get_In in G.
      change k0 with (fst (k0, v)). now apply in_map.
  - destruct (f (k0, v0)); simpl; [|now apply IH].
    apply String.eqb_neq in Nk. rewrite Nk. now apply IH.
Qed.

(** The sweep and the lookup draw the same line.  While the entries that
    have not expired fit the capacity, a sweep takes out nothing a
    lookup at the same time would have handed back: the lookup returns
    the same before and after the sweep, and after the sweep it has
    nothing left to delete. *)
Theorem sweep_and_lookup_agree (env : environment) (now : Z) (url : string)
    (cache : Cache) :
  well_formed cache ->
  Map_size (evictExpired now cache) <= CACHE_MAX_SIZE ->
  let swept := cleanupCache now cache in
  fst (getCachedSegment env now url swept) = fst (getCachedSegment env now url cache)
  /\ snd (getCachedSegment env now url swept) = swept.
Proof.
  intros W L. cbv zeta.
  assert (E : cleanupCache now cache
              = filter (fun kv => negb (expired now (snd kv))) cache).
  { unfold cleanupCache. rewrite evictToCapacity_small by exact L.
    now apply evictExpired_filter. }
  rewrite E. unfold getCachedSegment.
  destruct (isCacheDisabled env); [auto|].
  rewrite Map_get_filter_unique by exact W.
  destruct (Map_get url cache) as [entry|]; [|auto].
  cbn [snd]. unfold expired.
  destruct (now - timestamp entry >? CACHE_EXPIRY_MS)%Z eqn:X; cbn [negb]; [auto|].
  rewrite X. auto.
Qed.

End LookupFacts.

Section BatchFacts.

Lemma Map_get_set_other {V} (k k' : string) (v : V) (m : Map V) :
  k' <> k -> Map_get k' (Map_set k v m) = Map_get k' m.
Proof.
  intros N. induction m as [|[k0 v0] m IH]; simpl.
  - apply String.eqb_neq in N. now rewrite N.
  - destruct (String.eqb_spec k k0) as [->|N0]; simpl.
    + apply String.eqb_neq in N. now rewrite N.
    + now rewrite IH.
Qed.

(** A batch of prefetches is not held to the capacity, and repeated URLs
    are not coalesced.  While the cache is enabled and below
    [CACHE_MAX_SIZE], the calls of a batch leave the cache as it is and
    start one request for each listed URL that has no unexpired entry,
    as often as it is listed and in the order of the list; the handler's
    own cache after the batch is that same cache; and when the listed
    URLs are distinct and new to the cache and every response arrives
    with a body, the cache ends with one entry more for each of them,
    however many they are. *)
Theorem batch_prefetch_outgrows_capacity (env : environment) (now : Z)
    (urls : list string) (headers : json) (cache : Cache) :
  isCacheDisabled env = false -> Map_size cache < CACHE_MAX_SIZE ->
  let unexpired u :=
    match Map_get u cache with
    | Some existing => (now - timestamp existing <=? CACHE_EXPIRY_MS)%Z
    | None => false
    end in
  prefetchAll_begin env now urls headers cache
  = (cache,
     List.map (fun u => (u, requestHeaders headers))
              (filter (fun u => negb (unexpired u)) urls))
  /\ settle env now cache (PrefetchAll urls headers) = cache
  /\ forall arrived,
       List.map (fun a => snd (fst a)) arrived = urls ->
       NoDup urls -> (forall u, In u urls -> Map_get u cache = None) ->
       (forall a, In a arrived ->
                  exists response bytes,
                    snd a = Ok response /\ ok response = true
                    /\ arrayBuffer response = Ok bytes) ->
       Map_size (prefetchAll_resume arrived cache) = Map_size cache + List.length urls.
Proof.
  intros D L unexpired.
  assert (B : forall u, prefetchSegment_begin env now u headers cache
                        = (cache, if unexpired u then Finished
                                  else AwaitingFetch u (requestHeaders headers))).
  { intros u. unfold prefetchSegment_begin, unexpired. rewrite D.
    destruct (Nat.leb_spec CACHE_MAX_SIZE (Map_size cache)); [lia|].
    destruct (Map_get u cache) as [existing|]; [|reflexivity].
    now destruct (now - timestamp existing <=? CACHE_EXPIRY_MS)%Z. }
  split; [|split].
  - induction urls as [|u urls IH]; [reflexivity|].
    cbn [prefetchAll_begin filter List.map]. rewrite B, IH.
    now destruct (unexpired u).
  - cbn [settle]. induction urls as [|u urls IH]; [reflexivity|].
    cbn [fold_left]. rewrite B. exact IH.
  - intros arrived. unfold prefetchAll_resume. clear B L unexpired.
    revert urls cache. induction arrived as [|[[t u] r] arrived IH];
      intros urls cache E N G A.
    + simpl in E. subst urls. simpl. lia.
    + simpl in E. subst urls. cbn [fold_left fst snd].
      destruct (A (t, u, r) (or_introl eq_refl)) as (response & bytes & Er & O & Bb).
      simpl in Er. subst r. unfold prefetchSegment_resume at 2. rewrite O, Bb. cbn [negb].
      inversion N as [|? ? Nu N']. subst.
      rewrite (IH (List.map (fun a => snd (fst a)) arrived)); [| reflexivity | exact N' | |].
      * rewrite Map_size_set, (G u (or_introl eq_refl)). simpl. lia.
      * intros u' Hu'. rewrite Map_get_set_other.
        -- apply G. now right.
        -- intros ->. contradiction.
      * intros a Ha. apply A. now right.
Qed.

End BatchFacts.

(* ================================================================== *)
(** * The sample caches *)
(* ================================================================== *)

Section SampleFacts.
Import JsString.

Lemma entriesFrom_keys (n : nat) (t : Z) (k : string) :
  In k (keys (Sample.entriesFrom n t)) ->
  exists i, 1 <= i <= n /\ k = "https://cdn.example/a/seg.ts?n=" ++ decimal i.
Proof.
  revert t. induction n as [|n IH]; intros t; [contradiction|].
  cbn [Sample.entriesFrom keys List.map fst]. intros [<-|H].
  - exists (S n). split; [lia|reflexivity].
  - destruct (IH _ H) as (i & Hi & ->). exists i. split; [lia|reflexivity].
Qed.

Lemma entriesFrom_well_formed (n : nat) (t : Z) : well_formed (Sample.entriesFrom n t).
Proof.
  unfold well_formed. revert t. induction n as [|n IH]; intros t.
  - constructor.
  - cbn [Sample.entriesFrom keys List.map fst]. constructor; [|apply IH].
    intros H. apply entriesFrom_keys in H as (i & Hi & E).
    apply (f_equal (drop 31)) in E. cbn [drop String.append] in E.
    apply decimal_inj in E. lia.
Qed.

End SampleFacts.

Section PrefetchFacts.

(** The prefetcher does nothing while the cache is disabled.  While it
    is enabled it first sweeps the cache if that has reached
    [CACHE_MAX_SIZE], and then skips the URL exactly when the URL has an
    entry that has not expired in the cache so swept; otherwise it goes
    on to fetch.  A URL that had an unexpired entry is skipped whenever
    the unexpired entries fit the capacity; above the capacity the sweep
    can take the URL's own unexpired entry away, and the prefetcher then
    fetches.  A prefetch that succeeds stores the body under the URL with
    the time of storing, in place of any entry the URL had, and touches
    no other key. *)
Theorem prefetch_skips_and_overwrites (env : environment) (now : Z) (url : string)
    (headers : json) (cache : Cache) :
  well_formed cache ->
  let swept :=
    if (CACHE_MAX_SIZE <=? Map_size cache)%nat then cleanupCache now cache else cache in
  let unexpired c :=
    exists existing,
      Map_get url c = Some existing /\ (now - timestamp existing <= CACHE_EXPIRY_MS)%Z in
  (isCacheDisabled env = true ->
     prefetchSegment_begin env now url headers cache = (cache, Finished))
  /\ (isCacheDisabled env = false ->
      (unexpired swept ->
       prefetchSegment_begin env now url headers cache = (swept, Finished))
      /\ (~ unexpired swept ->
          prefetchSegment_begin env now url headers cache
          = (swept, AwaitingFetch url (requestHeaders headers)))
      /\ (Map_size (evictExpired now cache) <= CACHE_MAX_SIZE ->
          unexpired cache -> unexpired swept)
      /\ exists now0 url0 cache0 existing0,
           well_formed cache0
           /\ Map_get url0 cache0 = Some existing0
           /\ (now0 - timestamp existing0 <= CACHE_EXPIRY_MS)%Z
           /\ snd (prefetchSegment_begin env now0 url0 headers cache0)
              = AwaitingFetch url0 (requestHeaders headers))
  /\ (forall response bytes,
        ok response = true -> arrayBuffer response = Ok bytes ->
        let cache' := prefetchSegment_resume now url (Ok response) cache in
        Map_get url cache' = Some (MkEntry bytes (response_headers response) now)
        /\ (forall k, k <> url -> Map_get k cache' = Map_get k cache)
        /\ well_formed cache'
        /\ (Map_get url cache <> None -> Map_size cache' = Map_size cache)).
Proof.
  intros W swept unexpired. split; [|split].
  - intros D. unfold prefetchSegment_begin. now rewrite D.
  - intros D. split; [|split; [|split]].
    + intros (existing & G & F). unfold prefetchSegment_begin. rewrite D.
      fold swept. rewrite G.
      destruct (Z.leb_spec (now - timestamp existing) CACHE_EXPIRY_MS); [reflexivity|lia].
    + intros N. unfold prefetchSegment_begin. rewrite D. fold swept.
      destruct (Map_get url swept) as [existing|] eqn:G; [|reflexivity].
      destruct (Z.leb_spec (now - timestamp existing) CACHE_EXPIRY_MS); [|reflexivity].
      exfalso. apply N. exists existing. auto.
    + intros L (existing & G & F). exists existing. split; [|exact F].
      unfold swept. destruct (CACHE_MAX_SIZE <=? Map_size cache)%nat; [|exact G].
      unfold cleanupCache. rewrite evictToCapacity_small by exact L.
      rewrite evictExpired_filter, Map_get_filter_unique, G by exact W.
      cbn [snd]. unfold expired.
      destruct (Z.gtb_spec (now - timestamp existing) CACHE_EXPIRY_MS); [lia|reflexivity].
    + exists 2001%Z, "https://cdn.example/a/seg.ts?n=2001", (Sample.entriesFrom 2001 0),
        (Sample.entryAt 0).
      split; [apply entriesFrom_well_formed|]. split; [reflexivity|].
      split; [vm_compute; discriminate|].
      unfold prefetchSegment_begin. rewrite D.
      replace (CACHE_MAX_SIZE <=? Map_size (Sample.entriesFrom 2001 0))%nat with true
        by (vm_compute; reflexivity).
      replace (Map_get "https://cdn.example/a/seg.ts?n=2001"
                 (cleanupCache 2001 (Sample.entriesFrom 2001 0)))
        with (@None CacheEntry) by (vm_compute; reflexivity).
      reflexivity.
  - intros response bytes O B. cbv zeta. unfold prefetchSegment_resume.
    rewrite O, B. cbn [negb].
    split; [apply Map_get_set_same|]. split; [|split].
    + intros k N. now apply Map_get_set_other.
    + now apply well_formed_set.
    + intros G. rewrite Map_size_set. now destruct (Map_get url cache).
Qed.

End PrefetchFacts.

Section ServingFacts.
Import JsString.

Variable JSON_parse : string -> outcome json.
Variable fetch : string -> object -> outcome Response.


End ServingFacts.

(* ================================================================== *)
(** * The claims on the sample platform *)
(* ================================================================== *)


(** C1 on the sample media playlist: the rewriter returns a text of eight
    lines, as many as the playlist has, the fourth of them the proxy URL
    of the first segment. *)
Lemma media_rewrite_keeps_lines_sample :
  classify Sample.MEDIA_PLAYLIST = Media
  /\ exists effects rewritten,
       rewrite Sample.newURL Sample.JSON_stringify Sample.ENABLED Sample.MEDIA_URL
               (JObject []) "https://proxy.example" Sample.MEDIA_PLAYLIST
         = (effects, Ok rewritten)
       /\ List.length (JsString.split_nl rewritten) = 8
       /\ nth_error (JsString.split_nl rewritten) 3
          = Some ("https://proxy.example/ts-proxy?url="
                  ++ "https%3A%2F%2Fcdn.example%2Fa%2Fseg1.ts&headers=%7B%7D").
Proof.
  split; [reflexivity|].
  pose proof (media_rewrite_keeps_lines Sample.newURL Sample.JSON_stringify
                Sample.ENABLED Sample.MEDIA_URL (JObject []) "https://proxy.example"
                Sample.MEDIA_PLAYLIST eq_refl) as H.
  cbv zeta in H. destruct H as (T & _ & P).
  destruct T as (effects & rewritten & E).
  { intros line HIn S. vm_compute in HIn.
    repeat (destruct HIn as [<-|HIn]; [try discriminate S; eexists; reflexivity|]).
    contradiction. }
  exists effects, rewritten. split; [exact E|].
  destruct (P _ _ E) as (newLines & _ & L & S & N).
  rewrite (S eq_refl). split; [rewrite L; reflexivity|].
  destruct (N 3 "seg1.ts" eq_refl) as (newLine & Hn & _ & _ & Hs).
  rewrite Hn. f_equal.
  apply (Hs eq_refl eq_refl "https://cdn.example/a/seg1.ts"); reflexivity.
Defined.

(** C1 as stated fails on the broken playlist, which is classified as a
    media playlist: its third line is [http://], the resolver throws on
    it, and the rewriter returns no text at all. *)
Lemma broken_media_playlist_counterexample :
  classify Sample.BROKEN_PLAYLIST = Media
  /\ nth_error (JsString.split_nl Sample.BROKEN_PLAYLIST) 2 = Some "http://"
  /\ parseURL Sample.newURL "http://" (Some Sample.BROKEN_URL) = Throw Sample.invalidURL
  /\ rewrite Sample.newURL Sample.JSON_stringify Sample.ENABLED Sample.BROKEN_URL
       (JObject []) "https://proxy.example" Sample.BROKEN_PLAYLIST
     = ([], Throw Sample.invalidURL).
Proof. repeat split; vm_compute; reflexivity. Qed.

(** C3 on a cache of 2003 entries inserted one millisecond apart, none of
    them expired: the pass leaves the 2000 youngest. *)
Lemma cleanupCache_capacity_sample :
  well_formed (Sample.entriesFrom 2003 0)
  /\ Map_size (cleanupCache 2002 (Sample.entriesFrom 2003 0)) = CACHE_MAX_SIZE
  /\ cleanupCache 2002 (Sample.entriesFrom 2003 0) = Sample.entriesFrom 2000 3.
Proof.
  split; [apply entriesFrom_well_formed|].
  pose proof (cleanupCache_capacity 2002 (Sample.entriesFrom 2003 0)
                (entriesFrom_well_formed 2003 0)) as H.
  cbv zeta in H. destruct H as (_ & _ & _ & _ & H).
  split; [|vm_compute; reflexivity].
  apply H. apply Nat.ltb_lt. vm_compute. reflexivity.
Defined.

(** C4 on the sample platform: the segment a prefetch stored at 0 is
    handed back at 7200000 and is a miss, and gone, at 7200001. *)
Lemma getCachedSegment_lazy_expiry_sample :
  let url := "https://cdn.example/a/seg1.ts" in
  let entry := MkEntry Sample.SEGMENT_BYTES [("content-type", "video/mp2t")] 0 in
  prefetchSegment_resume 0 url (Sample.fetch url (requestHeaders (JObject []))) []
  = [(url, entry)]
  /\ getCachedSegment Sample.ENABLED 7200000 url [(url, entry)]
     = (Some entry, [(url, entry)])
  /\ getCachedSegment Sample.ENABLED 7200001 url [(url, entry)] = (None, []).
Proof.
  cbv zeta. split; [reflexivity|].
  assert (R : reachable Sample.newURL Sample.JSON_parse Sample.JSON_stringify Sample.fetch
                Sample.toFixed Sample.ENABLED
                [("https://cdn.example/a/seg1.ts",
                  MkEntry Sample.SEGMENT_BYTES [("content-type", "video/mp2t")] 0)]).
  { exact (reach_prefetched _ _ _ _ _ Sample.ENABLED 0 [] []
             "https://cdn.example/a/seg1.ts" (JObject []) (requestHeaders (JObject [])) 0
             (Sample.fetch "https://cdn.example/a/seg1.ts" (requestHeaders (JObject [])))
             [] eq_refl (reach_start _ _ _ _ _ _)). }
  destruct (getCachedSegment_lazy_expiry Sample.newURL Sample.JSON_parse
              Sample.JSON_stringify Sample.fetch Sample.toFixed Sample.ENABLED 7200000
              "https://cdn.example/a/seg1.ts" _ R) as (H & _ & _).
  destruct (H _ eq_refl) as [Fresh _].
  destruct (getCachedSegment_lazy_expiry Sample.newURL Sample.JSON_parse
              Sample.JSON_stringify Sample.fetch Sample.toFixed Sample.ENABLED 7200001
              "https://cdn.example/a/seg1.ts" _ R) as (H' & _ & _).
  destruct (H' _ eq_refl) as [_ Stale].
  split.
  - apply Fresh. vm_compute. discriminate.
  - apply Stale. reflexivity.
Defined.

(** C5 on the sample platform: with proxying enabled the stats of the
    empty cache are answered; with a query string behind the path the
    request is taken for a manifest request and answered 400. *)
Lemma cache_stats_answer_sample :
  path (Sample.get "/cache-stats" None None) = "/cache-stats"
  /\ m3u8Handler Sample.newURL Sample.JSON_parse Sample.JSON_stringify Sample.fetch
       Sample.toFixed Sample.ENABLED (Sample.get "/cache-stats" None None) 0 []
     = (RSuccess [("Content-Type", "application/json");
                  ("Cache-Control", "no-cache, no-store, must-revalidate")]
                 (BStats (MkStats 0 "0.00" "0.00" 2000 2%float)),
        [], [Cleanup])
  /\ m3u8Handler Sample.newURL Sample.JSON_parse Sample.JSON_stringify Sample.fetch
       Sample.toFixed Sample.ENABLED (Sample.get "/cache-stats?x=1" None None) 0 []
     = (RError 400 "URL parameter is required", [], []).
Proof.
  split; [reflexivity|]. split.
  - destruct (cache_stats_answer Sample.newURL Sample.JSON_parse Sample.JSON_stringify
                Sample.fetch Sample.toFixed Sample.ENABLED
                (Sample.get "/cache-stats" None None) 0 []) as [H _].
    destruct (H eq_refl) as [E _]. rewrite E. vm_compute. reflexivity.
  - destruct (cache_stats_answer Sample.newURL Sample.JSON_parse Sample.JSON_stringify
                Sample.fetch Sample.toFixed Sample.ENABLED
                (Sample.get "/cache-stats?x=1" None None) 0 []) as [_ H].
    destruct H as (_ & _ & E); [discriminate|reflexivity|reflexivity|].
    apply E. reflexivity.
Defined.

(** C5 as stated fails under the configuration [DISABLE_M3U8=true]: the
    stats request is answered 404. *)
Lemma cache_stats_disabled_counterexample :
  m3u8Handler Sample.newURL Sample.JSON_parse Sample.JSON_stringify Sample.fetch
    Sample.toFixed Sample.PROXY_OFF (Sample.get "/cache-stats" None None) 0 []
  = (RError 404 "M3U8 proxying is disabled", [], []).
Proof. reflexivity. Qed.

(** C6 on the sample platform: the third line of the broken playlist is
    [http://], which the URL constructor rejects, and the request is
    answered 500. *)
Lemma unresolvable_line_fails_request_sample :
  In "http://" (JsString.split_nl Sample.BROKEN_PLAYLIST)
  /\ Sample.newURL "http://" (Some Sample.BROKEN_URL) = Throw Sample.invalidURL
  /\ exists effects e',
       proxyM3U8 Sample.newURL Sample.JSON_parse Sample.JSON_stringify Sample.fetch
         Sample.ENABLED (Sample.get "/m3u8-proxy" (Some Sample.BROKEN_URL) None)
       = (effects, RError 500 (messageOr e' "Error proxying M3U8 file")).
Proof.
  assert (HIn : In "http://" (JsString.split_nl Sample.BROKEN_PLAYLIST))
    by (vm_compute; auto).
  split; [exact HIn|]. split; [reflexivity|].
  exact (unresolvable_line_fails_request Sample.newURL Sample.JSON_parse
           Sample.JSON_stringify Sample.fetch Sample.ENABLED
           (Sample.get "/m3u8-proxy" (Some Sample.BROKEN_URL) None)
           Sample.BROKEN_URL (JObject [])
           (MkResponse true 200 "OK" (Ok Sample.BROKEN_PLAYLIST) (Ok [])
              [("content-type", "application/vnd.apple.mpegurl")])
           Sample.BROKEN_PLAYLIST "http://" Sample.invalidURL
           eq_refl eq_refl eq_refl eq_refl eq_refl eq_refl HIn eq_refl eq_refl).
Defined.

(** The answer to the request for the broken playlist, evaluated. *)
Lemma broken_playlist_answer :
  proxyM3U8 Sample.newURL Sample.JSON_parse Sample.JSON_stringify Sample.fetch
    Sample.ENABLED (Sample.get "/m3u8-proxy" (Some Sample.BROKEN_URL) None)
  = ([], RError 500 "Invalid URL").
Proof. vm_compute. reflexivity. Qed.

(** C7 as stated fails at [example.com:99999]: the input matches the
    pattern, it does not begin with [http:] or [https:], and the [URL]
    constructor builds no URL with an empty host from it (the port is out
    of range and it throws); the resolver returns [null] all the same. *)
Lemma parseURL_port_out_of_range_counterexample :
  parseURL Sample.newURL "example.com:99999" None = Ok None
  /\ Regex.exec URL_PATTERN "example.com:99999" <> None
  /\ Regex.test SCHEME_PREFIX "example.com:99999" = false
  /\ (forall m, Regex.exec URL_PATTERN "example.com:99999" = Some m ->
        (if groupMissing 1 m then withAssumedScheme "example.com:99999" m
         else "example.com:99999") = "http://example.com:99999")
  /\ Sample.newURL "http://example.com:99999" None = Throw Sample.invalidURL.
Proof.
  split; [vm_compute; reflexivity|]. split; [vm_compute; discriminate|].
  split; [vm_compute; reflexivity|]. split; [|reflexivity].
  intros m H. vm_compute in H. injection H as <-. vm_compute. reflexivity.
Qed.



(** C9 as stated fails when the requested key is stored but expired: the
    request misses, is served from the origin, and the cache after it is
    not the cache before it. *)
Lemma segment_miss_changes_cache_counterexample :
  fst (getCachedSegment Sample.ENABLED 7200001 "https://cdn.example/a/seg1.ts"
         [("https://cdn.example/a/seg1.ts", Sample.entryAt 0)]) = None
  /\ tsHandler Sample.JSON_parse Sample.fetch Sample.ENABLED
       (Sample.get "/ts-proxy" (Some "https://cdn.example/a/seg1.ts") None) 7200001
       [("https://cdn.example/a/seg1.ts", Sample.entryAt 0)]
     = (RSuccess (SEGMENT_HEADERS "video/mp2t") (BBytes Sample.SEGMENT_BYTES), [])
  /\ [("https://cdn.example/a/seg1.ts", Sample.entryAt 0)] <> ([] : Cache).
Proof.
  split; [reflexivity|]. split; [vm_compute; reflexivity|]. discriminate.
Qed.



(** The master playlist of two variants, rewritten for the request
    [https://cdn.example/a/master.m3u8] with no headers: the two variant
    lines become manifest-proxy URLs, in the same order, and the
    directives stay. *)
Lemma master_rewrite_keeps_lines_sample :
  classify Sample.MASTER_PLAYLIST = Master
  /\ exists rewritten,
       rewrite Sample.newURL Sample.JSON_stringify Sample.ENABLED Sample.MASTER_URL
               (JObject []) "https://proxy.example" Sample.MASTER_PLAYLIST
         = ([], Ok rewritten)
       /\ JsString.split_nl rewritten
          = ["#EXTM3U";
             "#EXT-X-STREAM-INF:RESOLUTION=1920x1080";
             "https://proxy.example/m3u8-proxy?url="
               ++ "https%3A%2F%2Fcdn.example%2Fa%2Fhi.m3u8&headers=%7B%7D";
             "#EXT-X-STREAM-INF:RESOLUTION=640x360";
             "https://proxy.example/m3u8-proxy?url="
               ++ "https%3A%2F%2Fcdn.example%2Fa%2Flo.m3u8&headers=%7B%7D";
             ""].
Proof.
  split; [reflexivity|].
  pose proof (master_rewrite_keeps_lines Sample.newURL Sample.JSON_stringify
                Sample.ENABLED Sample.MASTER_URL (JObject []) "https://proxy.example"
                Sample.MASTER_PLAYLIST eq_refl) as H.
  cbv zeta in H. destruct H as (T & _ & _).
  destruct T as (rewritten & E).
  { intros line HIn S. vm_compute in HIn.
    repeat (destruct HIn as [<-|HIn]; [try discriminate S; eexists; reflexivity|]).
    contradiction. }
  exists rewritten. split; [exact E|].
  vm_compute in E. injection E as <-. vm_compute. reflexivity.
Defined.

(** A second pass over the sample cache of 2003 entries changes nothing. *)
Lemma cleanupCache_idempotent_sample :
  well_formed (Sample.entriesFrom 2003 0)
  /\ cleanupCache 2002 (cleanupCache 2002 (Sample.entriesFrom 2003 0))
     = cleanupCache 2002 (Sample.entriesFrom 2003 0).
Proof.
  split; [apply entriesFrom_well_formed|].
  apply (cleanupCache_idempotent 2002 (Sample.entriesFrom 2003 0)).
  apply entriesFrom_well_formed.
Defined.


(** A prefetch of a URL cached one second ago is skipped. *)
Lemma prefetch_skips_and_overwrites_sample :
  well_formed [("k", Sample.entryAt 0)]
  /\ prefetchSegment_begin Sample.ENABLED 1000 "k" (JObject []) [("k", Sample.entryAt 0)]
     = ([("k", Sample.entryAt 0)], Finished).
Proof.
  assert (W : well_formed [("k", Sample.entryAt 0)]).
  { repeat constructor. intros []. }
  split; [exact W|].
  destruct (prefetch_skips_and_overwrites Sample.ENABLED 1000 "k" (JObject [])
              [("k", Sample.entryAt 0)] W) as (_ & H & _).
  destruct (H eq_refl) as (S & _).
  apply S. exists (Sample.entryAt 0). split; [reflexivity|]. vm_compute. discriminate.
Defined.

(** With the cache disabled a manifest request leaves the cache empty;
    with it enabled, the cache after a request and a prefetch that has
    stored its segment is a map. *)
Lemma cache_of_a_process_sample :
  isCacheDisabled Sample.CACHE_OFF = true
  /\ snd (fst (m3u8Handler Sample.newURL Sample.JSON_parse Sample.JSON_stringify
                 Sample.fetch Sample.toFixed Sample.CACHE_OFF
                 (Sample.get "/m3u8-proxy" (Some Sample.MEDIA_URL) None) 0 [])) = []
  /\ well_formed
       (prefetchSegment_resume 5 "https://cdn.example/a/seg1.ts"
          (Sample.fetch "https://cdn.example/a/seg1.ts" (requestHeaders (JObject [])))
          (snd (fst (m3u8Handler Sample.newURL Sample.JSON_parse Sample.JSON_stringify
                       Sample.fetch Sample.toFixed Sample.ENABLED
                       (Sample.get "/m3u8-proxy" (Some Sample.MEDIA_URL) None) 0 [])))).
Proof.
  split; [reflexivity|]. split.
  - apply (cache_of_a_process Sample.newURL Sample.JSON_parse Sample.JSON_stringify
             Sample.fetch Sample.toFixed Sample.CACHE_OFF _
             (reach_manifest _ _ _ _ _ _ _ _ _ (reach_start _ _ _ _ _ _))).
    reflexivity.
  - apply (cache_of_a_process Sample.newURL Sample.JSON_parse Sample.JSON_stringify
             Sample.fetch Sample.toFixed Sample.ENABLED _
             (reach_prefetched _ _ _ _ _ Sample.ENABLED 0 [] [] "https://cdn.example/a/seg1.ts"
                (JObject []) (requestHeaders (JObject [])) 5 _ _ eq_refl
                (reach_manifest _ _ _ _ _ _ _ _ _ (reach_start _ _ _ _ _ _)))).
Defined.

(* ================================================================== *)
(** * Further facts on the sample platform *)
(* ================================================================== *)

(** The key directive of the specification's example with an attribute
    behind the URI: the quotes and the attribute stay where they were. *)
Lemma directive_url_replaced_in_place_sample :
  let line := "#EXT-X-KEY:METHOD=AES-128,URI=" ++ Sample.quoted Sample.KEY_URL ++ ",IV=0x1" in
  firstAbsoluteUrl line = Some Sample.KEY_URL
  /\ JsString.includes "https://proxy.example" "$" = false
  /\ mediaLine Sample.newURL Sample.JSON_stringify Sample.ENABLED Sample.MEDIA_URL
       (JObject []) "https://proxy.example" line
     = ([Prefetch Sample.KEY_URL (JObject [])],
        Ok ("#EXT-X-KEY:METHOD=AES-128,URI="
            ++ Sample.quoted
                 "https://proxy.example/ts-proxy?url=https%3A%2F%2Fkeys.example%2Fk1.bin&headers=%7B%7D"
            ++ ",IV=0x1", [])).
Proof.
  cbv zeta. split; [reflexivity|]. split; [reflexivity|].
  destruct (directive_url_replaced_in_place Sample.newURL Sample.JSON_stringify
              Sample.ENABLED Sample.MEDIA_URL (JObject []) "https://proxy.example"
              ("#EXT-X-KEY:METHOD=AES-128,URI=" ++ Sample.quoted Sample.KEY_URL ++ ",IV=0x1")
              Sample.KEY_URL eq_refl eq_refl)
    as (pre & post & _ & C & _ & K & _).
  vm_compute in C. injection C as <- <-.
  destruct (K eq_refl) as [_ M]. exact M.
Defined.

(** Two entries that have not expired are left as they are. *)
Lemma cleanupCache_keeps_order_sample :
  well_formed (Sample.entriesFrom 2 1)
  /\ cleanupCache 7200001 (Sample.entriesFrom 2 1) = Sample.entriesFrom 2 1.
Proof.
  split; [apply entriesFrom_well_formed|].
  destruct (cleanupCache_keeps_order 7200001 (Sample.entriesFrom 2 1)
              (entriesFrom_well_formed 2 1)) as (_ & _ & _ & H).
  apply H.
  - apply Nat.leb_le. reflexivity.
  - intros kv [<-|[<-|[]]]; reflexivity.
Defined.

(** A manifest request made when the only entry has expired sweeps it
    away and stores nothing in its place. *)
Lemma manifest_request_never_stores_sample :
  well_formed [("k", Sample.entryAt 0)]
  /\ snd (fst (m3u8Handler Sample.newURL Sample.JSON_parse Sample.JSON_stringify
                 Sample.fetch Sample.toFixed Sample.ENABLED
                 (Sample.get "/m3u8-proxy" (Some Sample.MEDIA_URL) None) 7200001
                 [("k", Sample.entryAt 0)])) = []
  /\ forall k v,
       Map_get k (snd (fst (m3u8Handler Sample.newURL Sample.JSON_parse
                              Sample.JSON_stringify Sample.fetch Sample.toFixed
                              Sample.ENABLED
                              (Sample.get "/m3u8-proxy" (Some Sample.MEDIA_URL) None)
                              7200001 [("k", Sample.entryAt 0)]))) = Some v ->
       Map_get k [("k", Sample.entryAt 0)] = Some v.
Proof.
  assert (W : well_formed [("k", Sample.entryAt 0)]) by (repeat constructor; intros []).
  split; [exact W|]. split; [reflexivity|].
  exact (proj1 (manifest_request_never_stores Sample.newURL Sample.JSON_parse
                  Sample.JSON_stringify Sample.fetch Sample.toFixed Sample.ENABLED
                  (Sample.get "/m3u8-proxy" (Some Sample.MEDIA_URL) None) 7200001
                  [("k", Sample.entryAt 0)] W)).
Defined.

(** The JSON string of the two characters U+00E9 and U+1F600 is six
    bytes and three code units long: it gives the origin request the
    headers 0, 1 and 2, the last two holding the surrogates D83D and
    DE00, and no header 3. *)
Lemma request_headers_merge_sample :
  let s := (Sample.E_ACUTE ++ Sample.GRINNING_FACE)%string in
  String.length s = 6
  /\ Map_get "0" (requestHeaders (JString s)) = Some (JString Sample.E_ACUTE)
  /\ Map_get "1" (requestHeaders (JString s)) = Some (JString (utf8_3 55357))
  /\ Map_get "2" (requestHeaders (JString s)) = Some (JString (utf8_3 56832))
  /\ Map_get "3" (requestHeaders (JString s)) = None
  /\ Map_get "User-Agent" (requestHeaders (JString s)) = Some (JString USER_AGENT).
Proof.
  cbv zeta. split; [reflexivity|].
  destruct (request_headers_merge (JString (Sample.E_ACUTE ++ Sample.GRINNING_FACE)))
    as [_ H].
  rewrite !H. repeat split.
Defined.

(** An origin that answers 404 makes both endpoints answer 500. *)
Lemma origin_failure_answers_500_sample :
  let gone := fun (_ : string) (_ : object) =>
                Ok (MkResponse false 404 "Not Found" (Ok EmptyString) (Ok []) []) in
  proxyM3U8 Sample.newURL Sample.JSON_parse Sample.JSON_stringify gone Sample.ENABLED
    (Sample.get "/m3u8-proxy" (Some Sample.MEDIA_URL) None)
  = ([], RError 500 "Failed to fetch M3U8: 404 Not Found")
  /\ fst (tsHandler Sample.JSON_parse gone Sample.ENABLED
            (Sample.get "/ts-proxy" (Some Sample.MEDIA_URL) None) 0 [])
     = RError 500 "Failed to fetch TS file: 404 Not Found".
Proof.
  cbv zeta.
  set (gone := fun (_ : string) (_ : object) =>
                 Ok (MkResponse false 404 "Not Found" (Ok EmptyString) (Ok []) [])).
  split.
  - destruct (origin_failure_answers_500 Sample.newURL Sample.JSON_parse
                Sample.JSON_stringify gone Sample.ENABLED
                (Sample.get "/m3u8-proxy" (Some Sample.MEDIA_URL) None)
                Sample.MEDIA_URL (JObject []) eq_refl eq_refl eq_refl) as [H _].
    exact (proj1 (H _ eq_refl eq_refl)).
  - destruct (origin_failure_answers_500 Sample.newURL Sample.JSON_parse
                Sample.JSON_stringify gone Sample.ENABLED
                (Sample.get "/ts-proxy" (Some Sample.MEDIA_URL) None)
                Sample.MEDIA_URL (JObject []) eq_refl eq_refl eq_refl) as [H _].
    exact (proj2 (H _ eq_refl eq_refl) 0%Z [] eq_refl eq_refl eq_refl).
Defined.


(** A prefetch into a cache of 2000 fresh entries ends with 2001. *)
Lemma prefetch_may_exceed_capacity_sample :
  well_formed (Sample.entriesFrom 2000 0)
  /\ Map_size (Sample.entriesFrom 2000 0) = CACHE_MAX_SIZE
  /\ Map_size
       (prefetchSegment_resume 2001 "https://cdn.example/a/seg1.ts"
          (Sample.fetch "https://cdn.example/a/seg1.ts" (requestHeaders (JObject [])))
          (fst (prefetchSegment_begin Sample.ENABLED 2000 "https://cdn.example/a/seg1.ts"
                  (JObject []) (Sample.entriesFrom 2000 0))))
     = CACHE_MAX_SIZE + 1.
Proof.
  assert (S : Map_size (Sample.entriesFrom 2000 0) = CACHE_MAX_SIZE)
    by (vm_compute; reflexivity).
  split; [apply entriesFrom_well_formed|]. split; [exact S|].
  destruct (prefetch_may_exceed_capacity Sample.ENABLED 2000
              "https://cdn.example/a/seg1.ts" (JObject []) (Sample.entriesFrom 2000 0)
              eq_refl (entriesFrom_well_formed 2000 0)) as (_ & _ & H).
  destruct (H S) as [E R].
  - intros kv HIn.
    assert (F : forallb (fun kv => negb (expired 2000 (snd kv))) (Sample.entriesFrom 2000 0)
                = true) by (vm_compute; reflexivity).
    rewrite forallb_forall in F. apply negb_true_iff. now apply F.
  - vm_compute. reflexivity.
  - rewrite E. cbn [fst]. apply (R _ Sample.SEGMENT_BYTES 2001%Z); reflexivity.
Defined.

(** The stats of three entries the eldest of which has expired count
    two. *)
Lemma stats_count_the_swept_cache_sample :
  well_formed (Sample.entriesFrom 3 0)
  /\ entries (getCacheStats Sample.toFixed
                (snd (handleCacheStats Sample.toFixed 7200001 (Sample.entriesFrom 3 0)))) = 2
  /\ handleCacheStats Sample.toFixed 7200001
       (snd (handleCacheStats Sample.toFixed 7200001 (Sample.entriesFrom 3 0)))
     = handleCacheStats Sample.toFixed 7200001 (Sample.entriesFrom 3 0).
Proof.
  split; [apply entriesFrom_well_formed|]. split; [reflexivity|].
  exact (proj1 (proj2 (proj2 (proj2 (proj2 (proj2
           (stats_count_the_swept_cache Sample.toFixed 7200001 (Sample.entriesFrom 3 0)
              (entriesFrom_well_formed 3 0)))))))).
Defined.

(** A media playlist of tags only, and the empty manifest. *)
Lemma manifest_without_urls_is_unchanged_sample :
  rewrite Sample.newURL Sample.JSON_stringify Sample.ENABLED Sample.MEDIA_URL (JObject [])
    "https://proxy.example" ("#EXTM3U" ++ JsString.nl ++ "#EXT-X-ENDLIST" ++ JsString.nl)
  = ([], Ok ("#EXTM3U" ++ JsString.nl ++ "#EXT-X-ENDLIST" ++ JsString.nl))
  /\ rewrite Sample.newURL Sample.JSON_stringify Sample.ENABLED Sample.MEDIA_URL (JObject [])
       "https://proxy.example" EmptyString
     = ([], Ok EmptyString).
Proof.
  split.
  - apply (manifest_without_urls_is_unchanged Sample.newURL Sample.JSON_stringify
             Sample.ENABLED Sample.MEDIA_URL (JObject []) "https://proxy.example").
    intros line [<-|[<-|[<-|[]]]]; (split; [reflexivity|intros [H|H]; discriminate H]).
  - apply (manifest_without_urls_is_unchanged Sample.newURL Sample.JSON_stringify
             Sample.ENABLED Sample.MEDIA_URL (JObject []) "https://proxy.example").
    intros line [<-|[]]. split; [reflexivity|intros [H|H]; discriminate H].
Defined.



(** A URL constructor that refuses every input without a base serves the
    manifest endpoint as well as the sample one. *)
Lemma endpoints_never_resolve_without_base_sample :
  let strict := fun (input : string) (base : option string) =>
                  match base with
                  | Some _ => Sample.newURL input base
                  | None => Throw Sample.invalidURL
                  end in
  Sample.newURL "http://example.com" None <> strict "http://example.com" None
  /\ proxyM3U8 Sample.newURL Sample.JSON_parse Sample.JSON_stringify Sample.fetch
       Sample.ENABLED (Sample.get "/m3u8-proxy" (Some Sample.MASTER_URL) None)
     = proxyM3U8 strict Sample.JSON_parse Sample.JSON_stringify Sample.fetch
         Sample.ENABLED (Sample.get "/m3u8-proxy" (Some Sample.MASTER_URL) None).
Proof.
  cbv zeta. split; [discriminate|].
  apply (endpoints_never_resolve_without_base Sample.JSON_parse Sample.JSON_stringify
           Sample.fetch Sample.newURL
           (fun input base => match base with
                              | Some _ => Sample.newURL input base
                              | None => Throw Sample.invalidURL
                              end)).
  intros input base. reflexivity.
Defined.

(** A segment request without [url] while proxying is disabled gets the
    404, not the 400. *)
Lemma refused_before_any_work_sample :
  isM3U8Disabled Sample.PROXY_OFF = true
  /\ tsHandler Sample.JSON_parse Sample.fetch Sample.PROXY_OFF
       (Sample.get "/ts-proxy" None (Some "{bad json")) 0 [("k", Sample.entryAt 0)]
     = (RError 404 "TS proxying is disabled", [("k", Sample.entryAt 0)]).
Proof.
  split; [reflexivity|].
  exact (proj1 (refused_before_any_work Sample.newURL Sample.JSON_parse
                  Sample.JSON_stringify Sample.toFixed Sample.fetch Sample.PROXY_OFF
                  (Sample.get "/ts-proxy" None (Some "{bad json")) 0
                  [("k", Sample.entryAt 0)] (or_intror (or_introl eq_refl)))).
Defined.

(** Of three entries the eldest has expired: the lookup of the second
    returns it before and after the sweep. *)
Lemma sweep_and_lookup_agree_sample :
  well_formed (Sample.entriesFrom 3 0)
  /\ fst (getCachedSegment Sample.ENABLED 7200001 "https://cdn.example/a/seg.ts?n=2"
            (cleanupCache 7200001 (Sample.entriesFrom 3 0)))
     = Some (Sample.entryAt 1)
  /\ fst (getCachedSegment Sample.ENABLED 7200001 "https://cdn.example/a/seg.ts?n=2"
            (cleanupCache 7200001 (Sample.entriesFrom 3 0)))
     = fst (getCachedSegment Sample.ENABLED 7200001 "https://cdn.example/a/seg.ts?n=2"
              (Sample.entriesFrom 3 0)).
Proof.
  split; [apply entriesFrom_well_formed|]. split; [reflexivity|].
  apply (sweep_and_lookup_agree Sample.ENABLED 7200001 "https://cdn.example/a/seg.ts?n=2"
           (Sample.entriesFrom 3 0) (entriesFrom_well_formed 3 0)).
  apply Nat.leb_le. reflexivity.
Defined.

(** A segment listed twice is requested twice; two segments that arrive
    make two entries. *)
Lemma batch_prefetch_outgrows_capacity_sample :
  let segment := MkResponse true 200 "OK" (Throw (MkExn "body is not text" None))
                   (Ok Sample.SEGMENT_BYTES) [("content-type", "video/mp2t")] in
  Map_size (@nil (string * CacheEntry)) < CACHE_MAX_SIZE
  /\ prefetchAll_begin Sample.ENABLED 0 ["seg1"; "seg1"] (JObject []) []
     = ([], [("seg1", requestHeaders (JObject [])); ("seg1", requestHeaders (JObject []))])
  /\ Map_size (prefetchAll_resume [(5%Z, "seg1", Ok segment); (6%Z, "seg2", Ok segment)] [])
     = 2.
Proof.
  cbv zeta.
  assert (L : Map_size (@nil (string * CacheEntry)) < CACHE_MAX_SIZE)
    by (apply Nat.ltb_lt; reflexivity).
  split; [exact L|]. split.
  - exact (proj1 (batch_prefetch_outgrows_capacity Sample.ENABLED 0 ["seg1"; "seg1"]
                    (JObject []) [] eq_refl L)).
  - destruct (batch_prefetch_outgrows_capacity Sample.ENABLED 0 ["seg1"; "seg2"]
                (JObject []) [] eq_refl L) as (_ & _ & H).
    apply (H [(5%Z, "seg1", Ok _); (6%Z, "seg2", Ok _)]).
    + reflexivity.
    + repeat constructor; simpl; intuition discriminate.
    + intros u _. reflexivity.
    + intros a [<-|[<-|[]]]; eexists _, _; repeat split; reflexivity.
Defined.
